(** * NBA regular-season trip planner: game graph, trip search and ranking

    A shallow embedding of [utils/graph_builder.py] and of the search and
    ranking functions of [nba_trip_planner.py], with the properties of the
    design document stated and settled against it.

    Conventions of the embedding.
    - A game date is a day number ([Z]); the difference of two dates is a
      number of days, so [timedelta(days=1)] is [1].
    - Python exceptions are values of [exn]; a function that can raise returns
      a [result].
    - [networkx.DiGraph] is an insertion-ordered node list together with an
      insertion-ordered edge list; every lookup goes through [GameNode.__eq__]
      (team, date, opponent, venue), exactly as the dictionaries of networkx
      do.  One attribute dictionary exists per ordered pair of nodes: adding
      an edge that is already present updates its [direction] in place.
    - The recursive searches take a fuel argument that plays the role of the
      interpreter's recursion limit; it is shown never to run out. *)

From Stdlib Require Import List ZArith String Ascii DecimalString Bool Arith Lia.
From Stdlib Require Import Permutation Sorted.
Import ListNotations.
Local Open Scope string_scope.
Local Open Scope nat_scope.
Local Open Scope list_scope.

(** ** Exceptions and the error monad *)

Inductive exn : Type :=
| KeyError
| IndexError
| NetworkXError
| RecursionError.

Inductive result (A : Type) : Type :=
| Ok (a : A)
| Raise (e : exn).

Arguments Ok {A} a.
Arguments Raise {A} e.

Definition bind {A B : Type} (m : result A) (k : A -> result B) : result B :=
  match m with
  | Ok a => k a
  | Raise e => Raise e
  end.

Notation "x <- m ;; k" := (bind m (fun x => k))
  (at level 61, m at next level, right associativity).

(** [for x in l: acc.extend(f x)], stopping at the first exception. *)
Fixpoint extend_each {A B : Type} (f : A -> result (list B)) (l : list A)
  : result (list B) :=
  match l with
  | [] => Ok []
  | x :: r =>
      ys <- f x ;;
      zs <- extend_each f r ;;
      Ok (ys ++ zs)
  end.

(** [[f x for x in l]], stopping at the first exception. *)
Fixpoint map_each {A B : Type} (f : A -> result B) (l : list A)
  : result (list B) :=
  match l with
  | [] => Ok []
  | x :: r =>
      y <- f x ;;
      ys <- map_each f r ;;
      Ok (y :: ys)
  end.

(** ** Python dictionaries with string keys, as association lists *)

Fixpoint dict_lookup {V : Type} (d : list (string * V)) (k : string) : option V :=
  match d with
  | [] => None
  | (k', v) :: r => if String.eqb k' k then Some v else dict_lookup r k
  end.

(** [d.get(k, default)] *)
Definition dict_get {V : Type} (d : list (string * V)) (k : string) (default : V) : V :=
  match dict_lookup d k with
  | Some v => v
  | None => default
  end.

(** [d[k]] *)
Definition dict_getitem {V : Type} (d : list (string * V)) (k : string) : result V :=
  match dict_lookup d k with
  | Some v => Ok v
  | None => Raise KeyError
  end.

(** [x in l] for a list of strings *)
Definition str_in (x : string) (l : list string) : bool :=
  existsb (String.eqb x) l.

(** ** utils/graph_builder.py *)

Definition NORTHBOUND : list (string * list string) :=
  [ ("Wizards", ["76ers"; "Knicks"; "Nets"; "Celtics"]);
    ("76ers", ["Knicks"; "Nets"; "Celtics"]);
    ("Knicks", ["Celtics"]);
    ("Nets", ["Celtics"]) ].

Definition SOUTHBOUND : list (string * list string) :=
  [ ("Celtics", ["Knicks"; "Nets"; "76ers"; "Wizards"]);
    ("Knicks", ["76ers"; "Wizards"]);
    ("Nets", ["76ers"; "Wizards"]);
    ("76ers", ["Wizards"]) ].

Record GameNode : Type := mkGameNode {
  team : string;
  date : Z;
  opponent : string;
  venue : string;
  city_group : option string   (* [None] is the constructor's default *)
}.

(** [GameNode.__eq__]: the city group takes no part. *)
Definition node_eqb (a b : GameNode) : bool :=
  String.eqb (team a) (team b) && Z.eqb (date a) (date b)
  && String.eqb (opponent a) (opponent b) && String.eqb (venue a) (venue b).

(** [node.city_group == 'NYC'] *)
Definition is_NYC (n : GameNode) : bool :=
  match city_group n with
  | Some c => String.eqb c "NYC"
  | None => false
  end.

Definition is_consecutive_night (date1 date2 : Z) : bool :=
  Z.eqb (date2 - date1) 1.

Definition is_valid_geographic_transition
  (from_node to_node : GameNode) (direction : string) : bool :=
  let from_team := team from_node in
  let to_team := team to_node in
  if String.eqb direction "northbound" then
    if is_NYC from_node && is_NYC to_node && negb (String.eqb from_team to_team)
    then true
    else str_in to_team (dict_get NORTHBOUND from_team [])
  else if String.eqb direction "southbound" then
    if is_NYC from_node && is_NYC to_node && negb (String.eqb from_team to_team)
    then true
    else str_in to_team (dict_get SOUTHBOUND from_team [])
  else false.

Definition get_team_geographic_order : list (string * nat) :=
  [ ("Wizards", 1); ("76ers", 2); ("Knicks", 3); ("Nets", 3); ("Celtics", 4) ].

(** *** The directed graph *)

Record Edge : Type := mkEdge {
  e_from : GameNode;
  e_to : GameNode;
  e_direction : string
}.

Record DiGraph : Type := mkDiGraph {
  g_nodes : list GameNode;   (* [G.nodes()], in insertion order *)
  g_edges : list Edge        (* one entry per ordered pair, in insertion order *)
}.

Definition empty_graph : DiGraph := mkDiGraph [] [].

Definition has_node (G : DiGraph) (n : GameNode) : bool :=
  existsb (node_eqb n) (g_nodes G).

Definition edge_matches (u v : GameNode) (e : Edge) : bool :=
  node_eqb (e_from e) u && node_eqb (e_to e) v.

Definition number_of_nodes (G : DiGraph) : nat := List.length (g_nodes G).
Definition number_of_edges (G : DiGraph) : nat := List.length (g_edges G).

(** [G.add_node(n)]: a node equal to one already present is not added again. *)
Definition add_node (G : DiGraph) (n : GameNode) : DiGraph :=
  if has_node G n then G
  else mkDiGraph (g_nodes G ++ [n]) (g_edges G).

(** The attribute update of [add_edge] on the edge list. *)
Fixpoint set_direction (u v : GameNode) (d : string) (es : list Edge) : list Edge :=
  match es with
  | [] => [mkEdge u v d]
  | e :: r =>
      if edge_matches u v e
      then mkEdge (e_from e) (e_to e) d :: r
      else e :: set_direction u v d r
  end.

(** [G.add_edge(u, v, direction=d)] *)
Definition add_edge (G : DiGraph) (u v : GameNode) (d : string) : DiGraph :=
  let G1 := add_node (add_node G u) v in
  mkDiGraph (g_nodes G1) (set_direction u v d (g_edges G1)).

(** [G.successors(n)] *)
Definition successors (G : DiGraph) (n : GameNode) : result (list GameNode) :=
  if has_node G n
  then Ok (map e_to (filter (fun e => node_eqb (e_from e) n) (g_edges G)))
  else Raise NetworkXError.

(** [G.edges[u, v].get('direction')]; every edge of the program carries the
    attribute, so the [None] of [get] does not arise. *)
Definition edge_direction (G : DiGraph) (u v : GameNode) : result string :=
  match find (edge_matches u v) (g_edges G) with
  | Some e => Ok (e_direction e)
  | None => Raise KeyError
  end.

(** The body of the inner loop of [add_edges_to_graph]. *)
Definition add_edges_step (from_node : GameNode) (graph : DiGraph) (to_node : GameNode)
  : DiGraph :=
  if node_eqb from_node to_node then graph
  else if negb (is_consecutive_night (date from_node) (date to_node)) then graph
  else if String.eqb (team from_node) (team to_node) then graph
  else
    let graph1 :=
      if is_valid_geographic_transition from_node to_node "northbound"
      then add_edge graph from_node to_node "northbound"
      else graph in
    if is_valid_geographic_transition from_node to_node "southbound"
    then add_edge graph1 from_node to_node "southbound"
    else graph1.

Definition add_edges_to_graph (graph : DiGraph) (nodes : list GameNode) : DiGraph :=
  fold_left
    (fun g from_node => fold_left (add_edges_step from_node) nodes g)
    nodes graph.

(** The rows of the cleaned data frame are the nodes they are turned into. *)
Definition build_game_graph (cleaned_df : list GameNode) : DiGraph :=
  let G := fold_left add_node cleaned_df empty_graph in
  add_edges_to_graph G cleaned_df.

(** ** nba_trip_planner.py: the searches *)

Definition Trip : Type := list GameNode.

(** [s | {x}] on a set of team names; only membership is ever observed. *)
Definition set_add (x : string) (s : list string) : list string :=
  if str_in x s then s else x :: s.

(** [dfs_northbound], the closure of [find_northbound_trips].  The list it
    returns is what the call appends to [trips], in order. *)
Fixpoint dfs_northbound (fuel : nat) (graph : DiGraph) (current_node : GameNode)
  (visited_teams : list string) (path : Trip) : result (list Trip) :=
  match fuel with
  | O => Raise RecursionError
  | S fuel' =>
      let current_path := path ++ [current_node] in
      let current_teams := set_add (team current_node) visited_teams in
      let found :=
        if (3 <=? List.length current_path) && (List.length current_path <=? 5)
           && str_in "Wizards" current_teams
        then [current_path] else [] in
      if List.length current_path <? 5 then
        neighbors <- successors graph current_node ;;
        deeper <- extend_each
          (fun neighbor =>
             d <- edge_direction graph current_node neighbor ;;
             if String.eqb d "northbound" then
               if negb (str_in (team neighbor) current_teams)
               then dfs_northbound fuel' graph neighbor current_teams current_path
               else Ok []
             else Ok [])
          neighbors ;;
        Ok (found ++ deeper)
      else Ok found
  end.

(** The depth bound of the searches: a path never grows beyond five nodes, so
    five nested calls are the most a search makes. *)
Definition search_depth : nat := 5.

Definition find_northbound_trips (graph : DiGraph) (wizards_game : GameNode)
  : result (list Trip) :=
  dfs_northbound search_depth graph wizards_game [] [].

(** [dfs_southbound], the closure of [find_southbound_trips]. *)
Fixpoint dfs_southbound (fuel : nat) (graph : DiGraph) (current_node : GameNode)
  (visited_teams : list string) (path : Trip) : result (list Trip) :=
  match fuel with
  | O => Raise RecursionError
  | S fuel' =>
      let current_path := path ++ [current_node] in
      let current_teams := set_add (team current_node) visited_teams in
      let found :=
        if String.eqb (team current_node) "Wizards"
           && ((3 <=? List.length current_path) && (List.length current_path <=? 5))
        then [current_path] else [] in
      if List.length current_path <? 5 then
        neighbors <- successors graph current_node ;;
        deeper <- extend_each
          (fun neighbor =>
             d <- edge_direction graph current_node neighbor ;;
             if String.eqb d "southbound" then
               if negb (str_in (team neighbor) current_teams)
               then dfs_southbound fuel' graph neighbor current_teams current_path
               else Ok []
             else Ok [])
          neighbors ;;
        Ok (found ++ deeper)
      else Ok found
  end.

(** The anchor game passed in is never read: the search starts from every
    node of the graph that is not a Wizards game. *)
Definition find_southbound_trips (graph : DiGraph) (wizards_game : GameNode)
  : result (list Trip) :=
  extend_each
    (fun start_node =>
       if negb (String.eqb (team start_node) "Wizards")
       then dfs_southbound search_depth graph start_node [] []
       else Ok [])
    (g_nodes graph).

Definition find_all_valid_trips (graph : DiGraph) : result (list Trip) :=
  let wizards_games :=
    filter (fun node => String.eqb (team node) "Wizards") (g_nodes graph) in
  extend_each
    (fun wizards_game =>
       northbound_trips <- find_northbound_trips graph wizards_game ;;
       southbound_trips <- find_southbound_trips graph wizards_game ;;
       Ok (northbound_trips ++ southbound_trips))
    wizards_games.

(** ** nba_trip_planner.py: ranking *)

Definition geo_order : list (string * nat) :=
  [ ("Wizards", 1); ("76ers", 2); ("Knicks", 3); ("Nets", 3); ("Celtics", 4) ].

(** [l[i]] for an index that is not negative *)
Definition getitem {A : Type} (l : list A) (i : nat) : result A :=
  match nth_error l i with
  | Some x => Ok x
  | None => Raise IndexError
  end.

(** One turn of the loop of [calculate_travel_efficiency]. *)
Definition efficiency_step (trip : Trip) (jumps : nat) (i : nat) : result nat :=
  prev <- getitem trip (i - 1) ;;
  prev_order <- dict_getitem geo_order (team prev) ;;
  curr <- getitem trip i ;;
  curr_order <- dict_getitem geo_order (team curr) ;;
  Ok (if negb (Nat.eqb prev_order curr_order) then jumps + 1 else jumps).

Fixpoint efficiency_loop (trip : Trip) (jumps : nat) (indices : list nat) : result nat :=
  match indices with
  | [] => Ok jumps
  | i :: r =>
      jumps' <- efficiency_step trip jumps i ;;
      efficiency_loop trip jumps' r
  end.

Definition calculate_travel_efficiency (trip : Trip) : result nat :=
  if List.length trip <=? 1 then Ok 0
  else efficiency_loop trip 0 (seq 1 (List.length trip - 1)).

(** [tuple((node.team, node.date) for node in trip)] *)
Definition trip_key (trip : Trip) : list (string * Z) :=
  map (fun node => (team node, date node)) trip.

Definition pair_eqb (a b : string * Z) : bool :=
  String.eqb (fst a) (fst b) && Z.eqb (snd a) (snd b).

Fixpoint key_eqb (k1 k2 : list (string * Z)) : bool :=
  match k1, k2 with
  | [], [] => true
  | a :: r1, b :: r2 => pair_eqb a b && key_eqb r1 r2
  | _, _ => false
  end.

(** [key in seen] *)
Definition key_in (k : list (string * Z)) (seen : list (list (string * Z))) : bool :=
  existsb (key_eqb k) seen.

(** The deduplication loop of [rank_trips]: the state is [(unique_trips, seen)]. *)
Definition dedup_step (st : list Trip * list (list (string * Z))) (trip : Trip)
  : list Trip * list (list (string * Z)) :=
  let '(unique_trips, seen) := st in
  let key := trip_key trip in
  if negb (key_in key seen)
  then (unique_trips ++ [trip], key :: seen)
  else (unique_trips, seen).

Definition unique_trips_of (trips : list Trip) : list Trip :=
  fst (fold_left dedup_step trips ([], [])).

(** [trips_by_length]: a dictionary from length to list, in insertion order. *)
Definition LengthDict : Type := list (nat * list Trip).

Fixpoint length_dict_get (d : LengthDict) (k : nat) : option (list Trip) :=
  match d with
  | [] => None
  | (k', v) :: r => if Nat.eqb k' k then Some v else length_dict_get r k
  end.

(** [d[length].append(trip)], after [d[length] = []] when the key is new. *)
Fixpoint length_dict_append (d : LengthDict) (k : nat) (trip : Trip) : LengthDict :=
  match d with
  | [] => [(k, [trip])]
  | (k', v) :: r =>
      if Nat.eqb k' k then (k', v ++ [trip]) :: r
      else (k', v) :: length_dict_append r k trip
  end.

Definition group_by_length (unique_trips : list Trip) : LengthDict :=
  fold_left (fun d trip => length_dict_append d (List.length trip) trip)
    unique_trips [].

(** [list.sort(key=...)] on the list of (key, item) pairs it builds: a stable
    ascending sort.  Inserting from the right, in front of the first key that
    is not smaller, keeps equal keys in their input order. *)
Fixpoint insert_by_key {A : Type} (x : nat * A) (l : list (nat * A)) : list (nat * A) :=
  match l with
  | [] => [x]
  | y :: r =>
      if fst x <=? fst y then x :: y :: r
      else y :: insert_by_key x r
  end.

Definition stable_sort {A : Type} (l : list (nat * A)) : list (nat * A) :=
  fold_right insert_by_key [] l.

(** [l.sort(key=calculate_travel_efficiency)]: the keys of all items are
    computed first, and an exception among them leaves no result. *)
Definition sort_by_efficiency (l : list Trip) : result (list Trip) :=
  keys <- map_each calculate_travel_efficiency l ;;
  Ok (map snd (stable_sort (combine keys l))).

Definition rank_trips (trips : list Trip) : result LengthDict :=
  match trips with
  | [] => Ok []
  | _ =>
      let unique_trips := unique_trips_of trips in
      let trips_by_length := group_by_length unique_trips in
      map_each
        (fun entry : nat * list Trip =>
           sorted <- sort_by_efficiency (snd entry) ;;
           Ok (fst entry, sorted))
        trips_by_length
  end.

(** The run of [main] from the cleaned rows to the ranked trips. *)
Definition plan_trips (cleaned_df : list GameNode) : result LengthDict :=
  trips <- find_all_valid_trips (build_game_graph cleaned_df) ;;
  rank_trips trips.

(** ** nba_trip_planner.py: the report *)

(** [str(n)] for a number that is not negative *)
Definition str_of_nat (n : nat) : string :=
  NilEmpty.string_of_uint (Nat.to_uint n).

(** [s * n] *)
Fixpoint str_mul (s : string) (n : nat) : string :=
  match n with
  | O => ""
  | S k => String.append s (str_mul s k)
  end.

Definition newline : string := String (ascii_of_nat 10) EmptyString.

(** [enumerate(l, 1)] *)
Definition enumerate1 {A : Type} (l : list A) : list (nat * A) :=
  combine (seq 1 (List.length l)) l.

(** [l[-1]] *)
Definition getitem_last {A : Type} (l : list A) : result A :=
  match l with
  | [] => Raise IndexError
  | _ => getitem l (List.length l - 1)
  end.

Definition city_mapping : list (string * string) :=
  [ ("Wizards", "Washington DC");
    ("76ers", "Philadelphia");
    ("Knicks", "New York City");
    ("Nets", "New York City");
    ("Celtics", "Boston") ].

(** The direction of a trip, from the ranks of its first and last team; the
    rank map of [format_output] is the one of [calculate_travel_efficiency]. *)
Definition direction_of (trip : Trip) : result string :=
  first <- getitem trip 0 ;;
  first_order <- dict_getitem geo_order (team first) ;;
  final <- getitem_last trip ;;
  last_order <- dict_getitem geo_order (team final) ;;
  Ok (if first_order <? last_order then "NORTHBOUND"
      else if last_order <? first_order then "SOUTHBOUND"
      else "LOCAL").

(** The loop that collects the cities of a trip: the state is
    [(cities, seen)]. *)
Definition cities_step (st : list string * list string) (game : GameNode)
  : list string * list string :=
  let '(cities, seen) := st in
  let city := dict_get city_mapping (team game) (team game) in
  if negb (str_in city seen)
  then (cities ++ [city], city :: seen)
  else (cities, seen).

Definition cities_of (trip : Trip) : list string :=
  fst (fold_left cities_step trip ([], [])).

(** The lines of one night.  [strftime] is [date.strftime('%Y-%m-%d')]. *)
Definition game_lines (strftime : Z -> string) (j : nat) (game : GameNode)
  : list string :=
  [ String.concat "" ["    Night "; str_of_nat j; ": "; team game; " vs "; opponent game];
    String.append "           Date: " (strftime (date game));
    String.append "           Venue: " (venue game);
    "" ].

(** The lines of one trip. *)
Definition trip_lines (strftime : Z -> string) (i : nat) (trip : Trip)
  : result (list string) :=
  direction <- direction_of trip ;;
  let cities := cities_of trip in
  jumps <- calculate_travel_efficiency trip ;;
  Ok ([ String.concat "" ["Trip "; str_of_nat i; ":"];
        String.append "  Direction: " direction;
        String.append "  Cities: " (String.concat " -> " cities);
        String.concat "" ["  Travel Efficiency: "; str_of_nat jumps; " jumps"];
        "  Schedule:" ]
      ++ flat_map (fun p => game_lines strftime (fst p) (snd p)) (enumerate1 trip)
      ++ [str_mul "-" 30; ""]).

(** One turn of the loop over the lengths 5, 4, 3. *)
Definition length_lines (strftime : Z -> string) (ranked_trips : LengthDict)
  (length : nat) : result (list string) :=
  let trips :=
    match length_dict_get ranked_trips length with
    | Some g => g
    | None => []
    end in
  let header :=
    [ String.concat ""
        ["=== "; str_of_nat length; "-NIGHT TRIPS (";
         str_of_nat (List.length trips); " found) ==="];
      "" ] in
  match trips with
  | [] => Ok (header ++ ["  No valid trips found for this length."; ""])
  | _ =>
      body <- extend_each (fun p => trip_lines strftime (fst p) (snd p))
                (enumerate1 trips) ;;
      Ok (header ++ body)
  end.

(** [sum(len(trips) for trips in ranked_trips.values())] *)
Definition total_trips (ranked_trips : LengthDict) : nat :=
  list_sum (map (fun entry => List.length (snd entry)) ranked_trips).

Definition output_lines (now_text : string) (strftime : Z -> string)
  (ranked_trips : LengthDict) : result (list string) :=
  sections <- extend_each (length_lines strftime ranked_trips) [5; 4; 3] ;;
  Ok ([ "NBA TRIP PLANNER RESULTS";
        str_mul "=" 50;
        String.append "Generated on: " now_text;
        "";
        String.append "Total valid trips found: " (str_of_nat (total_trips ranked_trips));
        "" ]
      ++ sections).

(** What a call of [format_output] leaves: the file it wrote and the text
    it returned. *)
Record Report : Type := mkReport {
  file_name : string;
  file_content : string;
  returned : string
}.

(** [now_stamp] and [now_text] are what the two calls of [datetime.now()]
    format to.  The file is written after all lines are built, so a call
    that raises writes nothing. *)
Definition format_output (now_stamp now_text : string) (strftime : Z -> string)
  (ranked_trips : LengthDict) : result Report :=
  let filename := String.concat "" ["results/nba_trips_"; now_stamp; ".txt"] in
  lines <- output_lines now_text strftime ranked_trips ;;
  let output_content := String.concat newline lines in
  Ok (mkReport filename output_content output_content).

(** ** The input contract of the ingestion step (utils/data_processor.py) *)

Definition target_teams : list string :=
  ["Wizards"; "76ers"; "Knicks"; "Nets"; "Celtics"].

(** [add_geographic_info]: ['NYC' if x in ['Knicks', 'Nets'] else x] *)
Definition derived_city_group (t : string) : string :=
  if str_in t ["Knicks"; "Nets"] then "NYC" else t.

(** A row as [load_and_clean_csv] hands it over. *)
Definition well_formed_record (n : GameNode) : Prop :=
  str_in (team n) target_teams = true /\
  city_group n = Some (derived_city_group (team n)).

Definition well_formed_records (records : list GameNode) : Prop :=
  Forall well_formed_record records.

(** ** utils/data_processor.py: from the parsed rows to the cleaned rows *)

Definition team_mapping : list (string * string) :=
  [ ("Boston Celtics", "Celtics");
    ("Philadelphia 76ers", "76ers");
    ("New York Knicks", "Knicks");
    ("Brooklyn Nets", "Nets");
    ("Washington Wizards", "Wizards");
    ("Boston", "Celtics");
    ("Philadelphia", "76ers");
    ("New York", "Knicks");
    ("Brooklyn", "Nets");
    ("Washington", "Wizards");
    ("Celtics", "Celtics");
    ("76ers", "76ers");
    ("Knicks", "Knicks");
    ("Nets", "Nets");
    ("Wizards", "Wizards") ].

Definition standardize_team_names (team_name : string) : string :=
  dict_get team_mapping team_name team_name.

(** A row of the data frame, with the columns the program reads and the
    dates parsed. *)
Record ScheduleRow : Type := mkScheduleRow {
  Game_Date : Z;
  Visitor : string;
  Home : string;
  Arena : string
}.

(** A row with the two columns [add_geographic_info] adds; [None] is the
    NaN that [Series.map] leaves for a team outside the mapping. *)
Record CleanedRow : Type := mkCleanedRow {
  schedule_row : ScheduleRow;
  geo_order_column : option nat;
  city_group_column : string
}.

(** [df['Home'] = df['Home'].apply(standardize_team_names)], and the same
    for the visitor. *)
Definition standardize_rows (df : list ScheduleRow) : list ScheduleRow :=
  map (fun r => mkScheduleRow (Game_Date r) (standardize_team_names (Visitor r))
                  (standardize_team_names (Home r)) (Arena r))
    df.

(** [df[df['Home'].isin(target_teams)]] *)
Definition filter_target_teams (df : list ScheduleRow) : list ScheduleRow :=
  filter (fun r => str_in (Home r) target_teams) df.

Definition geo_order_mapping : list (string * nat) :=
  [ ("Wizards", 1); ("76ers", 2); ("Knicks", 3); ("Nets", 3); ("Celtics", 4) ].

Definition add_geographic_info (df : list ScheduleRow) : list CleanedRow :=
  map (fun r => mkCleanedRow r (dict_lookup geo_order_mapping (Home r))
                  (derived_city_group (Home r)))
    df.

(** The steps of [load_and_clean_csv] between the parsing of the dates and
    the sort by date. *)
Definition clean_rows (df : list ScheduleRow) : list CleanedRow :=
  add_geographic_info (filter_target_teams (standardize_rows df)).

(** The node [build_game_graph] makes of a row. *)
Definition node_of_row (r : CleanedRow) : GameNode :=
  mkGameNode (Home (schedule_row r)) (Game_Date (schedule_row r))
    (Visitor (schedule_row r)) (Arena (schedule_row r))
    (Some (city_group_column r)).

(** ** Vocabulary of the design document *)

(** The geographic rank of a team, where it has one. *)
Definition rank_of (t : string) : option nat :=
  dict_lookup get_team_geographic_order t.

(** [b] lies strictly further north than [a]. *)
Definition rank_lt (a b : string) : Prop :=
  match rank_of a, rank_of b with
  | Some x, Some y => x < y
  | _, _ => False
  end.

(** Both games are played in New York by two different teams. *)
Definition co_located (a b : GameNode) : bool :=
  is_NYC a && is_NYC b && negb (String.eqb (team a) (team b)).

(** The score of the design document, in its words: the number of adjacent
    pairs of a trip whose geographic ranks differ. *)
Fixpoint adjacent_pairs {A : Type} (l : list A) : list (A * A) :=
  match l with
  | a :: ((b :: _) as r) => (a, b) :: adjacent_pairs r
  | _ => []
  end.

Definition rank_differs (p : GameNode * GameNode) : bool :=
  match rank_of (team (fst p)), rank_of (team (snd p)) with
  | Some x, Some y => negb (Nat.eqb x y)
  | _, _ => false
  end.

Definition score_spec (trip : Trip) : nat :=
  List.length (filter rank_differs (adjacent_pairs trip)).

(** The trips of a group, wherever the group is missing from the mapping. *)
Definition trips_of_length (d : LengthDict) (k : nat) : list Trip :=
  match length_dict_get d k with
  | Some g => g
  | None => []
  end.

(** Every team of the trip has a geographic rank. *)
Definition ranked (n : GameNode) : bool :=
  match rank_of (team n) with
  | Some _ => true
  | None => false
  end.

Definition all_ranked (trip : Trip) : bool := forallb ranked trip.

(** Two trips with the same sequence of (team, date) pairs. *)
Definition same_key (t u : Trip) : bool := key_eqb (trip_key t) (trip_key u).

(** All trips of the ranker's output, group after group. *)
Definition ranked_output (d : LengthDict) : list Trip := List.concat (map snd d).

(** [l1] is [l2] with some elements left out, the others in their order. *)
Inductive subsequence {A : Type} : list A -> list A -> Prop :=
| subsequence_nil : subsequence [] []
| subsequence_skip : forall x l1 l2, subsequence l1 l2 -> subsequence l1 (x :: l2)
| subsequence_keep : forall x l1 l2, subsequence l1 l2 -> subsequence (x :: l1) (x :: l2).

(** The order of the keys the sort compares. *)
Definition key_le {A : Type} (x y : nat * A) : Prop := fst x <= fst y.

(** The trips of [l] whose key is neither in [seen] nor carried by an
    earlier trip of [l]: what the deduplication loop appends from [l] on. *)
Fixpoint first_seen (seen : list (list (string * Z))) (l : list Trip) : list Trip :=
  match l with
  | [] => []
  | t :: r =>
      if key_in (trip_key t) seen then first_seen seen r
      else t :: first_seen (trip_key t :: seen) r
  end.

Definition has_length (k : nat) (t : Trip) : bool := List.length t =? k.

Definition has_score (s : nat) (t : Trip) : bool := score_spec t =? s.

(** A group after the sort, when every key could be computed. *)
Definition sorted_by_score (l : list Trip) : list Trip :=
  map snd (stable_sort (map (fun t => (score_spec t, t)) l)).

(** The ranker's result when every key of the sort can be computed. *)
Definition sort_groups (d : LengthDict) : LengthDict :=
  map (fun entry => (fst entry, sorted_by_score (snd entry))) d.

(** A trip that has a given key, and with it the score a key determines. *)
Definition trip_of_key (k : list (string * Z)) : Trip :=
  map (fun p => mkGameNode (fst p) (snd p) "" "" None) k.

Definition key_score (k : list (string * Z)) : nat := score_spec (trip_of_key k).

(** ** The two searches as one traversal *)

(** What [GameNode.__eq__] and [__hash__] read of a node. *)
Definition node_id (n : GameNode) : string * Z * string * string :=
  (team n, date n, opponent n, venue n).

(** The test under which [dfs_northbound] records the current path. *)
Definition accept_northbound (current_node : GameNode) (current_teams : list string)
  (current_path : Trip) : bool :=
  (3 <=? List.length current_path) && (List.length current_path <=? 5)
  && str_in "Wizards" current_teams.

(** The test under which [dfs_southbound] records the current path. *)
Definition accept_southbound (current_node : GameNode) (current_teams : list string)
  (current_path : Trip) : bool :=
  String.eqb (team current_node) "Wizards"
  && ((3 <=? List.length current_path) && (List.length current_path <=? 5)).

(** The shape the two closures share: they differ in the edge label they
    follow and in the test for recording a path. *)
Fixpoint dfs (direction : string) (accept : GameNode -> list string -> Trip -> bool)
  (fuel : nat) (graph : DiGraph) (current_node : GameNode)
  (visited_teams : list string) (path : Trip) : result (list Trip) :=
  match fuel with
  | O => Raise RecursionError
  | S fuel' =>
      let current_path := path ++ [current_node] in
      let current_teams := set_add (team current_node) visited_teams in
      let found :=
        if accept current_node current_teams current_path
        then [current_path] else [] in
      if List.length current_path <? 5 then
        neighbors <- successors graph current_node ;;
        deeper <- extend_each
          (fun neighbor =>
             d <- edge_direction graph current_node neighbor ;;
             if String.eqb d direction then
               if negb (str_in (team neighbor) current_teams)
               then dfs direction accept fuel' graph neighbor current_teams current_path
               else Ok []
             else Ok [])
          neighbors ;;
        Ok (found ++ deeper)
      else Ok found
  end.

(** The graph has an edge from [a] to [b] that carries [direction]. *)
Definition linked (graph : DiGraph) (direction : string) (a b : GameNode) : Prop :=
  exists e, In e (g_edges graph) /\ edge_matches a b e = true
            /\ e_direction e = direction.

(** The paths a traversal records, as a relation: the path at the current
    node when the test accepts it, and the paths found from a neighbour
    over an edge of the direction, to a team not yet on the path, while the
    path has fewer than five nodes. *)
Inductive found_from (graph : DiGraph) (direction : string)
  (accept : GameNode -> list string -> Trip -> bool)
  : GameNode -> list string -> Trip -> Trip -> Prop :=
| found_here : forall current visited path,
    accept current (set_add (team current) visited) (path ++ [current]) = true ->
    found_from graph direction accept current visited path (path ++ [current])
| found_deeper : forall current visited path neighbor trip,
    List.length (path ++ [current]) < 5 ->
    linked graph direction current neighbor ->
    str_in (team neighbor) (set_add (team current) visited) = false ->
    found_from graph direction accept neighbor
      (set_add (team current) visited) (path ++ [current]) trip ->
    found_from graph direction accept current visited path trip.

(** ** Graphs that [add_node] and [add_edge] can build *)

Definition edge_id (e : Edge)
  : (string * Z * string * string) * (string * Z * string * string) :=
  (node_id (e_from e), node_id (e_to e)).

Record wf_graph (G : DiGraph) : Prop := mk_wf_graph {
  wf_nodes : NoDup (map node_id (g_nodes G));
  wf_edges : NoDup (map edge_id (g_edges G));
  wf_endpoints : forall e, In e (g_edges G) ->
                           has_node G (e_from e) = true /\ has_node G (e_to e) = true
}.

(** An edge of the graph built from [records] stands for a pair of records
    the inner loop of [add_edges_to_graph] let through. *)
Definition justified (records : list GameNode) (e : Edge) : Prop :=
  exists a b,
    In a records /\ In b records
    /\ node_eqb (e_from e) a = true /\ node_eqb (e_to e) b = true
    /\ is_consecutive_night (date a) (date b) = true
    /\ String.eqb (team a) (team b) = false
    /\ is_valid_geographic_transition a b (e_direction e) = true.

(** The properties of a trip the design document asks for. *)
Definition consecutive_nights (t : Trip) : Prop :=
  forall i a b, nth_error t i = Some a -> nth_error t (S i) = Some b ->
                (date b - date a = 1)%Z.

Definition valid_trip (t : Trip) : Prop :=
  3 <= List.length t <= 5
  /\ NoDup (map team t)
  /\ consecutive_nights t
  /\ In "Wizards" (map team t).

(** [t == u] on two paths, node by node through [GameNode.__eq__]. *)
Fixpoint trip_eqb (t u : Trip) : bool :=
  match t, u with
  | [], [] => true
  | a :: t', b :: u' => node_eqb a b && trip_eqb t' u'
  | _, _ => false
  end.

(** How often a trip occurs in a list of trips. *)
Definition occurrences (t : Trip) (l : list Trip) : nat :=
  List.length (filter (trip_eqb t) l).

(** The anchor games of a graph. *)
Definition wizards_games (graph : DiGraph) : list GameNode :=
  filter (fun node => String.eqb (team node) "Wizards") (g_nodes graph).

(** A node at an end of some edge of the graph. *)
Definition touched (graph : DiGraph) (n : GameNode) : Prop :=
  exists e, In e (g_edges graph)
            /\ (node_eqb (e_from e) n = true \/ node_eqb (e_to e) n = true).

(** The visited set holds the teams of the path, and no other. *)
Definition tracks (visited : list string) (path : Trip) : Prop :=
  forall x, str_in x visited = true <-> In x (map team path).

(** A name that is none of the five. *)
Definition other_team (s : string) : Prop :=
  Forall (fun c => String.eqb c s = false /\ String.eqb s c = false) target_teams.

(** Every edge of the graph from [a] to [b] is labelled southbound. *)
Definition southbound_only (a b : GameNode) (G : DiGraph) : Prop :=
  forall e, In e (g_edges G) -> edge_matches a b e = true ->
            e_direction e = "southbound".

(** The graph has an edge from [a] to [b]. *)
Definition has_edge (a b : GameNode) (G : DiGraph) : Prop :=
  exists e, In e (g_edges G) /\ edge_matches a b e = true.

(** A length dictionary as the grouping loop leaves it: every key once,
    no empty group, every trip under the key of its length. *)
Definition well_grouped (d : LengthDict) : Prop :=
  NoDup (map fst d)
  /\ forall L g, In (L, g) d ->
                 g <> [] /\ forall t, In t g -> List.length t = L.

(** A trip whose score cannot be computed: two games or more, and a team
    that the rank map does not know. *)
Definition unrankable (t : Trip) : bool :=
  (2 <=? List.length t) && negb (all_ranked t).

(** The label the two [add_edge] calls of [add_edges_to_graph] leave on the
    edge from [a] to [b]: the southbound call comes last. *)
Definition expected_direction (a b : GameNode) : result string :=
  if is_consecutive_night (date a) (date b) && negb (String.eqb (team a) (team b))
  then
    if is_valid_geographic_transition a b "southbound" then Ok "southbound"
    else if is_valid_geographic_transition a b "northbound" then Ok "northbound"
    else Raise KeyError
  else Raise KeyError.

(** Every edge of the graph from [a] to [b] carries the expected label. *)
Definition agrees (a b : GameNode) (G : DiGraph) : Prop :=
  forall e, In e (g_edges G) -> edge_matches a b e = true ->
            Ok (e_direction e) = expected_direction a b.

(** The visited set after the traversal has walked the games of [l]. *)
Definition teams_after (visited : list string) (l : Trip) : list string :=
  fold_left (fun s n => set_add (team n) s) l visited.

(** Each game of the trip but the first is the far end, as the graph stores
    it, of an edge of the direction that leaves the game before it. *)
Fixpoint chain (graph : DiGraph) (direction : string) (t : Trip) : Prop :=
  match t with
  | a :: ((b :: _) as r) =>
      (exists e, In e (g_edges graph) /\ node_eqb (e_from e) a = true
                 /\ e_to e = b /\ e_direction e = direction)
      /\ chain graph direction r
  | _ => True
  end.

(** The paths of a traversal over the nodes the graph stores: [found_from]
    with the neighbour the successor list yields. *)
Inductive reached (graph : DiGraph) (direction : string)
  (accept : GameNode -> list string -> Trip -> bool)
  : GameNode -> list string -> Trip -> Trip -> Prop :=
| reached_here : forall current visited path,
    accept current (set_add (team current) visited) (path ++ [current]) = true ->
    reached graph direction accept current visited path (path ++ [current])
| reached_deeper : forall current visited path e trip,
    List.length (path ++ [current]) < 5 ->
    In e (g_edges graph) ->
    node_eqb (e_from e) current = true ->
    e_direction e = direction ->
    str_in (team (e_to e)) (set_add (team current) visited) = false ->
    reached graph direction accept (e_to e)
      (set_add (team current) visited) (path ++ [current]) trip ->
    reached graph direction accept current visited path trip.

(** The city the report names for a game. *)
Definition city_of (game : GameNode) : string :=
  dict_get city_mapping (team game) (team game).

(** Every game of the trip is played further north than the game before. *)
Definition climbing (t : Trip) : Prop :=
  Forall (fun p => rank_lt (team (fst p)) (team (snd p))) (adjacent_pairs t).

(** ** Sample schedules *)

(** A row of the cleaned data frame, with the city group the ingestion step
    gives it. *)
Definition row (t : string) (d : Z) (o v : string) : GameNode :=
  mkGameNode t d o v (Some (derived_city_group t)).

(** Five home games on five consecutive nights, south to north. *)
Definition south_to_north_schedule : list GameNode :=
  [ row "Wizards" 1 "Celtics" "Capital One Arena";
    row "76ers" 2 "Wizards" "Wells Fargo Center";
    row "Knicks" 3 "76ers" "Madison Square Garden (IV)";
    row "Nets" 4 "Knicks" "Barclays Center";
    row "Celtics" 5 "Nets" "TD Garden" ].

(** The same five teams on five consecutive nights, north to south. *)
Definition north_to_south_schedule : list GameNode :=
  [ row "Celtics" 1 "Nets" "TD Garden";
    row "Nets" 2 "Knicks" "Barclays Center";
    row "Knicks" 3 "76ers" "Madison Square Garden (IV)";
    row "76ers" 4 "Wizards" "Wells Fargo Center";
    row "Wizards" 5 "Celtics" "Capital One Arena" ].

(** A Knicks home game followed by a Nets home game the night after. *)
Definition knicks_game : GameNode := row "Knicks" 3 "76ers" "Madison Square Garden (IV)".
Definition nets_game : GameNode := row "Nets" 4 "Knicks" "Barclays Center".
Definition nyc_back_to_back : list GameNode := [knicks_game; nets_game].

(** Three trips for the ranker: two different trips of equal length and
    score, and a trip with the games of the first under another record. *)
Definition trip_via_knicks : Trip :=
  [ row "Wizards" 1 "Celtics" "Capital One Arena";
    row "76ers" 2 "Wizards" "Wells Fargo Center";
    row "Knicks" 3 "76ers" "Madison Square Garden (IV)" ].

Definition trip_via_nets : Trip :=
  [ row "Wizards" 1 "Celtics" "Capital One Arena";
    row "76ers" 2 "Wizards" "Wells Fargo Center";
    row "Nets" 3 "76ers" "Barclays Center" ].

Definition trip_via_knicks_again : Trip :=
  [ row "Wizards" 1 "Celtics" "Capital One Arena";
    row "76ers" 2 "Wizards" "Wells Fargo Center";
    row "Knicks" 3 "76ers" "MSG" ].

Definition sample_trips : list Trip :=
  [trip_via_knicks; trip_via_nets; trip_via_knicks_again].

Definition sample_ranking : LengthDict :=
  [(3, [trip_via_knicks; trip_via_nets])].

(** A schedule with a home game of a team outside the five. *)
Definition lakers_game : GameNode := row "Lakers" 1 "Suns" "Crypto.com Arena".

Definition lakers_schedule : list GameNode :=
  [ lakers_game;
    row "Wizards" 2 "Celtics" "Capital One Arena";
    row "76ers" 3 "Wizards" "Wells Fargo Center";
    row "Knicks" 4 "76ers" "Madison Square Garden (IV)" ].

(** A schedule with two Wizards home games. *)
Definition two_anchor_schedule : list GameNode :=
  [ row "Knicks" 1 "Nets" "Madison Square Garden (IV)";
    row "76ers" 2 "Knicks" "Wells Fargo Center";
    row "Wizards" 3 "76ers" "Capital One Arena";
    row "Wizards" 9 "Celtics" "Capital One Arena" ].

(** A parsed schedule as the CSV gives it, with full team names, a game
    between two other teams, and the rows out of date order; and the
    cleaned rows of it, sorted by date. *)
Definition raw_schedule : list ScheduleRow :=
  [ mkScheduleRow 3 "Philadelphia 76ers" "New York Knicks" "Madison Square Garden (IV)";
    mkScheduleRow 1 "Boston Celtics" "Washington Wizards" "Capital One Arena";
    mkScheduleRow 2 "Los Angeles Lakers" "Golden State Warriors" "Chase Center";
    mkScheduleRow 2 "Washington Wizards" "Philadelphia 76ers" "Wells Fargo Center" ].

Definition cleaned_schedule : list CleanedRow :=
  [ mkCleanedRow (mkScheduleRow 1 "Celtics" "Wizards" "Capital One Arena")
      (Some 1) "Wizards";
    mkCleanedRow (mkScheduleRow 2 "Wizards" "76ers" "Wells Fargo Center")
      (Some 2) "76ers";
    mkCleanedRow (mkScheduleRow 3 "76ers" "Knicks" "Madison Square Garden (IV)")
      (Some 3) "NYC" ].

(** * Properties *)

(** ** Facts about team names *)

Lemma team_cases (s : string) :
  s = "Wizards" \/ s = "76ers" \/ s = "Knicks" \/ s = "Nets" \/ s = "Celtics"
  \/ other_team s.
Proof.
  destruct (String.eqb_spec "Wizards" s) as [E1 | N1]; [now left | ].
  destruct (String.eqb_spec "76ers" s) as [E2 | N2]; [now right; left | ].
  destruct (String.eqb_spec "Knicks" s) as [E3 | N3]; [now right; right; left | ].
  destruct (String.eqb_spec "Nets" s) as [E4 | N4]; [now right; right; right; left | ].
  destruct (String.eqb_spec "Celtics" s) as [E5 | N5];
    [now right; right; right; right; left | ].
  do 5 right. unfold other_team, target_teams.
  repeat constructor;
    try (apply String.eqb_neq; assumption);
    try (apply String.eqb_neq; intro; subst; congruence).
Qed.

Ltac use_other H :=
  unfold other_team, target_teams in H;
  repeat match type of H with
         | Forall _ (_ :: _) =>
             let A := fresh "A" in
             let B := fresh "B" in
             let H' := fresh "H" in
             inversion H as [ | ? ? [A B] H' ]; subst; clear H; rename H' into H
         end;
  clear H.

Ltac team_split s :=
  let H := fresh "Hother" in
  destruct (team_cases s) as [-> | [-> | [-> | [-> | [-> | H]]]]];
  [ | | | | | use_other H ].

#[local] Arguments String.eqb : simpl never.

Ltac eval_closed_eqb :=
  repeat match goal with
         | |- context [String.eqb ?x ?y] =>
             let v := eval vm_compute in (String.eqb x y) in
             match v with
             | true => change (String.eqb x y) with true
             | false => change (String.eqb x y) with false
             end
         end.

Ltac team_simpl :=
  repeat (progress
            (cbn;
             repeat match goal with
                    | H : String.eqb _ _ = false |- _ => rewrite H
                    end;
             eval_closed_eqb)).

Lemma northbound_table_is_rank_order (a b : string) :
  str_in b (dict_get NORTHBOUND a []) = true <-> rank_lt a b.
Proof.
  unfold rank_lt, rank_of, dict_get, str_in, NORTHBOUND, get_team_geographic_order.
  team_split a; team_split b; team_simpl;
    split; intro; try lia; try discriminate; try contradiction; auto.
Qed.

Lemma southbound_table_is_rank_order (a b : string) :
  str_in b (dict_get SOUTHBOUND a []) = true <-> rank_lt b a.
Proof.
  unfold rank_lt, rank_of, dict_get, str_in, SOUTHBOUND, get_team_geographic_order.
  team_split a; team_split b; team_simpl;
    split; intro; try lia; try discriminate; try contradiction; auto.
Qed.

(** ** The transition rule *)

Lemma valid_northbound (a b : GameNode) :
  is_valid_geographic_transition a b "northbound"
  = co_located a b || str_in (team b) (dict_get NORTHBOUND (team a) []).
Proof.
  unfold is_valid_geographic_transition, co_located.
  change (String.eqb "northbound" "northbound") with true. cbv iota.
  now destruct (is_NYC a && is_NYC b && negb (String.eqb (team a) (team b))).
Qed.

Lemma valid_southbound (a b : GameNode) :
  is_valid_geographic_transition a b "southbound"
  = co_located a b || str_in (team b) (dict_get SOUTHBOUND (team a) []).
Proof.
  unfold is_valid_geographic_transition, co_located.
  change (String.eqb "southbound" "northbound") with false.
  change (String.eqb "southbound" "southbound") with true. cbv iota.
  now destruct (is_NYC a && is_NYC b && negb (String.eqb (team a) (team b))).
Qed.

(** C3. Two co-located games of different teams are a valid transition in
    either direction.  For every other pair of games the northbound
    transition is valid exactly when the target's team has a strictly
    greater geographic rank than the source's, and the southbound one exactly
    when it has a strictly lesser rank, under the rank map Wizards 1, 76ers 2,
    Knicks 3, Nets 3, Celtics 4. *)
Theorem transition_rule_follows_rank_order (from_node to_node : GameNode) :
  (co_located from_node to_node = true ->
     is_valid_geographic_transition from_node to_node "northbound" = true /\
     is_valid_geographic_transition from_node to_node "southbound" = true)
  /\
  (co_located from_node to_node = false ->
     (is_valid_geographic_transition from_node to_node "northbound" = true
      <-> rank_lt (team from_node) (team to_node)) /\
     (is_valid_geographic_transition from_node to_node "southbound" = true
      <-> rank_lt (team to_node) (team from_node))).
Proof.
  rewrite valid_northbound, valid_southbound. split; intros ->.
  - now split.
  - cbn [orb]. split.
    + apply northbound_table_is_rank_order.
    + apply southbound_table_is_rank_order.
Qed.

(** The rank map read by the transition rule's tables is the one
    [get_team_geographic_order] returns. *)
Example rank_map_values :
  map (fun t => (t, rank_of t)) target_teams
  = [ ("Wizards", Some 1); ("76ers", Some 2); ("Knicks", Some 3);
      ("Nets", Some 3); ("Celtics", Some 4) ].
Proof. reflexivity. Qed.

(** ** Empty inputs *)

(** C8. An empty record sequence gives a graph with no node and no edge; on
    a graph without a Wizards game the search returns the empty list; the
    ranker maps the empty trip list to the empty mapping.  Each of them is a
    result, none an exception. *)
Theorem empty_inputs_are_results :
  number_of_nodes (build_game_graph []) = 0
  /\ number_of_edges (build_game_graph []) = 0
  /\ (forall G : DiGraph,
        (forall n, In n (g_nodes G) -> team n <> "Wizards") ->
        find_all_valid_trips G = Ok [])
  /\ rank_trips [] = Ok []
  /\ plan_trips [] = Ok [].
Proof.
  repeat split; try reflexivity.
  intros G Hno. unfold find_all_valid_trips.
  replace (filter (fun node => String.eqb (team node) "Wizards") (g_nodes G))
    with (@nil GameNode); [reflexivity | ].
  symmetry. induction (g_nodes G) as [ | n l IH]; [reflexivity | ].
  cbn [filter]. destruct (String.eqb_spec (team n) "Wizards") as [E | _].
  - exfalso. apply (Hno n); [now left | exact E].
  - apply IH. intros m Hm. apply Hno. now right.
Qed.

Lemma empty_inputs_are_results_witness :
  find_all_valid_trips (build_game_graph nyc_back_to_back) = Ok [].
Proof.
  apply (proj1 (proj2 (proj2 empty_inputs_are_results))).
  intros n Hn. vm_compute in Hn.
  destruct Hn as [<- | [<- | []]]; discriminate.
Defined.

(** ** The co-located pair in the built graph *)

(** C1 (the code departs from it). For a Knicks game and a Nets game on the
    following night both directions are valid transitions, and the builder
    adds the edge once per direction; the graph keeps one attribute per
    ordered pair, so the edge ends with the label written last,
    [southbound], and the northbound search does not follow it. *)
Theorem colocated_edge_keeps_southbound_only :
  co_located knicks_game nets_game = true
  /\ is_consecutive_night (date knicks_game) (date nets_game) = true
  /\ is_valid_geographic_transition knicks_game nets_game "northbound" = true
  /\ is_valid_geographic_transition knicks_game nets_game "southbound" = true
  /\ g_edges (build_game_graph nyc_back_to_back)
     = [mkEdge knicks_game nets_game "southbound"]
  /\ edge_direction (build_game_graph nyc_back_to_back) knicks_game nets_game
     = Ok "southbound".
Proof. repeat split; vm_compute; reflexivity. Qed.

(** ** The five-night scenario *)

(** C2 fails as stated: on the five games played south to north the search
    returns the three-night trip Wizards, 76ers, Knicks and nothing else, so
    neither a forward nor a backward trip of five nights is among the
    results. *)
Lemma five_night_scenario_has_no_five_night_trip :
  find_all_valid_trips (build_game_graph south_to_north_schedule)
  = Ok [firstn 3 south_to_north_schedule]
  /\ ~ (exists trips forward backward,
          find_all_valid_trips (build_game_graph south_to_north_schedule) = Ok trips
          /\ In forward trips /\ In backward trips
          /\ map team forward = ["Wizards"; "76ers"; "Knicks"; "Nets"; "Celtics"]
          /\ map team backward = ["Celtics"; "Nets"; "Knicks"; "76ers"; "Wizards"]).
Proof.
  assert (E : find_all_valid_trips (build_game_graph south_to_north_schedule)
              = Ok [firstn 3 south_to_north_schedule])
    by (vm_compute; reflexivity).
  split; [exact E | ].
  intros (trips & fw & bw & Htrips & Hfw & _ & Hteams & _).
  rewrite E in Htrips. injection Htrips as <-.
  destruct Hfw as [<- | []]. vm_compute in Hteams. discriminate.
Qed.

(** C2, amended. Every edge leads to the following night, so a backward trip
    needs the games in north-to-south order: for Celtics, Nets, Knicks,
    76ers, Wizards on five consecutive nights the search returns the
    five-night southbound trip through all five, whose score is 3 (the hop
    between the two New York teams does not count); for the south-to-north
    schedule the southbound search returns no trip. *)
Theorem five_night_southbound_trip :
  (exists trips,
     find_all_valid_trips (build_game_graph north_to_south_schedule) = Ok trips
     /\ In north_to_south_schedule trips)
  /\ List.length north_to_south_schedule = 5
  /\ map team north_to_south_schedule = ["Celtics"; "Nets"; "Knicks"; "76ers"; "Wizards"]
  /\ calculate_travel_efficiency north_to_south_schedule = Ok 3
  /\ (forall anchor,
        find_southbound_trips (build_game_graph south_to_north_schedule) anchor = Ok []).
Proof.
  split.
  - eexists. split; [vm_compute; reflexivity | ]. left. reflexivity.
  - repeat split; try (vm_compute; reflexivity).
Qed.

(** ** The error monad *)

Lemma bind_ok {A B : Type} (m : result A) (k : A -> result B) (b : B) :
  bind m k = Ok b -> exists a, m = Ok a /\ k a = Ok b.
Proof. destruct m as [a | e]; cbn; [eauto | discriminate]. Qed.

Lemma map_each_ok {A B : Type} (f : A -> result B) (l : list A) (r : list B) :
  map_each f l = Ok r -> Forall2 (fun x y => f x = Ok y) l r.
Proof.
  revert r. induction l as [ | x l IH]; cbn; intros r H.
  - injection H as <-. constructor.
  - apply bind_ok in H as (y & Hy & H). apply bind_ok in H as (ys & Hys & H).
    injection H as <-. constructor; auto.
Qed.

Lemma map_each_total {A B : Type} (f : A -> result B) (g : A -> B) (l : list A) :
  (forall x, In x l -> f x = Ok (g x)) -> map_each f l = Ok (map g l).
Proof.
  induction l as [ | x l IH]; cbn; intros H; [reflexivity | ].
  rewrite (H x (or_introl eq_refl)). cbn. rewrite IH; [reflexivity | ].
  intros y Hy. apply H. now right.
Qed.

Lemma extend_each_ok {A B : Type} (f : A -> result (list B)) (l : list A) (r : list B) :
  extend_each f l = Ok r ->
  exists rs, Forall2 (fun x ys => f x = Ok ys) l rs /\ r = List.concat rs.
Proof.
  revert r. induction l as [ | x l IH]; cbn; intros r H.
  - injection H as <-. exists []. split; [constructor | reflexivity].
  - apply bind_ok in H as (ys & Hys & H). apply bind_ok in H as (zs & Hzs & H).
    injection H as <-. destruct (IH _ Hzs) as (rs & Hrs & ->).
    exists (ys :: rs). split; [now constructor | reflexivity].
Qed.

Lemma extend_each_total {A B : Type} (f : A -> result (list B)) (g : A -> list B)
  (l : list A) :
  (forall x, In x l -> f x = Ok (g x)) -> extend_each f l = Ok (flat_map g l).
Proof.
  induction l as [ | x l IH]; cbn; intros H; [reflexivity | ].
  rewrite (H x (or_introl eq_refl)). cbn. rewrite IH; [reflexivity | ].
  intros y Hy. apply H. now right.
Qed.

(** ** The stable sort *)

Section StableSort.
Context {A : Type}.
Implicit Types (x : nat * A) (l : list (nat * A)).

Lemma insert_by_key_perm x l : Permutation (insert_by_key x l) (x :: l).
Proof.
  induction l as [ | y l IH]; cbn; [reflexivity | ].
  destruct (fst x <=? fst y); [reflexivity | ].
  rewrite IH. apply perm_swap.
Qed.

Lemma stable_sort_perm l : Permutation (stable_sort l) l.
Proof.
  induction l as [ | x l IH]; cbn; [reflexivity | ].
  rewrite insert_by_key_perm. now constructor.
Qed.

Lemma insert_by_key_sorted x l :
  Sorted key_le l -> Sorted key_le (insert_by_key x l).
Proof.
  induction l as [ | y l IH]; cbn; intros Hs.
  - repeat constructor.
  - destruct (Nat.leb_spec (fst x) (fst y)) as [Hle | Hgt].
    + constructor; [assumption | constructor; exact Hle].
    + inversion Hs as [ | ? ? Hs' Hhd]; subst.
      constructor; [now apply IH | ].
      destruct l as [ | z l]; cbn.
      * constructor. unfold key_le. lia.
      * destruct (Nat.leb_spec (fst x) (fst z)).
        -- constructor. unfold key_le. lia.
        -- inversion Hhd; subst. now constructor.
Qed.

Lemma stable_sort_sorted l : Sorted key_le (stable_sort l).
Proof.
  induction l as [ | x l IH]; cbn; [constructor | ].
  now apply insert_by_key_sorted.
Qed.

(** Stability: the items of one key keep their order. *)
Lemma insert_by_key_stable (s : nat) x l :
  filter (fun p => fst p =? s) (insert_by_key x l)
  = filter (fun p => fst p =? s) (x :: l).
Proof.
  induction l as [ | y l IH]; [reflexivity | ].
  cbn [insert_by_key].
  destruct (Nat.leb_spec (fst x) (fst y)) as [Hle | Hgt]; [reflexivity | ].
  cbn [filter] in *. rewrite IH.
  destruct (Nat.eqb_spec (fst x) s), (Nat.eqb_spec (fst y) s);
    try reflexivity; lia.
Qed.

Lemma stable_sort_stable (s : nat) l :
  filter (fun p => fst p =? s) (stable_sort l) = filter (fun p => fst p =? s) l.
Proof.
  induction l as [ | x l IH]; [reflexivity | ].
  cbn [stable_sort fold_right]. fold (stable_sort l).
  rewrite insert_by_key_stable. cbn [filter]. now rewrite IH.
Qed.
End StableSort.

(** ** The travel-efficiency score *)

Lemma geo_order_lookup (t : string) :
  dict_getitem geo_order t
  = match rank_of t with Some r => Ok r | None => Raise KeyError end.
Proof. reflexivity. Qed.

Lemma score_spec_cons (a b : GameNode) (l : Trip) :
  score_spec (a :: b :: l)
  = (if rank_differs (a, b) then 1 else 0) + score_spec (b :: l).
Proof.
  unfold score_spec. cbn [adjacent_pairs filter].
  destruct (rank_differs (a, b)); reflexivity.
Qed.

Lemma getitem_middle {A : Type} (pre : list A) (a : A) (suf : list A) :
  getitem (pre ++ a :: suf) (List.length pre) = Ok a.
Proof.
  unfold getitem. rewrite nth_error_app2 by lia.
  now rewrite Nat.sub_diag.
Qed.

Lemma efficiency_loop_spec (suf : Trip) :
  forall (pre : Trip) (a : GameNode) (jumps : nat),
    efficiency_loop (pre ++ a :: suf) jumps
      (seq (S (List.length pre)) (List.length suf))
    = match suf with
      | [] => Ok jumps
      | _ => if all_ranked (a :: suf)
             then Ok (jumps + score_spec (a :: suf))
             else Raise KeyError
      end.
Proof.
  induction suf as [ | b suf IH]; intros pre a jumps; [reflexivity | ].
  cbn [List.length seq efficiency_loop].
  unfold efficiency_step.
  replace (S (List.length pre) - 1) with (List.length pre) by lia.
  rewrite getitem_middle. cbn [bind].
  rewrite geo_order_lookup.
  change (all_ranked (a :: b :: suf)) with (ranked a && all_ranked (b :: suf)).
  unfold ranked at 1.
  destruct (rank_of (team a)) as [ra | ] eqn:Ea; cbn [bind andb]; [ | reflexivity].
  replace (pre ++ a :: b :: suf) with ((pre ++ [a]) ++ b :: suf)
    by (rewrite <- app_assoc; reflexivity).
  replace (S (List.length pre)) with (List.length (pre ++ [a]))
    by (rewrite length_app; cbn; lia).
  rewrite getitem_middle. cbn [bind].
  rewrite geo_order_lookup.
  change (all_ranked (b :: suf)) with (ranked b && all_ranked suf).
  unfold ranked at 1.
  destruct (rank_of (team b)) as [rb | ] eqn:Eb; cbn [bind andb]; [ | reflexivity].
  rewrite IH. rewrite score_spec_cons.
  unfold rank_differs at 1. cbn [fst snd]. rewrite Ea, Eb.
  destruct suf as [ | c suf].
  - cbn. destruct (negb (ra =? rb)); f_equal; unfold score_spec; cbn; lia.
  - change (all_ranked (b :: c :: suf)) with (ranked b && all_ranked (c :: suf)).
    unfold ranked at 1. rewrite Eb. cbn [andb].
    destruct (all_ranked (c :: suf)); [ | reflexivity].
    destruct (negb (ra =? rb)); f_equal; lia.
Qed.

(** The code's score against the score of the design document: the two
    agree wherever the code returns, and the code raises [KeyError] exactly
    on a trip of two or more games with an unranked team. *)
Lemma calculate_travel_efficiency_spec (trip : Trip) :
  calculate_travel_efficiency trip
  = if (List.length trip <=? 1) || all_ranked trip
    then Ok (score_spec trip)
    else Raise KeyError.
Proof.
  unfold calculate_travel_efficiency.
  destruct trip as [ | a [ | b suf]]; try reflexivity.
  change (List.length (a :: b :: suf) <=? 1) with false. cbn [orb].
  change (List.length (a :: b :: suf) - 1) with (List.length (b :: suf)).
  apply (efficiency_loop_spec (b :: suf) [] a 0).
Qed.

Lemma calculate_travel_efficiency_ok (trip : Trip) (s : nat) :
  calculate_travel_efficiency trip = Ok s -> s = score_spec trip.
Proof.
  rewrite calculate_travel_efficiency_spec.
  destruct (_ || _); [ | discriminate]. now intros [= <-].
Qed.

(** ** Sorting a group *)

Lemma decorated_sorted (l : list Trip) :
  stable_sort (map (fun t => (score_spec t, t)) l)
  = map (fun t => (score_spec t, t)) (sorted_by_score l).
Proof.
  unfold sorted_by_score. rewrite map_map.
  set (dl := map (fun t => (score_spec t, t)) l).
  assert (H : Forall (fun p => fst p = score_spec (snd p)) (stable_sort dl)).
  { apply Forall_forall. intros p Hp.
    apply (Permutation_in _ (stable_sort_perm dl)) in Hp.
    subst dl. apply in_map_iff in Hp as (t & <- & _). reflexivity. }
  induction (stable_sort dl) as [ | [k t] r IH]; [reflexivity | ].
  inversion H as [ | ? ? Hk Hr]; subst. cbn in Hk. subst k.
  cbn. f_equal. now apply IH.
Qed.

Lemma sorted_by_score_perm (l : list Trip) : Permutation (sorted_by_score l) l.
Proof.
  unfold sorted_by_score.
  rewrite (Permutation_map snd (stable_sort_perm _)).
  rewrite map_map. cbn. now rewrite map_id.
Qed.

Lemma sorted_by_score_sorted (l : list Trip) :
  Sorted (fun t u => score_spec t <= score_spec u) (sorted_by_score l).
Proof.
  pose proof (stable_sort_sorted (map (fun t => (score_spec t, t)) l)) as H.
  rewrite decorated_sorted in H.
  induction (sorted_by_score l) as [ | t r IH]; [constructor | ].
  cbn in H. inversion H as [ | ? ? Hs Hhd]; subst.
  constructor; [now apply IH | ].
  destruct r as [ | u r]; [constructor | ].
  cbn in Hhd. inversion Hhd; subst. now constructor.
Qed.

Lemma filter_decorated (s : nat) (l : list Trip) :
  filter (fun p : nat * Trip => fst p =? s) (map (fun t => (score_spec t, t)) l)
  = map (fun t => (score_spec t, t)) (filter (has_score s) l).
Proof.
  induction l as [ | t l IH]; [reflexivity | ].
  cbn [map filter fst]. unfold has_score at 1.
  destruct (score_spec t =? s); cbn [map]; now rewrite IH.
Qed.

Lemma sorted_by_score_stable (s : nat) (l : list Trip) :
  filter (has_score s) (sorted_by_score l) = filter (has_score s) l.
Proof.
  pose proof (stable_sort_stable s (map (fun t => (score_spec t, t)) l)) as H.
  rewrite decorated_sorted, !filter_decorated in H.
  apply (f_equal (map snd)) in H.
  rewrite !map_map in H. cbn in H. now rewrite !map_id in H.
Qed.

Lemma sort_by_efficiency_ok (l r : list Trip) :
  sort_by_efficiency l = Ok r ->
  r = sorted_by_score l
  /\ forall t, In t l -> calculate_travel_efficiency t = Ok (score_spec t).
Proof.
  unfold sort_by_efficiency. intros H.
  apply bind_ok in H as (keys & Hkeys & H). injection H as <-.
  apply map_each_ok in Hkeys.
  assert (E : keys = map score_spec l /\
              forall t, In t l -> calculate_travel_efficiency t = Ok (score_spec t)).
  { induction Hkeys as [ | t k l ks Hk _ IH]; [now split | ].
    destruct IH as [-> IH].
    pose proof (calculate_travel_efficiency_ok _ _ Hk) as ->.
    split; [reflexivity | ]. intros u [<- | Hu]; auto. }
  destruct E as [-> E]. split; [ | exact E].
  unfold sorted_by_score. f_equal. f_equal.
  clear. induction l as [ | t l IH]; cbn; [reflexivity | now rewrite IH].
Qed.

Lemma sort_by_efficiency_total (l : list Trip) :
  (forall t, In t l -> calculate_travel_efficiency t = Ok (score_spec t)) ->
  sort_by_efficiency l = Ok (sorted_by_score l).
Proof.
  intros H. unfold sort_by_efficiency.
  rewrite (map_each_total _ score_spec l H). cbn [bind].
  unfold sorted_by_score. f_equal. f_equal. f_equal.
  clear. induction l as [ | t l IH]; cbn; [reflexivity | now rewrite IH].
Qed.

(** ** Deduplication *)

Lemma pair_eqb_eq (a b : string * Z) : pair_eqb a b = true <-> a = b.
Proof.
  destruct a as [s x], b as [t y]. unfold pair_eqb. cbn [fst snd].
  rewrite andb_true_iff, String.eqb_eq, Z.eqb_eq.
  split; [intros [-> ->]; reflexivity | intros [= -> ->]; now split].
Qed.

Lemma key_eqb_eq (k1 k2 : list (string * Z)) : key_eqb k1 k2 = true <-> k1 = k2.
Proof.
  revert k2. induction k1 as [ | a k1 IH]; intros [ | b k2]; cbn;
    try (split; [discriminate | discriminate]); [tauto | ].
  rewrite andb_true_iff, pair_eqb_eq, IH.
  split; [intros [-> ->]; reflexivity | intros [= -> ->]; now split].
Qed.

Lemma key_eqb_refl (k : list (string * Z)) : key_eqb k k = true.
Proof. now apply key_eqb_eq. Qed.

Lemma key_in_In (k : list (string * Z)) (seen : list (list (string * Z))) :
  key_in k seen = true <-> In k seen.
Proof.
  unfold key_in. rewrite existsb_exists. split.
  - intros (k' & Hin & Heq). apply key_eqb_eq in Heq. now subst.
  - intros Hin. exists k. split; [exact Hin | apply key_eqb_refl].
Qed.

Lemma key_in_false (k : list (string * Z)) (seen : list (list (string * Z))) :
  key_in k seen = false <-> ~ In k seen.
Proof.
  rewrite <- key_in_In. destruct (key_in k seen); split; congruence.
Qed.

Lemma dedup_loop (l : list Trip) :
  forall (u : list Trip) (seen : list (list (string * Z))),
    fst (fold_left dedup_step l (u, seen)) = u ++ first_seen seen l.
Proof.
  induction l as [ | t l IH]; intros u seen; cbn [fold_left first_seen].
  - now rewrite app_nil_r.
  - unfold dedup_step at 2.
    destruct (key_in (trip_key t) seen); cbn [negb].
    + apply IH.
    + rewrite IH, <- app_assoc. reflexivity.
Qed.

Lemma unique_trips_of_first_seen (trips : list Trip) :
  unique_trips_of trips = first_seen [] trips.
Proof. unfold unique_trips_of. now rewrite dedup_loop. Qed.

Lemma first_seen_subsequence (l : list Trip) :
  forall seen, subsequence (first_seen seen l) l.
Proof.
  induction l as [ | t l IH]; intros seen; cbn; [constructor | ].
  destruct (key_in (trip_key t) seen); constructor; apply IH.
Qed.

Lemma subsequence_In {A : Type} (l1 l2 : list A) (x : A) :
  subsequence l1 l2 -> In x l1 -> In x l2.
Proof.
  induction 1 as [ | y l1 l2 _ IH | y l1 l2 _ IH]; cbn; intuition.
Qed.

Lemma first_seen_not_seen (l : list Trip) :
  forall seen t, In t (first_seen seen l) -> ~ In (trip_key t) seen.
Proof.
  induction l as [ | u l IH]; intros seen t; cbn; [tauto | ].
  destruct (key_in (trip_key u) seen) eqn:E.
  - apply IH.
  - intros [<- | Hin]; [now apply key_in_false | ].
    intros Hs. apply (IH _ _ Hin). now right.
Qed.

Lemma first_seen_keys_NoDup (l : list Trip) :
  forall seen, NoDup (map trip_key (first_seen seen l)).
Proof.
  induction l as [ | u l IH]; intros seen; cbn; [constructor | ].
  destruct (key_in (trip_key u) seen); [apply IH | ].
  cbn. constructor; [ | apply IH].
  intros Hin. apply in_map_iff in Hin as (t & Hk & Hin).
  apply first_seen_not_seen in Hin. apply Hin. left. now symmetry.
Qed.

Lemma first_seen_complete (l : list Trip) :
  forall seen t, In t l -> ~ In (trip_key t) seen ->
                 In (trip_key t) (map trip_key (first_seen seen l)).
Proof.
  induction l as [ | u l IH]; intros seen t; cbn; [tauto | ].
  intros [<- | Hin] Hs.
  - apply key_in_false in Hs. rewrite Hs. now left.
  - destruct (key_in (trip_key u) seen) eqn:E; [now apply IH | ].
    destruct (key_eqb (trip_key u) (trip_key t)) eqn:Ek.
    + apply key_eqb_eq in Ek. now left.
    + right. apply IH; [exact Hin | ].
      intros [Heq | Hs']; [ | tauto].
      rewrite Heq, key_eqb_refl in Ek. discriminate.
Qed.

(** A survivor is the first trip of the input with its key. *)
Lemma first_seen_is_first (l : list Trip) :
  forall seen t, In t (first_seen seen l) -> find (same_key t) l = Some t.
Proof.
  induction l as [ | u l IH]; intros seen t; cbn [first_seen find]; [intros [] | ].
  destruct (key_in (trip_key u) seen) eqn:E.
  - intros Hin.
    destruct (same_key t u) eqn:Ek; [ | now apply (IH seen)].
    apply key_eqb_eq in Ek. apply first_seen_not_seen in Hin.
    apply key_in_In in E. rewrite Ek in Hin. tauto.
  - intros [<- | Hin].
    + unfold same_key. now rewrite key_eqb_refl.
    + destruct (same_key t u) eqn:Ek; [ | now apply (IH (trip_key u :: seen))].
      apply key_eqb_eq in Ek. apply first_seen_not_seen in Hin.
      exfalso. apply Hin. left. now symmetry.
Qed.

(** ** Grouping by length *)

Lemma trips_of_length_append (d : LengthDict) (k : nat) (t : Trip) (L : nat) :
  trips_of_length (length_dict_append d k t) L
  = trips_of_length d L ++ (if k =? L then [t] else []).
Proof.
  unfold trips_of_length.
  induction d as [ | [k' v] d IH]; cbn [length_dict_append length_dict_get].
  - destruct (k =? L); reflexivity.
  - destruct (Nat.eqb_spec k' k) as [-> | Hne]; cbn [length_dict_get].
    + destruct (k =? L); [reflexivity | now rewrite app_nil_r].
    + destruct (Nat.eqb_spec k' L) as [-> | HneL]; [ | exact IH].
      destruct (Nat.eqb_spec k L) as [-> | _]; [congruence | ].
      now rewrite app_nil_r.
Qed.

Lemma length_dict_append_present (d : LengthDict) (k : nat) (t : Trip) (L : nat) :
  length_dict_get (length_dict_append d k t) L = None
  <-> length_dict_get d L = None /\ k <> L.
Proof.
  induction d as [ | [k' v] d IH]; cbn [length_dict_append length_dict_get].
  - destruct (Nat.eqb_spec k L); split; try discriminate; intuition.
  - destruct (Nat.eqb_spec k' k) as [-> | Hne]; cbn [length_dict_get].
    + destruct (Nat.eqb_spec k L); split; try discriminate; intuition.
    + destruct (Nat.eqb_spec k' L); [split; [discriminate | intuition discriminate] | ].
      exact IH.
Qed.

Lemma group_loop (l : list Trip) :
  forall (d : LengthDict) (L : nat),
    trips_of_length
      (fold_left (fun d trip => length_dict_append d (List.length trip) trip) l d) L
    = trips_of_length d L ++ filter (has_length L) l.
Proof.
  induction l as [ | t l IH]; intros d L; cbn [fold_left filter].
  - now rewrite app_nil_r.
  - rewrite IH, trips_of_length_append, <- app_assoc. unfold has_length at 2.
    destruct (List.length t =? L); reflexivity.
Qed.

Lemma group_loop_present (l : list Trip) :
  forall (d : LengthDict) (L : nat),
    length_dict_get
      (fold_left (fun d trip => length_dict_append d (List.length trip) trip) l d) L
    = None
    <-> length_dict_get d L = None /\ filter (has_length L) l = [].
Proof.
  induction l as [ | t l IH]; intros d L; cbn [fold_left filter].
  - intuition.
  - rewrite IH, length_dict_append_present. unfold has_length at 2.
    destruct (Nat.eqb_spec (List.length t) L); split; intuition; discriminate.
Qed.

Lemma group_by_length_spec (u : list Trip) (L : nat) :
  length_dict_get (group_by_length u) L
  = match filter (has_length L) u with
    | [] => None
    | g => Some g
    end.
Proof.
  pose proof (group_loop u [] L) as Ht.
  pose proof (group_loop_present u [] L) as Hp.
  fold (group_by_length u) in Ht, Hp. cbn in Ht.
  unfold trips_of_length in Ht.
  destruct (length_dict_get (group_by_length u) L) as [g | ].
  - subst g. destruct (filter (has_length L) u); [ | reflexivity].
    destruct Hp as [_ Hp]. now discriminate Hp.
  - destruct Hp as [Hp _]. destruct (Hp eq_refl) as [_ ->]. reflexivity.
Qed.

(** ** Lists *)

Lemma Permutation_filter {A : Type} (f : A -> bool) (l1 l2 : list A) :
  Permutation l1 l2 -> Permutation (filter f l1) (filter f l2).
Proof.
  induction 1 as [ | x l1 l2 _ IH | x y l | l1 l2 l3 _ IH1 _ IH2]; cbn.
  - constructor.
  - destruct (f x); [now constructor | exact IH].
  - destruct (f x), (f y); try reflexivity. apply perm_swap.
  - now transitivity (filter f l2).
Qed.

Lemma Sorted_adjacent {A : Type} (R : A -> A -> Prop) (l : list A) :
  Sorted R l ->
  forall i a b, nth_error l i = Some a -> nth_error l (S i) = Some b -> R a b.
Proof.
  induction 1 as [ | x l Hs IH Hhd]; intros i a b Ha Hb.
  - destruct i; discriminate.
  - destruct i as [ | i]; cbn in Ha, Hb.
    + injection Ha as <-. destruct l as [ | y l]; [discriminate | ].
      cbn in Hb. injection Hb as <-. now inversion Hhd.
    + now apply (IH i).
Qed.

Lemma sorted_nat_unique (l1 l2 : list nat) :
  Sorted le l1 -> Sorted le l2 -> Permutation l1 l2 -> l1 = l2.
Proof.
  intros H1 H2.
  apply (Sorted_StronglySorted Nat.le_trans) in H1.
  apply (Sorted_StronglySorted Nat.le_trans) in H2.
  revert l2 H2. induction H1 as [ | x l1 Hs1 IH Hx]; intros l2 H2 Hp.
  - apply Permutation_nil in Hp. now subst.
  - destruct H2 as [ | y l2 Hs2 Hy].
    + apply Permutation_sym, Permutation_nil in Hp. discriminate.
    + assert (x = y) as <-.
      { assert (Hx2 : In x (y :: l2)) by (apply (Permutation_in _ Hp); now left).
        assert (Hy1 : In y (x :: l1))
          by (apply (Permutation_in _ (Permutation_sym Hp)); now left).
        rewrite Forall_forall in Hx, Hy.
        destruct Hx2 as [-> | Hx2]; [reflexivity | ].
        destruct Hy1 as [-> | Hy1]; [reflexivity | ].
        apply Hy in Hx2. apply Hx in Hy1. lia. }
      f_equal. apply IH; [exact Hs2 | ]. now apply Permutation_cons_inv in Hp.
Qed.

Lemma filter_map_comm {A B : Type} (g : A -> B) (p : B -> bool) (l : list A) :
  filter p (map g l) = map g (filter (fun x => p (g x)) l).
Proof.
  induction l as [ | x l IH]; cbn; [reflexivity | ].
  destruct (p (g x)); cbn; now rewrite IH.
Qed.

(** ** The ranker as a whole *)

Lemma rank_trips_unfold (trips : list Trip) :
  rank_trips trips
  = map_each
      (fun entry : nat * list Trip =>
         sorted <- sort_by_efficiency (snd entry) ;;
         Ok (fst entry, sorted))
      (group_by_length (unique_trips_of trips)).
Proof. destruct trips; reflexivity. Qed.

Lemma sort_groups_ok (g d : LengthDict) :
  map_each
    (fun entry : nat * list Trip =>
       sorted <- sort_by_efficiency (snd entry) ;;
       Ok (fst entry, sorted)) g = Ok d ->
  d = sort_groups g
  /\ forall entry t, In entry g -> In t (snd entry) ->
                     calculate_travel_efficiency t = Ok (score_spec t).
Proof.
  intros H. apply map_each_ok in H.
  induction H as [ | e e' g d He _ IH]; [split; [reflexivity | intros ? ? []] | ].
  destruct IH as [-> IH].
  apply bind_ok in He as (r & Hr & He). injection He as <-.
  apply sort_by_efficiency_ok in Hr as [-> Hr].
  split; [reflexivity | ].
  intros entry t [<- | Hin] Ht; [now apply Hr | now apply (IH entry)].
Qed.

Lemma sort_groups_total (g : LengthDict) :
  (forall entry t, In entry g -> In t (snd entry) ->
                   calculate_travel_efficiency t = Ok (score_spec t)) ->
  map_each
    (fun entry : nat * list Trip =>
       sorted <- sort_by_efficiency (snd entry) ;;
       Ok (fst entry, sorted)) g = Ok (sort_groups g).
Proof.
  intros H. apply map_each_total. intros e He.
  rewrite sort_by_efficiency_total; [reflexivity | ].
  intros t Ht. now apply (H e).
Qed.

Lemma sort_groups_get (g : LengthDict) (L : nat) :
  length_dict_get (sort_groups g) L
  = option_map sorted_by_score (length_dict_get g L).
Proof.
  induction g as [ | [k v] g IH]; cbn; [reflexivity | ].
  destruct (k =? L); [reflexivity | exact IH].
Qed.

Lemma sort_groups_output (g : LengthDict) :
  Permutation (ranked_output (sort_groups g)) (ranked_output g).
Proof.
  unfold ranked_output.
  induction g as [ | [k v] g IH]; cbn; [constructor | ].
  apply Permutation_app; [apply sorted_by_score_perm | exact IH].
Qed.

Lemma length_dict_append_output (d : LengthDict) (k : nat) (t : Trip) :
  Permutation (ranked_output (length_dict_append d k t)) (ranked_output d ++ [t]).
Proof.
  unfold ranked_output.
  induction d as [ | [k' v] d IH]; cbn; [reflexivity | ].
  destruct (k' =? k); cbn.
  - rewrite <- !app_assoc. apply Permutation_app_head, Permutation_app_comm.
  - rewrite <- app_assoc. now apply Permutation_app_head.
Qed.

Lemma group_by_length_output (u : list Trip) :
  Permutation (ranked_output (group_by_length u)) u.
Proof.
  assert (H : forall d,
             Permutation
               (ranked_output
                  (fold_left
                     (fun d trip => length_dict_append d (List.length trip) trip) u d))
               (ranked_output d ++ u)).
  { induction u as [ | t u IH]; intros d; cbn [fold_left].
    - now rewrite app_nil_r.
    - rewrite IH, length_dict_append_output, <- app_assoc. reflexivity. }
  apply (H []).
Qed.

Lemma group_members (u : list Trip) (entry : nat * list Trip) (t : Trip) :
  In entry (group_by_length u) -> In t (snd entry) -> In t u.
Proof.
  intros He Ht. apply (Permutation_in _ (group_by_length_output u)).
  unfold ranked_output. apply in_concat. exists (snd entry).
  split; [now apply in_map | exact Ht].
Qed.

(** What the ranker returns, when it returns. *)
Lemma rank_trips_ok (trips : list Trip) (d : LengthDict) :
  rank_trips trips = Ok d ->
  d = sort_groups (group_by_length (unique_trips_of trips))
  /\ forall t, In t (unique_trips_of trips) ->
               calculate_travel_efficiency t = Ok (score_spec t).
Proof.
  rewrite rank_trips_unfold. intros H.
  apply sort_groups_ok in H as [-> H]. split; [reflexivity | ].
  intros t Ht.
  apply (Permutation_in _ (Permutation_sym (group_by_length_output _))) in Ht.
  unfold ranked_output in Ht. apply in_concat in Ht as (g & Hg & Ht).
  apply in_map_iff in Hg as (e & <- & He). now apply (H e).
Qed.

(** The ranker returns whenever the score of every surviving trip can be
    computed. *)
Lemma rank_trips_total (trips : list Trip) :
  (forall t, In t (unique_trips_of trips) ->
             calculate_travel_efficiency t = Ok (score_spec t)) ->
  rank_trips trips = Ok (sort_groups (group_by_length (unique_trips_of trips))).
Proof.
  intros H. rewrite rank_trips_unfold. apply sort_groups_total.
  intros e t He Ht. apply H. now apply (group_members _ e).
Qed.

Lemma ranked_group (u : list Trip) (L : nat) :
  trips_of_length (sort_groups (group_by_length u)) L
  = sorted_by_score (filter (has_length L) u).
Proof.
  unfold trips_of_length.
  rewrite sort_groups_get, group_by_length_spec.
  destruct (filter (has_length L) u); reflexivity.
Qed.

Lemma ranked_group_present (u : list Trip) (L : nat) :
  length_dict_get (sort_groups (group_by_length u)) L = None
  <-> filter (has_length L) u = [].
Proof.
  rewrite sort_groups_get, group_by_length_spec.
  destruct (filter (has_length L) u); cbn; split; congruence.
Qed.

(** ** Keys, lengths and scores *)

Lemma trip_key_teams (t u : Trip) :
  trip_key t = trip_key u -> map team t = map team u.
Proof.
  unfold trip_key. intros H. apply (f_equal (map fst)) in H.
  now rewrite !map_map in H.
Qed.

Lemma trip_key_length (t : Trip) : List.length (trip_key t) = List.length t.
Proof. apply length_map. Qed.

Lemma same_teams_score (t : Trip) :
  forall u, map team t = map team u -> score_spec t = score_spec u.
Proof.
  induction t as [ | a t IH]; intros [ | a' u] H; try discriminate; [reflexivity | ].
  injection H as Ha Ht.
  destruct t as [ | b t], u as [ | b' u]; try discriminate; [reflexivity | ].
  rewrite !score_spec_cons, (IH (b' :: u) Ht).
  injection Ht as Hb _. unfold rank_differs. cbn [fst snd].
  now rewrite Ha, Hb.
Qed.

Lemma same_teams_ranked (t : Trip) :
  forall u, map team t = map team u -> all_ranked t = all_ranked u.
Proof.
  induction t as [ | a t IH]; intros [ | a' u] H; try discriminate; [reflexivity | ].
  injection H as Ha Ht. cbn. unfold ranked at 1 3. rewrite Ha. f_equal. now apply IH.
Qed.

Lemma same_key_efficiency (t u : Trip) :
  trip_key t = trip_key u ->
  calculate_travel_efficiency t = calculate_travel_efficiency u.
Proof.
  intros H. rewrite !calculate_travel_efficiency_spec.
  assert (Hl : List.length t = List.length u)
    by (rewrite <- !trip_key_length; now rewrite H).
  apply trip_key_teams in H.
  now rewrite Hl, (same_teams_ranked _ _ H), (same_teams_score _ _ H).
Qed.

Lemma trip_of_key_key (k : list (string * Z)) : trip_key (trip_of_key k) = k.
Proof.
  unfold trip_key, trip_of_key. rewrite map_map. cbn.
  induction k as [ | [s z] k IH]; cbn; [reflexivity | now rewrite IH].
Qed.

Lemma key_score_spec (t : Trip) : score_spec t = key_score (trip_key t).
Proof.
  unfold key_score. apply same_teams_score, trip_key_teams.
  now rewrite trip_of_key_key.
Qed.

Lemma count_one_of_key (l : list Trip) (t : Trip) :
  NoDup (map trip_key l) -> In (trip_key t) (map trip_key l) ->
  List.length (filter (same_key t) l) = 1.
Proof.
  induction l as [ | u l IH]; cbn [map filter]; intros Hnd Hin; [destruct Hin | ].
  inversion Hnd as [ | ? ? Hu Hnd']; subst.
  unfold same_key at 1. destruct (key_eqb (trip_key t) (trip_key u)) eqn:E.
  - apply key_eqb_eq in E. cbn. f_equal.
    assert (Hnone : forall v, In v l -> same_key t v = false).
    { intros v Hv. unfold same_key. destruct (key_eqb _ _) eqn:Ev; [ | reflexivity].
      apply key_eqb_eq in Ev. exfalso. apply Hu. rewrite <- E, Ev. now apply in_map. }
    clear - Hnone. induction l as [ | v l IH]; [reflexivity | ].
    cbn. rewrite (Hnone v (or_introl eq_refl)). apply IH.
    intros w Hw. apply Hnone. now right.
  - destruct Hin as [Heq | Hin]; [ | now apply IH].
    rewrite Heq, key_eqb_refl in E. discriminate.
Qed.

Lemma filter_length_perm {A : Type} (f : A -> bool) (l1 l2 : list A) :
  Permutation l1 l2 -> List.length (filter f l1) = List.length (filter f l2).
Proof. intros H. apply Permutation_length. now apply Permutation_filter. Qed.

(** ** Deduplication in the ranker *)

(** C6. Whenever the ranker returns: the surviving trips are the input with
    trips left out, in input order; a survivor is the first input trip with
    its key; every input trip has exactly one survivor with its sequence of
    (team, date) pairs, and exactly one trip with it in the whole output;
    and every group is the sort of the survivors of that length, taken in
    their first-seen order. *)
Theorem ranker_deduplicates_by_key (trips : list Trip) (d : LengthDict) :
  rank_trips trips = Ok d ->
  subsequence (unique_trips_of trips) trips
  /\ (forall t, In t (unique_trips_of trips) -> find (same_key t) trips = Some t)
  /\ (forall t, In t trips ->
                List.length (filter (same_key t) (unique_trips_of trips)) = 1)
  /\ (forall t, In t trips ->
                List.length (filter (same_key t) (ranked_output d)) = 1)
  /\ (forall L, trips_of_length d L
                = sorted_by_score (filter (has_length L) (unique_trips_of trips))).
Proof.
  intros H. apply rank_trips_ok in H as [-> _].
  rewrite unique_trips_of_first_seen.
  assert (Hcount : forall t, In t trips ->
            List.length (filter (same_key t) (first_seen [] trips)) = 1).
  { intros t Ht. apply count_one_of_key.
    - apply first_seen_keys_NoDup.
    - apply first_seen_complete; [exact Ht | intros []]. }
  repeat split.
  - apply first_seen_subsequence.
  - intros t Ht. now apply (first_seen_is_first trips []).
  - exact Hcount.
  - intros t Ht. rewrite <- (Hcount t Ht). apply filter_length_perm.
    rewrite sort_groups_output. apply group_by_length_output.
  - intros L. apply ranked_group.
Qed.

Lemma ranker_deduplicates_by_key_witness :
  rank_trips sample_trips = Ok sample_ranking
  /\ subsequence (unique_trips_of sample_trips) sample_trips
  /\ (forall t, In t (unique_trips_of sample_trips) ->
                find (same_key t) sample_trips = Some t)
  /\ (forall t, In t sample_trips ->
                List.length (filter (same_key t) (unique_trips_of sample_trips)) = 1)
  /\ (forall t, In t sample_trips ->
                List.length (filter (same_key t) (ranked_output sample_ranking)) = 1)
  /\ (forall L, trips_of_length sample_ranking L
                = sorted_by_score (filter (has_length L) (unique_trips_of sample_trips))).
Proof.
  split; [vm_compute; reflexivity | ].
  apply (ranker_deduplicates_by_key sample_trips sample_ranking).
  vm_compute; reflexivity.
Defined.

(** ** The order inside a group *)

(** C7. Whenever the ranker returns, in every group: of two neighbours the
    first has the smaller or equal score, the score the code computes being
    the number of adjacent pairs of the trip whose geographic ranks differ;
    the trips of one score stand in the order they have after deduplication;
    and a trip of at most one game scores 0. *)
Theorem groups_are_sorted_by_efficiency (trips : list Trip) (d : LengthDict) :
  rank_trips trips = Ok d ->
  (forall L g, length_dict_get d L = Some g ->
     (forall i t1 t2,
        nth_error g i = Some t1 -> nth_error g (S i) = Some t2 ->
        calculate_travel_efficiency t1 = Ok (score_spec t1)
        /\ calculate_travel_efficiency t2 = Ok (score_spec t2)
        /\ score_spec t1 <= score_spec t2)
     /\ (forall s, filter (has_score s) g
                   = filter (has_score s)
                       (filter (has_length L) (unique_trips_of trips))))
  /\ (forall t, List.length t <= 1 -> calculate_travel_efficiency t = Ok 0).
Proof.
  intros H. apply rank_trips_ok in H as [-> Hscore]. split.
  - intros L g Hg.
    pose proof (ranked_group (unique_trips_of trips) L) as Hgroup.
    unfold trips_of_length in Hgroup. rewrite Hg in Hgroup. subst g.
    assert (Hin : forall t, In t (sorted_by_score
                                   (filter (has_length L) (unique_trips_of trips))) ->
                            calculate_travel_efficiency t = Ok (score_spec t)).
    { intros t Ht. apply Hscore.
      apply (Permutation_in _ (sorted_by_score_perm _)) in Ht.
      now apply filter_In in Ht as [Ht _]. }
    split.
    + intros i t1 t2 H1 H2. repeat split.
      * apply Hin. eapply nth_error_In, H1.
      * apply Hin. eapply nth_error_In, H2.
      * exact (Sorted_adjacent _ _ (sorted_by_score_sorted _) i t1 t2 H1 H2).
    + intros s. apply sorted_by_score_stable.
  - intros t Ht. unfold calculate_travel_efficiency.
    now apply Nat.leb_le in Ht as ->.
Qed.

Lemma groups_are_sorted_by_efficiency_witness :
  rank_trips sample_trips = Ok sample_ranking
  /\ (forall L g, length_dict_get sample_ranking L = Some g ->
        (forall i t1 t2,
           nth_error g i = Some t1 -> nth_error g (S i) = Some t2 ->
           calculate_travel_efficiency t1 = Ok (score_spec t1)
           /\ calculate_travel_efficiency t2 = Ok (score_spec t2)
           /\ score_spec t1 <= score_spec t2)
        /\ (forall s, filter (has_score s) g
                      = filter (has_score s)
                          (filter (has_length L) (unique_trips_of sample_trips))))
  /\ (forall t, List.length t <= 1 -> calculate_travel_efficiency t = Ok 0).
Proof.
  split; [vm_compute; reflexivity | ].
  apply (groups_are_sorted_by_efficiency sample_trips sample_ranking).
  vm_compute; reflexivity.
Defined.

(** ** The ranker on a permuted input *)

(** C5 fails as stated: two different trips of equal length and equal score
    come out in the order they came in, so swapping them in the input swaps
    them in their group. *)
Lemma ranking_depends_on_input_order :
  Permutation [trip_via_knicks; trip_via_nets] [trip_via_nets; trip_via_knicks]
  /\ rank_trips [trip_via_knicks; trip_via_nets]
     = Ok [(3, [trip_via_knicks; trip_via_nets])]
  /\ rank_trips [trip_via_nets; trip_via_knicks]
     = Ok [(3, [trip_via_nets; trip_via_knicks])]
  /\ ~ (forall xs ys : list Trip,
          Permutation xs ys -> rank_trips xs = rank_trips ys).
Proof.
  assert (Hp : Permutation [trip_via_knicks; trip_via_nets]
                           [trip_via_nets; trip_via_knicks]) by apply perm_swap.
  split; [exact Hp | ].
  split; [vm_compute; reflexivity | ].
  split; [vm_compute; reflexivity | ].
  intros H. specialize (H _ _ Hp). vm_compute in H. discriminate.
Qed.

Lemma unique_keys_perm (xs ys : list Trip) :
  Permutation xs ys ->
  Permutation (map trip_key (unique_trips_of xs)) (map trip_key (unique_trips_of ys)).
Proof.
  intros Hp. rewrite !unique_trips_of_first_seen.
  assert (Hmem : forall l k, In k (map trip_key (first_seen [] l))
                             <-> In k (map trip_key l)).
  { intros l k. split; intros Hk; apply in_map_iff in Hk as (t & <- & Ht).
    - apply in_map. eapply subsequence_In; [apply first_seen_subsequence | exact Ht].
    - apply first_seen_complete; [exact Ht | intros []]. }
  apply NoDup_Permutation; try apply first_seen_keys_NoDup.
  intros k. rewrite !Hmem. split; apply Permutation_in.
  - now apply Permutation_map.
  - now apply Permutation_map, Permutation_sym.
Qed.

Lemma group_keys (u : list Trip) (L : nat) :
  map trip_key (filter (has_length L) u)
  = filter (fun k => List.length k =? L) (map trip_key u).
Proof.
  rewrite filter_map_comm. f_equal. apply filter_ext.
  intros t. unfold has_length. now rewrite trip_key_length.
Qed.

Lemma sorted_scores (l : list Trip) : Sorted le (map score_spec (sorted_by_score l)).
Proof.
  pose proof (sorted_by_score_sorted l) as H.
  induction (sorted_by_score l) as [ | t r IH]; [constructor | ].
  inversion H as [ | ? ? Hs Hhd]; subst. cbn.
  constructor; [now apply IH | ].
  destruct r as [ | u r]; [constructor | ].
  inversion Hhd; subst. now constructor.
Qed.

(** C5, amended. For an input and any permutation of it the ranker returns
    on both or on neither; the two results have the same lengths, every
    group holds the same (team, date) sequences, each once, and the scores
    along a group are the same on both sides: the order inside a group can
    differ only among trips of equal score. *)
Theorem ranking_of_a_permuted_input (xs ys : list Trip) (d1 : LengthDict) :
  Permutation xs ys ->
  rank_trips xs = Ok d1 ->
  exists d2,
    rank_trips ys = Ok d2
    /\ forall L,
         (length_dict_get d1 L = None <-> length_dict_get d2 L = None)
         /\ Permutation (map trip_key (trips_of_length d1 L))
                        (map trip_key (trips_of_length d2 L))
         /\ NoDup (map trip_key (trips_of_length d1 L))
         /\ map score_spec (trips_of_length d1 L)
            = map score_spec (trips_of_length d2 L).
Proof.
  intros Hp H. apply rank_trips_ok in H as [-> Hscore].
  pose proof (unique_keys_perm xs ys Hp) as Hkeys.
  exists (sort_groups (group_by_length (unique_trips_of ys))). split.
  - apply rank_trips_total. intros t Ht.
    assert (Hk : In (trip_key t) (map trip_key (unique_trips_of xs)))
      by (apply (Permutation_in _ (Permutation_sym Hkeys)); now apply in_map).
    apply in_map_iff in Hk as (u & Hku & Hu).
    rewrite <- (same_key_efficiency u t Hku), <- (same_teams_score u t).
    + now apply Hscore.
    + now apply trip_key_teams.
  - intros L. rewrite !ranked_group.
    assert (Hgroup : Permutation
                       (map trip_key (filter (has_length L) (unique_trips_of xs)))
                       (map trip_key (filter (has_length L) (unique_trips_of ys))))
      by (rewrite !group_keys; now apply Permutation_filter).
    assert (Hsorted : Permutation
                        (map trip_key (sorted_by_score
                                         (filter (has_length L) (unique_trips_of xs))))
                        (map trip_key (sorted_by_score
                                         (filter (has_length L) (unique_trips_of ys))))).
    { rewrite (Permutation_map trip_key (sorted_by_score_perm _)), Hgroup.
      apply Permutation_sym, Permutation_map, sorted_by_score_perm. }
    repeat split.
    + rewrite !ranked_group_present. intros E.
      apply (f_equal (map trip_key)) in E. rewrite E in Hgroup.
      apply Permutation_nil in Hgroup.
      now destruct (filter (has_length L) (unique_trips_of ys)).
    + rewrite !ranked_group_present. intros E.
      apply (f_equal (map trip_key)) in E. rewrite E in Hgroup.
      apply Permutation_sym, Permutation_nil in Hgroup.
      now destruct (filter (has_length L) (unique_trips_of xs)).
    + exact Hsorted.
    + apply (Permutation_NoDup
               (Permutation_sym (Permutation_map trip_key (sorted_by_score_perm _)))).
      rewrite group_keys. apply NoDup_filter.
      rewrite unique_trips_of_first_seen. apply first_seen_keys_NoDup.
    + apply sorted_nat_unique; try apply sorted_scores.
      assert (Hs : forall l, map score_spec l = map key_score (map trip_key l)).
      { intros l. rewrite map_map. apply map_ext, key_score_spec. }
      rewrite !Hs. now apply Permutation_map.
Qed.

Lemma ranking_of_a_permuted_input_witness :
  exists d2,
    rank_trips [trip_via_nets; trip_via_knicks] = Ok d2
    /\ forall L,
         (length_dict_get [(3, [trip_via_knicks; trip_via_nets])] L = None
          <-> length_dict_get d2 L = None)
         /\ Permutation
              (map trip_key (trips_of_length [(3, [trip_via_knicks; trip_via_nets])] L))
              (map trip_key (trips_of_length d2 L))
         /\ NoDup (map trip_key
                     (trips_of_length [(3, [trip_via_knicks; trip_via_nets])] L))
         /\ map score_spec (trips_of_length [(3, [trip_via_knicks; trip_via_nets])] L)
            = map score_spec (trips_of_length d2 L).
Proof.
  apply (ranking_of_a_permuted_input [trip_via_knicks; trip_via_nets]).
  - apply perm_swap.
  - vm_compute; reflexivity.
Defined.

(** ** Node equality *)

Lemma node_eqb_id (a b : GameNode) : node_eqb a b = true <-> node_id a = node_id b.
Proof.
  unfold node_eqb, node_id.
  rewrite !andb_true_iff, !String.eqb_eq, Z.eqb_eq.
  split; [intros [[[-> ->] ->] ->]; reflexivity | intros [= -> -> -> ->]; auto].
Qed.

Lemma node_eqb_refl (a : GameNode) : node_eqb a a = true.
Proof. now apply node_eqb_id. Qed.

Lemma node_eqb_sym (a b : GameNode) : node_eqb a b = node_eqb b a.
Proof.
  destruct (node_eqb a b) eqn:E1, (node_eqb b a) eqn:E2; try reflexivity.
  - apply node_eqb_id in E1. symmetry in E1. apply node_eqb_id in E1. congruence.
  - apply node_eqb_id in E2. symmetry in E2. apply node_eqb_id in E2. congruence.
Qed.

Lemma node_eqb_trans (a b c : GameNode) :
  node_eqb a b = true -> node_eqb b c = true -> node_eqb a c = true.
Proof. rewrite !node_eqb_id. congruence. Qed.

Lemma node_eqb_team (a b : GameNode) : node_eqb a b = true -> team a = team b.
Proof. intros H. apply node_eqb_id in H. now injection H. Qed.

Lemma node_eqb_date (a b : GameNode) : node_eqb a b = true -> date a = date b.
Proof. intros H. apply node_eqb_id in H. now injection H. Qed.

Lemma has_node_id (G : DiGraph) (n : GameNode) :
  has_node G n = true <-> In (node_id n) (map node_id (g_nodes G)).
Proof.
  unfold has_node. rewrite existsb_exists, in_map_iff. split.
  - intros (m & Hm & E). exists m. apply node_eqb_id in E. now split.
  - intros (m & E & Hm). exists m. split; [exact Hm | now apply node_eqb_id].
Qed.

Lemma has_node_eqb (G : DiGraph) (n m : GameNode) :
  node_eqb n m = true -> has_node G m = true -> has_node G n = true.
Proof. rewrite !has_node_id, node_eqb_id. now intros ->. Qed.

Lemma has_node_In (G : DiGraph) (n : GameNode) :
  In n (g_nodes G) -> has_node G n = true.
Proof. intros H. apply has_node_id. now apply in_map. Qed.

(** ** [add_node] and [add_edge] keep a graph well formed *)

Lemma add_node_edges (G : DiGraph) (n : GameNode) : g_edges (add_node G n) = g_edges G.
Proof. unfold add_node. now destruct (has_node G n). Qed.

Lemma add_node_has (G : DiGraph) (n m : GameNode) :
  has_node (add_node G n) m = has_node G m || node_eqb m n.
Proof.
  unfold add_node. destruct (has_node G n) eqn:E.
  - destruct (node_eqb m n) eqn:Em; [ | now rewrite orb_false_r].
    now rewrite (has_node_eqb G m n Em E).
  - unfold has_node. cbn. rewrite existsb_app. cbn. now rewrite orb_false_r.
Qed.

Lemma add_node_keeps (G : DiGraph) (n m : GameNode) :
  has_node G m = true -> has_node (add_node G n) m = true.
Proof. intros H. now rewrite add_node_has, H. Qed.

Lemma add_node_wf (G : DiGraph) (n : GameNode) : wf_graph G -> wf_graph (add_node G n).
Proof.
  intros [Hn He Hp]. constructor.
  - unfold add_node. destruct (has_node G n) eqn:E; [exact Hn | ].
    cbn. rewrite map_app. cbn.
    apply NoDup_app; [exact Hn | repeat constructor; intros [] | ].
    intros x Hx [<- | []].
    apply has_node_id in Hx. congruence.
  - now rewrite add_node_edges.
  - rewrite add_node_edges. intros e Hin. destruct (Hp e Hin) as [H1 H2].
    split; now apply add_node_keeps.
Qed.

Lemma set_direction_In (u v : GameNode) (d : string) (es : list Edge) (e' : Edge) :
  In e' (set_direction u v d es) ->
  In e' es \/ (edge_matches u v e' = true /\ e_direction e' = d).
Proof.
  induction es as [ | e es IH]; cbn [set_direction].
  - intros [<- | []]. right. unfold edge_matches. cbn.
    now rewrite !node_eqb_refl.
  - destruct (edge_matches u v e) eqn:E.
    + intros [<- | Hin]; [ | left; now right].
      right. split; [exact E | reflexivity].
    + intros [<- | Hin]; [left; now left | ].
      destruct (IH Hin) as [H | H]; [left; now right | now right].
Qed.

Lemma edge_matches_id (u v : GameNode) (e : Edge) :
  edge_matches u v e = true <-> edge_id e = (node_id u, node_id v).
Proof.
  unfold edge_matches, edge_id. rewrite andb_true_iff, !node_eqb_id.
  split; [intros [H1 H2]; now rewrite H1, H2 | intros H; split; [exact (f_equal fst H) | exact (f_equal snd H)]].
Qed.

Lemma set_direction_ids (u v : GameNode) (d : string) (es : list Edge) x :
  In x (map edge_id (set_direction u v d es)) ->
  In x (map edge_id es) \/ x = (node_id u, node_id v).
Proof.
  intros H. apply in_map_iff in H as (e' & <- & H).
  apply set_direction_In in H as [H | [H _]].
  - left. now apply in_map.
  - right. now apply edge_matches_id.
Qed.

Lemma set_direction_NoDup (u v : GameNode) (d : string) (es : list Edge) :
  NoDup (map edge_id es) -> NoDup (map edge_id (set_direction u v d es)).
Proof.
  induction es as [ | e es IH]; cbn [set_direction map]; intros Hnd.
  - repeat constructor. intros [].
  - inversion Hnd as [ | ? ? Hnotin Hnd']; subst.
    destruct (edge_matches u v e) eqn:E; cbn [map].
    + exact Hnd.
    + constructor; [ | now apply IH].
      intros Hin. apply set_direction_ids in Hin as [Hin | Heq]; [tauto | ].
      apply edge_matches_id in Heq. congruence.
Qed.

Lemma add_edge_keeps (G : DiGraph) (u v : GameNode) (d : string) (m : GameNode) :
  has_node G m = true -> has_node (add_edge G u v d) m = true.
Proof.
  intros H. unfold add_edge, has_node. cbn [g_nodes].
  now apply add_node_keeps, add_node_keeps.
Qed.

Lemma add_edge_wf (G : DiGraph) (u v : GameNode) (d : string) :
  wf_graph G -> wf_graph (add_edge G u v d).
Proof.
  intros HG.
  pose proof (add_node_wf _ v (add_node_wf _ u HG)) as [Hn He Hp].
  constructor; cbn [add_edge g_nodes g_edges].
  - exact Hn.
  - now apply set_direction_NoDup.
  - intros e Hin. unfold has_node. cbn [g_nodes].
    change (has_node (add_node (add_node G u) v) (e_from e) = true
            /\ has_node (add_node (add_node G u) v) (e_to e) = true).
    apply set_direction_In in Hin as [Hin | [Hm _]].
    + now apply Hp.
    + unfold edge_matches in Hm. apply andb_true_iff in Hm as [Hu Hv].
      rewrite !add_node_has, Hu, Hv, !orb_true_r. now split.
Qed.

Lemma add_edge_justified (records : list GameNode) (G : DiGraph)
  (a b : GameNode) (d : string) :
  In a records -> In b records ->
  is_consecutive_night (date a) (date b) = true ->
  String.eqb (team a) (team b) = false ->
  is_valid_geographic_transition a b d = true ->
  Forall (justified records) (g_edges G) ->
  Forall (justified records) (g_edges (add_edge G a b d)).
Proof.
  intros Ha Hb Hc Ht Hv HG. apply Forall_forall. intros e Hin.
  cbn [add_edge g_edges] in Hin. rewrite !add_node_edges in Hin.
  apply set_direction_In in Hin as [Hin | [Hm Hd]].
  - rewrite Forall_forall in HG. now apply HG.
  - unfold edge_matches in Hm. apply andb_true_iff in Hm as [Hu Hw].
    exists a, b. rewrite Hd. repeat split; assumption.
Qed.

Lemma add_edges_step_wf (from_node : GameNode) (G : DiGraph) (to_node : GameNode) :
  wf_graph G -> wf_graph (add_edges_step from_node G to_node).
Proof.
  intros HG. unfold add_edges_step.
  destruct (node_eqb from_node to_node); [exact HG | ].
  destruct (negb _); [exact HG | ].
  destruct (String.eqb _ _); [exact HG | ].
  destruct (is_valid_geographic_transition from_node to_node "northbound"),
    (is_valid_geographic_transition from_node to_node "southbound");
    auto using add_edge_wf.
Qed.

Lemma add_edges_step_justified (records : list GameNode) (from_node : GameNode)
  (G : DiGraph) (to_node : GameNode) :
  In from_node records -> In to_node records ->
  Forall (justified records) (g_edges G) ->
  Forall (justified records) (g_edges (add_edges_step from_node G to_node)).
Proof.
  intros Ha Hb HG. unfold add_edges_step.
  destruct (node_eqb from_node to_node); [exact HG | ].
  destruct (is_consecutive_night _ _) eqn:Hc; cbn [negb]; [ | exact HG].
  destruct (String.eqb _ _) eqn:Ht; [exact HG | ].
  destruct (is_valid_geographic_transition from_node to_node "northbound") eqn:Hn,
    (is_valid_geographic_transition from_node to_node "southbound") eqn:Hs;
    auto using add_edge_justified.
Qed.

Lemma add_edges_step_keeps (from_node : GameNode) (G : DiGraph) (to_node m : GameNode) :
  has_node G m = true -> has_node (add_edges_step from_node G to_node) m = true.
Proof.
  intros H. unfold add_edges_step.
  destruct (node_eqb from_node to_node); [exact H | ].
  destruct (negb _); [exact H | ].
  destruct (String.eqb _ _); [exact H | ].
  destruct (is_valid_geographic_transition from_node to_node "northbound"),
    (is_valid_geographic_transition from_node to_node "southbound");
    auto using add_edge_keeps.
Qed.

(** An invariant of the graph that every turn of the two loops keeps holds
    of the graph [add_edges_to_graph] returns. *)
Lemma add_edges_to_graph_invariant (P : DiGraph -> Prop) (nodes : list GameNode) :
  (forall a b G, In a nodes -> In b nodes -> P G -> P (add_edges_step a G b)) ->
  forall G, P G -> P (add_edges_to_graph G nodes).
Proof.
  intros Hstep. unfold add_edges_to_graph.
  assert (Hinner : forall a l G, In a nodes -> incl l nodes -> P G ->
                                 P (fold_left (add_edges_step a) l G)).
  { intros a l. induction l as [ | b l IH]; intros G Ha Hl HG; [exact HG | ].
    cbn. apply IH; [exact Ha | intros x Hx; apply Hl; now right | ].
    apply Hstep; [exact Ha | apply Hl; now left | exact HG]. }
  assert (Houter : forall l G, incl l nodes -> P G ->
             P (fold_left (fun g a => fold_left (add_edges_step a) nodes g) l G)).
  { intros l. induction l as [ | a l IH]; intros G Hl HG; [exact HG | ].
    cbn. apply IH; [intros x Hx; apply Hl; now right | ].
    apply Hinner; [apply Hl; now left | apply incl_refl | exact HG]. }
  intros G. apply Houter, incl_refl.
Qed.

Lemma add_nodes_invariant (P : DiGraph -> Prop) (nodes : list GameNode) :
  (forall n G, In n nodes -> P G -> P (add_node G n)) ->
  forall G, P G -> P (fold_left add_node nodes G).
Proof.
  intros Hstep.
  assert (H : forall l G, incl l nodes -> P G -> P (fold_left add_node l G)).
  { intros l. induction l as [ | n l IH]; intros G Hl HG; [exact HG | ].
    cbn. apply IH; [intros x Hx; apply Hl; now right | ].
    apply Hstep; [apply Hl; now left | exact HG]. }
  intros G. apply H, incl_refl.
Qed.

Lemma empty_graph_wf : wf_graph empty_graph.
Proof. constructor; cbn; [constructor | constructor | intros e []]. Qed.

Lemma build_game_graph_wf (records : list GameNode) :
  wf_graph (build_game_graph records).
Proof.
  unfold build_game_graph.
  apply add_edges_to_graph_invariant; [intros; now apply add_edges_step_wf | ].
  apply add_nodes_invariant; [intros; now apply add_node_wf | ].
  apply empty_graph_wf.
Qed.

Lemma build_game_graph_justified (records : list GameNode) :
  Forall (justified records) (g_edges (build_game_graph records)).
Proof.
  unfold build_game_graph.
  apply (add_edges_to_graph_invariant
           (fun G => Forall (justified records) (g_edges G))).
  - intros a b G Ha Hb HG. now apply add_edges_step_justified.
  - apply (add_nodes_invariant
             (fun G => Forall (justified records) (g_edges G))).
    + intros n G _ HG. now rewrite add_node_edges.
    + constructor.
Qed.

Lemma build_game_graph_has_records (records : list GameNode) (n : GameNode) :
  In n records -> has_node (build_game_graph records) n = true.
Proof.
  intros Hn. unfold build_game_graph.
  apply (add_edges_to_graph_invariant (fun G => has_node G n = true)).
  - intros a b G _ _ HG. now apply add_edges_step_keeps.
  - assert (H : forall l G, (In n l \/ has_node G n = true) ->
                            has_node (fold_left add_node l G) n = true).
    { intros l. induction l as [ | m l IH]; intros G [Hin | HG]; cbn.
      - destruct Hin.
      - exact HG.
      - apply IH. destruct Hin as [-> | Hin]; [right | now left].
        rewrite add_node_has, node_eqb_refl. apply orb_true_r.
      - apply IH. right. now apply add_node_keeps. }
    apply H. now left.
Qed.

(** ** The searches are the shared traversal *)

Lemma extend_each_ext {A B : Type} (f g : A -> result (list B)) (l : list A) :
  (forall x, f x = g x) -> extend_each f l = extend_each g l.
Proof.
  intros H. induction l as [ | x l IH]; cbn; [reflexivity | ].
  now rewrite H, IH.
Qed.

Lemma dfs_northbound_dfs (fuel : nat) :
  forall G current visited path,
    dfs_northbound fuel G current visited path
    = dfs "northbound" accept_northbound fuel G current visited path.
Proof.
  induction fuel as [ | fuel IH]; intros G current visited path; [reflexivity | ].
  cbn [dfs_northbound dfs]. unfold accept_northbound.
  destruct (List.length (path ++ [current]) <? 5); [ | reflexivity].
  destruct (successors G current) as [nbs | e]; [ | reflexivity].
  cbn [bind]. f_equal. apply extend_each_ext.
  intros nb. destruct (edge_direction G current nb); [ | reflexivity].
  cbn [bind]. destruct (String.eqb _ _); [ | reflexivity].
  destruct (negb _); [apply IH | reflexivity].
Qed.

Lemma dfs_southbound_dfs (fuel : nat) :
  forall G current visited path,
    dfs_southbound fuel G current visited path
    = dfs "southbound" accept_southbound fuel G current visited path.
Proof.
  induction fuel as [ | fuel IH]; intros G current visited path; [reflexivity | ].
  cbn [dfs_southbound dfs]. unfold accept_southbound.
  destruct (List.length (path ++ [current]) <? 5); [ | reflexivity].
  destruct (successors G current) as [nbs | e]; [ | reflexivity].
  cbn [bind]. f_equal. apply extend_each_ext.
  intros nb. destruct (edge_direction G current nb); [ | reflexivity].
  cbn [bind]. destruct (String.eqb _ _); [ | reflexivity].
  destruct (negb _); [apply IH | reflexivity].
Qed.

(** ** What a traversal records *)

Lemma Forall2_In_r {A B : Type} (R : A -> B -> Prop) (l : list A) (rs : list B) (y : B) :
  Forall2 R l rs -> In y rs -> exists x, In x l /\ R x y.
Proof.
  induction 1 as [ | x y' l rs HR _ IH]; intros Hin; [destruct Hin | ].
  destruct Hin as [<- | Hin].
  - exists x. split; [now left | exact HR].
  - destruct (IH Hin) as (x' & Hx' & HR'). exists x'. split; [now right | exact HR'].
Qed.

Lemma successors_ok (G : DiGraph) (current : GameNode) (nbs : list GameNode) :
  successors G current = Ok nbs ->
  has_node G current = true
  /\ nbs = map e_to (filter (fun e => node_eqb (e_from e) current) (g_edges G)).
Proof.
  unfold successors. destruct (has_node G current); [ | discriminate].
  intros [= <-]. now split.
Qed.

Lemma edge_direction_ok (G : DiGraph) (a b : GameNode) (d : string) :
  edge_direction G a b = Ok d -> linked G d a b.
Proof.
  unfold edge_direction.
  destruct (find (edge_matches a b) (g_edges G)) as [e | ] eqn:E; [ | discriminate].
  intros [= <-]. apply find_some in E as [Hin Hm]. now exists e.
Qed.

Section Traversal.
Variable G : DiGraph.
Variable direction : string.
Variable accept : GameNode -> list string -> Trip -> bool.

(** Every path the traversal returns is one the relation describes. *)
Lemma dfs_sound (fuel : nat) :
  forall current visited path trips,
    dfs direction accept fuel G current visited path = Ok trips ->
    forall t, In t trips -> found_from G direction accept current visited path t.
Proof.
  induction fuel as [ | fuel IH]; intros current visited path trips H t Ht;
    [discriminate | ].
  cbn [dfs] in H.
  set (current_path := path ++ [current]) in *.
  set (current_teams := set_add (team current) visited) in *.
  assert (Hhere : forall t,
             In t (if accept current current_teams current_path
                   then [current_path] else []) ->
             found_from G direction accept current visited path t).
  { intros u Hu. destruct (accept current current_teams current_path) eqn:Ha;
      [ | destruct Hu].
    destruct Hu as [<- | []]. now apply found_here. }
  destruct (Nat.ltb_spec (List.length current_path) 5) as [Hlen | _].
  - apply bind_ok in H as (nbs & Hnbs & H).
    apply bind_ok in H as (deeper & Hdeeper & H). injection H as <-.
    apply in_app_or in Ht as [Ht | Ht]; [now apply Hhere | ].
    apply extend_each_ok in Hdeeper as (rs & Hrs & ->).
    apply in_concat in Ht as (ys & Hys & Ht).
    destruct (Forall2_In_r _ _ _ _ Hrs Hys) as (nb & Hnb & Hf).
    apply bind_ok in Hf as (d & Hd & Hf).
    destruct (String.eqb_spec d direction) as [-> | _];
      [ | injection Hf as <-; destruct Ht].
    destruct (str_in (team nb) current_teams) eqn:Hvisited; cbn [negb] in Hf;
      [injection Hf as <-; destruct Ht | ].
    apply (found_deeper _ _ _ current visited path nb t Hlen).
    + now apply edge_direction_ok.
    + exact Hvisited.
    + exact (IH _ _ _ _ Hf t Ht).
  - injection H as <-. now apply Hhere.
Qed.

(** On a well-formed graph the traversal returns: the fuel is enough for
    the five levels a path can reach, and every neighbour is a node. *)
Lemma dfs_total (fuel : nat) :
  wf_graph G ->
  forall current visited path,
    has_node G current = true ->
    1 <= fuel -> 5 <= fuel + List.length path ->
    exists trips, dfs direction accept fuel G current visited path = Ok trips.
Proof.
  intros HG. induction fuel as [ | fuel IH];
    intros current visited path Hnode Hfuel Hsum; [lia | ].
  cbn [dfs].
  destruct (Nat.ltb_spec (List.length (path ++ [current])) 5) as [Hlen | _];
    [ | eauto].
  rewrite length_app in Hlen. cbn in Hlen.
  unfold successors. rewrite Hnode. cbn [bind].
  set (F := fun neighbor : GameNode => _).
  assert (Hall : forall nbs,
             (forall nb, In nb nbs ->
                         exists e, In e (g_edges G)
                                   /\ node_eqb (e_from e) current = true
                                   /\ e_to e = nb) ->
             exists deeper, extend_each F nbs = Ok deeper).
  { induction nbs as [ | nb nbs IHn]; intros Hnbs; [cbn; eauto | ].
    destruct (Hnbs nb (or_introl eq_refl)) as (e & He & Hfrom & Hto).
    destruct IHn as (zs & Hzs); [intros x Hx; apply Hnbs; now right | ].
    assert (Hys : exists ys, F nb = Ok ys).
    { subst F. cbn beta. unfold edge_direction.
      destruct (find (edge_matches current nb) (g_edges G)) as [e' | ] eqn:E.
      - cbn [bind]. destruct (String.eqb _ _); [ | eauto].
        destruct (negb _); [ | eauto].
        apply IH.
        + subst nb. now apply (wf_endpoints G HG e).
        + lia.
        + rewrite length_app. cbn. lia.
      - pose proof (find_none _ _ E e He) as Hm.
        unfold edge_matches in Hm.
        rewrite Hfrom, Hto, node_eqb_refl in Hm. discriminate. }
    destruct Hys as (ys & Hys). cbn [extend_each]. rewrite Hys, Hzs. cbn. eauto. }
  destruct (Hall (map e_to (filter (fun e => node_eqb (e_from e) current) (g_edges G))))
    as (deeper & Hdeeper).
  - intros nb Hnb. apply in_map_iff in Hnb as (e & <- & He).
    apply filter_In in He as [He Hfrom]. now exists e.
  - rewrite Hdeeper. cbn. eauto.
Qed.
End Traversal.

(** ** Paths the traversal records *)

Lemma str_in_In (x : string) (l : list string) : str_in x l = true <-> In x l.
Proof.
  unfold str_in. rewrite existsb_exists. split.
  - intros (y & Hy & E). apply String.eqb_eq in E. now subst.
  - intros H. exists x. split; [exact H | apply String.eqb_refl].
Qed.

Lemma set_add_in (x y : string) (s : list string) :
  str_in x (set_add y s) = true <-> x = y \/ str_in x s = true.
Proof.
  unfold set_add. destruct (str_in y s) eqn:E.
  - split; [now right | intros [-> | H]; assumption].
  - rewrite !str_in_In. cbn. intuition congruence.
Qed.

Lemma tracks_nil : tracks [] [].
Proof. intros x. cbn. split; [discriminate | intros []]. Qed.

Lemma tracks_step (visited : list string) (path : Trip) (current : GameNode) :
  tracks visited path ->
  tracks (set_add (team current) visited) (path ++ [current]).
Proof.
  intros H x. rewrite set_add_in, map_app, in_app_iff, (H x). cbn. intuition.
Qed.

Lemma consecutive_nights_one (a : GameNode) : consecutive_nights [a].
Proof. intros [ | i] x y Hx Hy; cbn in Hy; [discriminate | now destruct i]. Qed.

Lemma consecutive_nights_snoc (p : Trip) (a b : GameNode) :
  consecutive_nights (p ++ [a]) -> (date b - date a = 1)%Z ->
  consecutive_nights ((p ++ [a]) ++ [b]).
Proof.
  intros Hp Hab i x y Hx Hy.
  destruct (Nat.lt_ge_cases (S i) (List.length (p ++ [a]))) as [Hlt | Hge].
  - rewrite nth_error_app1 in Hx, Hy by lia. exact (Hp i x y Hx Hy).
  - rewrite length_app in Hge. cbn in Hge.
    assert (Hi : i = List.length p).
    { assert (Hlt : S i < List.length ((p ++ [a]) ++ [b]))
        by (apply nth_error_Some; congruence).
      rewrite !length_app in Hlt. cbn in Hlt. lia. }
    subst i.
    rewrite nth_error_app1 in Hx by (rewrite length_app; cbn; lia).
    rewrite nth_error_app2, Nat.sub_diag in Hx by lia.
    rewrite nth_error_app2 in Hy by (rewrite length_app; cbn; lia).
    rewrite length_app in Hy. cbn [List.length] in Hy.
    replace (S (List.length p) - (List.length p + 1)) with 0 in Hy by lia.
    cbn in Hx, Hy. congruence.
Qed.

Section FoundFrom.
Variable G : DiGraph.
Variable direction : string.
Variable accept : GameNode -> list string -> Trip -> bool.

Lemma found_from_prefix current visited path t :
  found_from G direction accept current visited path t ->
  exists ext, t = path ++ current :: ext.
Proof.
  induction 1 as [current visited path _
                 | current visited path nb t _ _ _ _ IH].
  - now exists [].
  - destruct IH as (ext & ->). exists (nb :: ext).
    now rewrite <- app_assoc.
Qed.

(** The path is recorded at its last node, under the test, with the visited
    set holding the teams of the path. *)
Lemma found_from_accepted current visited path t :
  found_from G direction accept current visited path t ->
  tracks visited path ->
  exists last teams p,
    t = p ++ [last] /\ tracks teams t /\ accept last teams t = true.
Proof.
  induction 1 as [current visited path Ha
                 | current visited path nb t _ _ _ _ IH]; intros Htr.
  - exists current, (set_add (team current) visited), path.
    repeat split; try assumption; now apply tracks_step.
  - apply IH. now apply tracks_step.
Qed.

Lemma found_from_distinct current visited path t :
  found_from G direction accept current visited path t ->
  tracks visited path ->
  NoDup (map team path) ->
  str_in (team current) visited = false ->
  NoDup (map team t).
Proof.
  induction 1 as [current visited path _
                 | current visited path nb t _ _ Hnew _ IH]; intros Htr Hnd Hcur.
  - rewrite map_app. cbn.
    apply NoDup_app; [exact Hnd | repeat constructor; intros [] | ].
    intros x Hx [<- | []]. apply Htr in Hx. congruence.
  - apply IH; [now apply tracks_step | | exact Hnew].
    rewrite map_app. cbn.
    apply NoDup_app; [exact Hnd | repeat constructor; intros [] | ].
    intros x Hx [<- | []]. apply Htr in Hx. congruence.
Qed.

Lemma found_from_consecutive current visited path t :
  (forall e, In e (g_edges G) -> (date (e_to e) - date (e_from e) = 1)%Z) ->
  found_from G direction accept current visited path t ->
  consecutive_nights (path ++ [current]) ->
  consecutive_nights t.
Proof.
  intros Hdates.
  induction 1 as [current visited path _
                 | current visited path nb t _ Hlink _ _ IH]; intros Hc.
  - exact Hc.
  - apply IH. apply consecutive_nights_snoc; [exact Hc | ].
    destruct Hlink as (e & He & Hm & _).
    unfold edge_matches in Hm. apply andb_true_iff in Hm as [Hfrom Hto].
    rewrite <- (node_eqb_date _ _ Hfrom), <- (node_eqb_date _ _ Hto).
    now apply Hdates.
Qed.

(** A recorded path of two or more nodes runs along edges. *)
Lemma found_from_touched current visited path t :
  found_from G direction accept current visited path t ->
  (forall n, In n path -> touched G n) ->
  (path <> [] -> touched G current) ->
  2 <= List.length t ->
  forall n, In n t -> touched G n.
Proof.
  induction 1 as [current visited path _
                 | current visited path nb t _ Hlink _ _ IH];
    intros Hpath Hcur Hlen n Hn.
  - apply in_app_or in Hn as [Hn | [<- | []]]; [now apply Hpath | ].
    apply Hcur. intros ->. cbn in Hlen. lia.
  - destruct Hlink as (e & He & Hm).
    destruct Hm as [Hm _].
    unfold edge_matches in Hm. apply andb_true_iff in Hm as [Hfrom Hto].
    apply IH; try assumption.
    + intros m Hm. apply in_app_or in Hm as [Hm | [<- | []]]; [now apply Hpath | ].
      exists e. split; [exact He | now left].
    + intros _. exists e. split; [exact He | now right].
Qed.
End FoundFrom.

(** ** The trips of the two searches *)

Lemma northbound_found_valid (G : DiGraph) (start : GameNode) (t : Trip) :
  (forall e, In e (g_edges G) -> (date (e_to e) - date (e_from e) = 1)%Z) ->
  found_from G "northbound" accept_northbound start [] [] t ->
  valid_trip t.
Proof.
  intros Hdates Hf.
  destruct (found_from_accepted _ _ _ _ _ _ _ Hf tracks_nil)
    as (last & teams & p & Ht & Htr & Ha).
  unfold accept_northbound in Ha.
  apply andb_true_iff in Ha as [Ha Hw]. apply andb_true_iff in Ha as [H3 H5].
  apply Nat.leb_le in H3, H5.
  repeat split; try assumption.
  - apply (found_from_distinct _ _ _ _ _ _ _ Hf tracks_nil); [constructor | reflexivity].
  - apply (found_from_consecutive _ _ _ _ _ _ _ Hdates Hf).
    apply consecutive_nights_one.
  - now apply Htr.
Qed.

Lemma southbound_found_valid (G : DiGraph) (start : GameNode) (t : Trip) :
  (forall e, In e (g_edges G) -> (date (e_to e) - date (e_from e) = 1)%Z) ->
  found_from G "southbound" accept_southbound start [] [] t ->
  valid_trip t.
Proof.
  intros Hdates Hf.
  destruct (found_from_accepted _ _ _ _ _ _ _ Hf tracks_nil)
    as (last & teams & p & Ht & Htr & Ha).
  unfold accept_southbound in Ha.
  apply andb_true_iff in Ha as [Hw Ha]. apply andb_true_iff in Ha as [H3 H5].
  apply Nat.leb_le in H3, H5. apply String.eqb_eq in Hw.
  repeat split; try assumption.
  - apply (found_from_distinct _ _ _ _ _ _ _ Hf tracks_nil); [constructor | reflexivity].
  - apply (found_from_consecutive _ _ _ _ _ _ _ Hdates Hf).
    apply consecutive_nights_one.
  - rewrite Ht, map_app, in_app_iff. right. left. exact Hw.
Qed.

Lemma find_southbound_trips_sound (G : DiGraph) (anchor : GameNode) (south : list Trip) :
  find_southbound_trips G anchor = Ok south ->
  forall t, In t south ->
    exists start, In start (g_nodes G) /\ team start <> "Wizards"
                  /\ found_from G "southbound" accept_southbound start [] [] t.
Proof.
  unfold find_southbound_trips. intros H t Ht.
  apply extend_each_ok in H as (rs & Hrs & ->).
  apply in_concat in Ht as (ys & Hys & Ht).
  destruct (Forall2_In_r _ _ _ _ Hrs Hys) as (start & Hstart & Hf).
  destruct (String.eqb_spec (team start) "Wizards") as [_ | Hne]; cbn [negb] in Hf;
    [injection Hf as <-; destruct Ht | ].
  exists start. repeat split; try assumption.
  rewrite dfs_southbound_dfs in Hf. exact (dfs_sound _ _ _ _ _ _ _ _ Hf t Ht).
Qed.

Lemma find_all_valid_trips_sound (G : DiGraph) (trips : list Trip) :
  find_all_valid_trips G = Ok trips ->
  forall t, In t trips ->
    (exists w, In w (wizards_games G)
               /\ found_from G "northbound" accept_northbound w [] [] t)
    \/ (exists start, In start (g_nodes G) /\ team start <> "Wizards"
                      /\ found_from G "southbound" accept_southbound start [] [] t).
Proof.
  unfold find_all_valid_trips. fold (wizards_games G). intros H t Ht.
  apply extend_each_ok in H as (rs & Hrs & ->).
  apply in_concat in Ht as (ys & Hys & Ht).
  destruct (Forall2_In_r _ _ _ _ Hrs Hys) as (w & Hw & Hf).
  apply bind_ok in Hf as (north & Hnorth & Hf).
  apply bind_ok in Hf as (south & Hsouth & Hf). injection Hf as <-.
  apply in_app_or in Ht as [Ht | Ht].
  - left. exists w. split; [exact Hw | ].
    unfold find_northbound_trips in Hnorth. rewrite dfs_northbound_dfs in Hnorth.
    exact (dfs_sound _ _ _ _ _ _ _ _ Hnorth t Ht).
  - right. exact (find_southbound_trips_sound G w south Hsouth t Ht).
Qed.

Lemma extend_each_exists {A B : Type} (f : A -> result (list B)) (l : list A) :
  (forall x, In x l -> exists ys, f x = Ok ys) ->
  exists r, extend_each f l = Ok r.
Proof.
  induction l as [ | x l IH]; intros H; cbn; [eauto | ].
  destruct (H x (or_introl eq_refl)) as (ys & ->).
  destruct IH as (zs & ->); [intros y Hy; apply H; now right | ].
  cbn. eauto.
Qed.

Lemma find_northbound_trips_total (G : DiGraph) (w : GameNode) :
  wf_graph G -> In w (g_nodes G) ->
  exists north, find_northbound_trips G w = Ok north.
Proof.
  intros HG Hw. unfold find_northbound_trips. rewrite dfs_northbound_dfs.
  apply dfs_total; [exact HG | now apply has_node_In | | ];
    unfold search_depth; cbn; lia.
Qed.

Lemma find_southbound_trips_total (G : DiGraph) :
  wf_graph G ->
  exists south, forall anchor, find_southbound_trips G anchor = Ok south.
Proof.
  intros HG.
  destruct (extend_each_exists
              (fun start_node =>
                 if negb (String.eqb (team start_node) "Wizards")
                 then dfs_southbound search_depth G start_node [] []
                 else Ok [])
              (g_nodes G)) as (south & Hsouth).
  - intros s Hs. destruct (negb _); [ | eauto].
    rewrite dfs_southbound_dfs.
    apply dfs_total; [exact HG | now apply has_node_In | | ];
      unfold search_depth; cbn; lia.
  - exists south. intros anchor. exact Hsouth.
Qed.

Lemma find_all_valid_trips_total (G : DiGraph) :
  wf_graph G -> exists trips, find_all_valid_trips G = Ok trips.
Proof.
  intros HG. unfold find_all_valid_trips. apply extend_each_exists.
  intros w Hw. apply filter_In in Hw as [Hw _].
  destruct (find_northbound_trips_total G w HG Hw) as (north & ->).
  destruct (find_southbound_trips_total G HG) as (south & Hsouth).
  rewrite (Hsouth w). cbn. eauto.
Qed.

(** ** Trips over the graph built from the records *)

Lemma ranked_target (n : GameNode) : ranked n = str_in (team n) target_teams.
Proof.
  unfold ranked, rank_of, get_team_geographic_order, target_teams, str_in.
  team_split (team n); team_simpl; reflexivity.
Qed.

Lemma rank_lt_ranked (a b : GameNode) :
  rank_lt (team a) (team b) -> ranked a = true /\ ranked b = true.
Proof.
  unfold rank_lt, ranked.
  destruct (rank_of (team a)), (rank_of (team b)); intros H; try contradiction.
  now split.
Qed.

Lemma valid_transition_ranked (a b : GameNode) (d : string) :
  (is_NYC a = true -> ranked a = true) ->
  (is_NYC b = true -> ranked b = true) ->
  is_valid_geographic_transition a b d = true ->
  ranked a = true /\ ranked b = true.
Proof.
  intros Ha Hb Hv.
  assert (Hco : co_located a b = true -> ranked a = true /\ ranked b = true).
  { unfold co_located. intros H.
    apply andb_true_iff in H as [H _]. apply andb_true_iff in H as [H1 H2]. auto. }
  destruct (String.eqb_spec d "northbound") as [-> | Hn].
  - rewrite valid_northbound in Hv. apply orb_true_iff in Hv as [Hv | Hv]; [auto | ].
    apply northbound_table_is_rank_order in Hv. now apply rank_lt_ranked.
  - destruct (String.eqb_spec d "southbound") as [-> | Hs].
    + rewrite valid_southbound in Hv. apply orb_true_iff in Hv as [Hv | Hv]; [auto | ].
      apply southbound_table_is_rank_order in Hv.
      apply rank_lt_ranked in Hv. tauto.
    + unfold is_valid_geographic_transition in Hv.
      apply String.eqb_neq in Hn, Hs. rewrite Hn, Hs in Hv. discriminate.
Qed.

Lemma ranked_eqb (a b : GameNode) : node_eqb a b = true -> ranked a = ranked b.
Proof. intros H. unfold ranked. now rewrite (node_eqb_team _ _ H). Qed.

Section BuiltGraph.
Variable records : list GameNode.

Lemma built_edge_dates (e : Edge) :
  In e (g_edges (build_game_graph records)) ->
  (date (e_to e) - date (e_from e) = 1)%Z.
Proof.
  intros He.
  pose proof (build_game_graph_justified records) as Hj.
  rewrite Forall_forall in Hj.
  destruct (Hj e He) as (a & b & _ & _ & Hfrom & Hto & Hc & _).
  rewrite (node_eqb_date _ _ Hfrom), (node_eqb_date _ _ Hto).
  unfold is_consecutive_night in Hc. now apply Z.eqb_eq in Hc.
Qed.

(** Every record outside the five teams has a city group other than NYC. *)
Hypothesis Hnyc : forall r, In r records -> is_NYC r = true -> ranked r = true.

Lemma built_edge_ranked (e : Edge) :
  In e (g_edges (build_game_graph records)) ->
  ranked (e_from e) = true /\ ranked (e_to e) = true.
Proof.
  intros He.
  pose proof (build_game_graph_justified records) as Hj.
  rewrite Forall_forall in Hj.
  destruct (Hj e He) as (a & b & Ha & Hb & Hfrom & Hto & _ & _ & Hv).
  rewrite (ranked_eqb _ _ Hfrom), (ranked_eqb _ _ Hto).
  apply (valid_transition_ranked a b (e_direction e)); auto.
Qed.

Lemma touched_ranked (n : GameNode) :
  touched (build_game_graph records) n -> ranked n = true.
Proof.
  intros (e & He & Hn). destruct (built_edge_ranked e He) as [H1 H2].
  destruct Hn as [Hn | Hn]; rewrite <- (ranked_eqb _ _ Hn); assumption.
Qed.

(** The search over the built graph returns, and what it returns are valid
    trips over ranked teams. *)
Lemma built_trips :
  exists trips,
    find_all_valid_trips (build_game_graph records) = Ok trips
    /\ forall t, In t trips -> valid_trip t /\ all_ranked t = true.
Proof.
  destruct (find_all_valid_trips_total _ (build_game_graph_wf records))
    as (trips & Htrips).
  exists trips. split; [exact Htrips | ].
  intros t Ht.
  assert (Hvalid : valid_trip t).
  { destruct (find_all_valid_trips_sound _ _ Htrips t Ht)
      as [(w & _ & Hf) | (s & _ & _ & Hf)].
    - eapply northbound_found_valid; [apply built_edge_dates | exact Hf].
    - eapply southbound_found_valid; [apply built_edge_dates | exact Hf]. }
  split; [exact Hvalid | ].
  apply forallb_forall. intros n Hn. apply touched_ranked.
  destruct Hvalid as [[H3 _] _].
  destruct (find_all_valid_trips_sound _ _ Htrips t Ht)
    as [(w & _ & Hf) | (s & _ & _ & Hf)].
  - apply (found_from_touched _ _ _ _ _ _ _ Hf);
      [intros m [] | intros Hne; now elim Hne | lia | exact Hn].
  - apply (found_from_touched _ _ _ _ _ _ _ Hf);
      [intros m [] | intros Hne; now elim Hne | lia | exact Hn].
Qed.

(** The whole run returns, and the groups it returns hold valid trips of
    the length of their group, over ranked teams. *)
Lemma plan_trips_sound :
  exists d,
    plan_trips records = Ok d
    /\ forall L g t, length_dict_get d L = Some g -> In t g ->
                     valid_trip t /\ all_ranked t = true /\ List.length t = L.
Proof.
  destruct built_trips as (trips & Htrips & Hall).
  assert (Hu : forall t, In t (unique_trips_of trips) -> In t trips).
  { intros t Ht. rewrite unique_trips_of_first_seen in Ht.
    eapply subsequence_In; [apply first_seen_subsequence | exact Ht]. }
  exists (sort_groups (group_by_length (unique_trips_of trips))). split.
  - unfold plan_trips. rewrite Htrips. cbn [bind].
    apply rank_trips_total. intros t Ht.
    rewrite calculate_travel_efficiency_spec.
    destruct (Hall t (Hu t Ht)) as [_ ->]. now rewrite orb_true_r.
  - intros L g t Hg Ht.
    pose proof (ranked_group (unique_trips_of trips) L) as Hgroup.
    unfold trips_of_length in Hgroup. rewrite Hg in Hgroup. subst g.
    apply (Permutation_in _ (sorted_by_score_perm _)) in Ht.
    apply filter_In in Ht as [Ht HL].
    destruct (Hall t (Hu t Ht)) as [Hv Hr].
    repeat split; try assumption; try apply Hv.
    unfold has_length in HL. now apply Nat.eqb_eq in HL.
Qed.
End BuiltGraph.

(** ** The trips of a run *)

Lemma well_formed_nyc (records : list GameNode) :
  well_formed_records records ->
  forall r, In r records -> is_NYC r = true -> ranked r = true.
Proof.
  intros H r Hr _. unfold well_formed_records in H. rewrite Forall_forall in H.
  destruct (H r Hr) as [Ht _]. now rewrite ranked_target.
Qed.

(** C4. On well-formed records the run returns a ranking, and every trip
    of every group has three to five games, no team twice, each game on the
    night after the game before it, and a Wizards game among them. *)
Theorem ranked_trips_are_valid (records : list GameNode) :
  well_formed_records records ->
  exists d,
    plan_trips records = Ok d
    /\ forall L g t, length_dict_get d L = Some g -> In t g ->
                     valid_trip t /\ List.length t = L.
Proof.
  intros Hwf.
  destruct (plan_trips_sound records (well_formed_nyc records Hwf)) as (d & Hd & H).
  exists d. split; [exact Hd | ].
  intros L g t Hg Ht. destruct (H L g t Hg Ht) as (Hv & _ & HL). now split.
Qed.

Lemma north_to_south_schedule_well_formed :
  well_formed_records north_to_south_schedule.
Proof. repeat constructor. Qed.

Lemma ranked_trips_are_valid_witness :
  exists d,
    plan_trips north_to_south_schedule = Ok d
    /\ forall L g t, length_dict_get d L = Some g -> In t g ->
                     valid_trip t /\ List.length t = L.
Proof.
  apply (ranked_trips_are_valid north_to_south_schedule).
  repeat constructor.
Defined.

(** ** Records outside the five teams *)

(** C9 fails as stated: a schedule with a Lakers home game raises nothing;
    the run returns the ranking of the trips among the other games. *)
Lemma out_of_domain_record_raises_nothing :
  In lakers_game lakers_schedule
  /\ str_in (team lakers_game) target_teams = false
  /\ plan_trips lakers_schedule = Ok [(3, [tl lakers_schedule])]
  /\ ~ (exists e, plan_trips lakers_schedule = Raise e).
Proof.
  assert (E : plan_trips lakers_schedule = Ok [(3, [tl lakers_schedule])])
    by (vm_compute; reflexivity).
  repeat split; try exact E; try (vm_compute; reflexivity).
  - now left.
  - intros (e & He). rewrite E in He. discriminate.
Qed.

(** C9, amended. Records whose team lies outside the five teams, with a
    city group other than NYC as the ingestion step derives it, raise
    nothing: each record is a node of the graph, no edge of the graph has a
    team outside the five at either end, the run returns a ranking, and no
    trip of the ranking holds a game of a team outside the five. *)
Theorem out_of_domain_records_are_isolated (records : list GameNode) :
  (forall r, In r records ->
             str_in (team r) target_teams = false -> is_NYC r = false) ->
  (forall r, In r records -> has_node (build_game_graph records) r = true)
  /\ (forall e, In e (g_edges (build_game_graph records)) ->
                str_in (team (e_from e)) target_teams = true
                /\ str_in (team (e_to e)) target_teams = true)
  /\ exists d,
       plan_trips records = Ok d
       /\ forall L g t n, length_dict_get d L = Some g -> In t g -> In n t ->
                          str_in (team n) target_teams = true.
Proof.
  intros H.
  assert (Hnyc : forall r, In r records -> is_NYC r = true -> ranked r = true).
  { intros r Hr Hn. rewrite ranked_target.
    destruct (str_in (team r) target_teams) eqn:E; [reflexivity | ].
    rewrite (H r Hr E) in Hn. discriminate. }
  split; [intros r Hr; now apply build_game_graph_has_records | ].
  split.
  - intros e He. rewrite <- !ranked_target.
    exact (built_edge_ranked records Hnyc e He).
  - destruct (plan_trips_sound records Hnyc) as (d & Hd & Hall).
    exists d. split; [exact Hd | ].
    intros L g t n Hg Ht Hn. destruct (Hall L g t Hg Ht) as (_ & Hr & _).
    rewrite <- ranked_target.
    unfold all_ranked in Hr. rewrite forallb_forall in Hr. now apply Hr.
Qed.

Lemma out_of_domain_records_are_isolated_witness :
  (forall r, In r lakers_schedule ->
             has_node (build_game_graph lakers_schedule) r = true)
  /\ (forall e, In e (g_edges (build_game_graph lakers_schedule)) ->
                str_in (team (e_from e)) target_teams = true
                /\ str_in (team (e_to e)) target_teams = true)
  /\ exists d,
       plan_trips lakers_schedule = Ok d
       /\ forall L g t n, length_dict_get d L = Some g -> In t g -> In n t ->
                          str_in (team n) target_teams = true.
Proof.
  apply (out_of_domain_records_are_isolated lakers_schedule).
  intros r Hr Ht.
  repeat (destruct Hr as [<- | Hr];
          [first [vm_compute; reflexivity | vm_compute in Ht; discriminate Ht] | ]).
  destruct Hr.
Defined.

(** ** No path is recorded twice by one traversal *)

Lemma trip_eqb_id (t : Trip) :
  forall u, trip_eqb t u = true <-> map node_id t = map node_id u.
Proof.
  induction t as [ | a t IH]; intros [ | b u]; cbn;
    try (split; discriminate); [tauto | ].
  rewrite andb_true_iff, node_eqb_id, IH.
  split; [intros [H1 H2]; now rewrite H1, H2 | ].
  intros H. split;
    [exact (f_equal (hd (node_id a)) H) | exact (f_equal (@tl _) H)].
Qed.

Lemma filter_none {A : Type} (f : A -> bool) (l : list A) :
  (forall x, In x l -> f x = false) -> filter f l = [].
Proof.
  induction l as [ | x l IH]; intros H; [reflexivity | ].
  cbn. rewrite (H x (or_introl eq_refl)). apply IH. intros y Hy. apply H. now right.
Qed.

Lemma occurrences_app (t : Trip) (l1 l2 : list Trip) :
  occurrences t (l1 ++ l2) = occurrences t l1 + occurrences t l2.
Proof. unfold occurrences. now rewrite filter_app, length_app. Qed.

Lemma occurrences_one (l : list Trip) (t : Trip) :
  NoDup (map (map node_id) l) -> In t l -> occurrences t l = 1.
Proof.
  unfold occurrences.
  induction l as [ | u l IH]; cbn [map filter]; intros Hnd Hin; [destruct Hin | ].
  inversion Hnd as [ | ? ? Hu Hnd']; subst.
  destruct (trip_eqb t u) eqn:E.
  - apply trip_eqb_id in E. cbn. f_equal.
    rewrite filter_none; [reflexivity | ].
    intros v Hv. destruct (trip_eqb t v) eqn:Ev; [ | reflexivity].
    apply trip_eqb_id in Ev. exfalso. apply Hu.
    rewrite <- E, Ev. now apply in_map.
  - destruct Hin as [-> | Hin]; [ | now apply IH].
    assert (trip_eqb t t = true) by now apply trip_eqb_id.
    congruence.
Qed.

Lemma NoDup_concat_tagged {A B C K : Type} (f : B -> C) (tag : C -> K)
  (key : A -> K) (l : list A) (rs : list (list B)) :
  Forall2 (fun x ys => NoDup (map f ys) /\ forall y, In y ys -> tag (f y) = key x)
    l rs ->
  NoDup (map key l) ->
  NoDup (map f (List.concat rs)).
Proof.
  induction 1 as [ | x ys l rs [Hys Htag] Hrest IH]; cbn; intros Hnd;
    [constructor | ].
  inversion Hnd as [ | ? ? Hx Hnd']; subst.
  rewrite map_app. apply NoDup_app; [exact Hys | now apply IH | ].
  intros c Hc1 Hc2.
  apply in_map_iff in Hc1 as (y1 & <- & Hy1).
  apply in_map_iff in Hc2 as (y2 & E & Hy2).
  apply in_concat in Hy2 as (ys2 & Hys2 & Hy2).
  destruct (Forall2_In_r _ _ _ _ Hrest Hys2) as (x2 & Hx2 & _ & Htag2).
  apply Hx. rewrite <- (Htag y1 Hy1), <- E, (Htag2 y2 Hy2). now apply in_map.
Qed.

Lemma NoDup_map_Some {A : Type} (l : list A) : NoDup l -> NoDup (map Some l).
Proof.
  induction 1 as [ | x l Hx _ IH]; cbn; constructor; [ | exact IH].
  intros H. apply in_map_iff in H as (y & [= ->] & Hy). contradiction.
Qed.

Lemma successors_ids_NoDup (G : DiGraph) (current : GameNode) :
  wf_graph G ->
  NoDup (map node_id
           (map e_to (filter (fun e => node_eqb (e_from e) current) (g_edges G)))).
Proof.
  intros HG. pose proof (wf_edges G HG) as Hnd.
  induction (g_edges G) as [ | e es IH]; cbn [filter map]; [constructor | ].
  inversion Hnd as [ | ? ? He Hnd']; subst.
  destruct (node_eqb (e_from e) current) eqn:E; [ | now apply IH].
  cbn [map]. constructor; [ | now apply IH].
  intros Hin. apply He.
  apply in_map_iff in Hin as (nb & Hid & Hnb).
  apply in_map_iff in Hnb as (e' & <- & He').
  apply filter_In in He' as [He' E'].
  apply in_map_iff. exists e'. split; [ | exact He'].
  unfold edge_id. rewrite Hid. f_equal.
  apply node_eqb_id. apply (node_eqb_trans _ current); [exact E' | ].
  now rewrite node_eqb_sym.
Qed.

Lemma prefix_tag (path : Trip) (n : GameNode) (ext : Trip) :
  nth_error (map node_id (path ++ n :: ext)) (List.length path) = Some (node_id n).
Proof.
  rewrite map_app, nth_error_app2 by (rewrite length_map; lia).
  now rewrite length_map, Nat.sub_diag.
Qed.

Section NoRepeat.
Variable G : DiGraph.
Variable direction : string.
Variable accept : GameNode -> list string -> Trip -> bool.
Hypothesis HG : wf_graph G.

Lemma dfs_NoDup (fuel : nat) :
  forall current visited path trips,
    dfs direction accept fuel G current visited path = Ok trips ->
    NoDup (map (map node_id) trips).
Proof.
  induction fuel as [ | fuel IH]; intros current visited path trips H;
    [discriminate | ].
  cbn [dfs] in H.
  set (current_path := path ++ [current]) in *.
  set (current_teams := set_add (team current) visited) in *.
  assert (Hfound : NoDup (map (map node_id)
                            (if accept current current_teams current_path
                             then [current_path] else []))).
  { destruct (accept _ _ _); cbn; repeat constructor. intros []. }
  destruct (List.length current_path <? 5); [ | now injection H as <-].
  apply bind_ok in H as (nbs & Hnbs & H).
  apply bind_ok in H as (deeper & Hdeeper & H). injection H as <-.
  apply successors_ok in Hnbs as [_ ->].
  apply extend_each_ok in Hdeeper as (rs & Hrs & ->).
  assert (Hblocks :
            Forall2 (fun nb ys =>
                       NoDup (map (map node_id) ys)
                       /\ forall y, In y ys ->
                                    nth_error (map node_id y) (List.length current_path)
                                    = Some (node_id nb))
              (map e_to (filter (fun e => node_eqb (e_from e) current) (g_edges G)))
              rs).
  { eapply Forall2_impl; [ | exact Hrs].
    intros nb ys Hf. cbn beta in Hf.
    apply bind_ok in Hf as (d & _ & Hf).
    destruct (String.eqb d direction);
      [ | injection Hf as <-; split; [constructor | intros y []]].
    destruct (negb _);
      [ | injection Hf as <-; split; [constructor | intros y []]].
    split; [exact (IH _ _ _ _ Hf) | ].
    intros y Hy.
    destruct (found_from_prefix _ _ _ _ _ _ _ (dfs_sound _ _ _ _ _ _ _ _ Hf y Hy))
      as (ext & ->).
    apply prefix_tag. }
  rewrite map_app. apply NoDup_app; [exact Hfound | | ].
  - apply (NoDup_concat_tagged (map node_id)
             (fun c => nth_error c (List.length current_path))
             (fun nb => Some (node_id nb)) _ _ Hblocks).
    rewrite <- map_map. apply NoDup_map_Some. now apply successors_ids_NoDup.
  - intros c Hc1 Hc2.
    assert (Hc : c = map node_id current_path).
    { destruct (accept _ _ _); [ | destruct Hc1]. now destruct Hc1 as [<- | []]. }
    apply in_map_iff in Hc2 as (y & E & Hy).
    apply in_concat in Hy as (ys & Hys & Hy).
    destruct (Forall2_In_r _ _ _ _ Hblocks Hys) as (nb & _ & _ & Htag).
    specialize (Htag y Hy). rewrite E, Hc in Htag.
    assert (Hlt : List.length current_path
                  < List.length (map node_id current_path))
      by (apply nth_error_Some; congruence).
    rewrite length_map in Hlt. lia.
Qed.
End NoRepeat.

Lemma find_southbound_trips_NoDup (G : DiGraph) (anchor : GameNode) (south : list Trip) :
  wf_graph G ->
  find_southbound_trips G anchor = Ok south ->
  NoDup (map (map node_id) south).
Proof.
  intros HG H. unfold find_southbound_trips in H.
  apply extend_each_ok in H as (rs & Hrs & ->).
  apply (NoDup_concat_tagged (map node_id) (fun c => nth_error c 0)
           (fun s => Some (node_id s)) (g_nodes G)).
  - eapply Forall2_impl; [ | exact Hrs].
    intros s ys Hf. cbn beta in Hf.
    destruct (negb _); [ | injection Hf as <-; split; [constructor | intros y []]].
    rewrite dfs_southbound_dfs in Hf.
    split; [exact (dfs_NoDup _ _ _ HG _ _ _ _ _ Hf) | ].
    intros y Hy.
    destruct (found_from_prefix _ _ _ _ _ _ _ (dfs_sound _ _ _ _ _ _ _ _ Hf y Hy))
      as (ext & ->).
    reflexivity.
  - rewrite <- map_map. apply NoDup_map_Some, (wf_nodes G HG).
Qed.

(** ** The backward search and its anchor *)

Lemma occurrences_concat (t : Trip) (k : nat) (rs : list (list Trip)) :
  Forall (fun ys => occurrences t ys = k) rs ->
  occurrences t (List.concat rs) = k * List.length rs.
Proof.
  induction 1 as [ | ys rs Hys _ IH]; cbn [List.concat List.length];
    [cbn; lia | ].
  rewrite occurrences_app, Hys, IH. lia.
Qed.

Lemma northbound_trips_start_at_anchor (G : DiGraph) (w : GameNode) (north : list Trip) :
  find_northbound_trips G w = Ok north ->
  forall u, In u north -> exists ext, u = w :: ext.
Proof.
  unfold find_northbound_trips. rewrite dfs_northbound_dfs. intros H u Hu.
  exact (found_from_prefix _ _ _ _ _ _ _ (dfs_sound _ _ _ _ _ _ _ _ H u Hu)).
Qed.

Lemma southbound_trips_start_elsewhere (G : DiGraph) (anchor : GameNode)
  (south : list Trip) :
  find_southbound_trips G anchor = Ok south ->
  forall t, In t south -> exists s ext, t = s :: ext /\ team s <> "Wizards".
Proof.
  intros H t Ht.
  destruct (find_southbound_trips_sound G anchor south H t Ht)
    as (s & _ & Hs & Hf).
  destruct (found_from_prefix _ _ _ _ _ _ _ Hf) as (ext & ->).
  now exists s, ext.
Qed.

(** C10. The backward search never reads the anchor it is called for, so
    two anchors give the same result; and over a graph with [k] Wizards
    games, where the search for all trips returns, every trip of the
    backward search stands exactly [k] times in the list of all trips. *)
Theorem southbound_search_ignores_its_anchor :
  (forall G a1 a2, find_southbound_trips G a1 = find_southbound_trips G a2)
  /\ (forall G, wf_graph G ->
        exists all south,
          find_all_valid_trips G = Ok all
          /\ (forall anchor, find_southbound_trips G anchor = Ok south)
          /\ forall t, In t south ->
                       occurrences t all = List.length (wizards_games G)).
Proof.
  split; [reflexivity | ].
  intros G HG.
  destruct (find_all_valid_trips_total G HG) as (all & Hall).
  destruct (find_southbound_trips_total G HG) as (south & Hsouth).
  exists all, south. repeat split; try assumption.
  intros t Ht.
  unfold find_all_valid_trips in Hall. fold (wizards_games G) in Hall.
  apply extend_each_ok in Hall as (rs & Hrs & ->).
  rewrite (occurrences_concat t 1), (Forall2_length Hrs); [lia | ].
  apply Forall_forall. intros ys Hys.
  destruct (Forall2_In_r _ _ _ _ Hrs Hys) as (w & Hw & Hf).
  apply bind_ok in Hf as (north & Hnorth & Hf).
  apply bind_ok in Hf as (south' & Hsouth' & Hf). injection Hf as <-.
  rewrite (Hsouth w) in Hsouth'. injection Hsouth' as <-.
  rewrite occurrences_app.
  rewrite (occurrences_one south t);
    [ | exact (find_southbound_trips_NoDup G w south HG (Hsouth w)) | exact Ht].
  unfold occurrences at 1. rewrite filter_none; [reflexivity | ].
  intros u Hu.
  destruct (northbound_trips_start_at_anchor G w north Hnorth u Hu) as (ext & ->).
  destruct (southbound_trips_start_elsewhere G w south (Hsouth w) t Ht)
    as (s & ext' & -> & Hs).
  cbn [trip_eqb]. destruct (node_eqb s w) eqn:E; [ | reflexivity].
  exfalso. apply Hs. rewrite (node_eqb_team _ _ E).
  apply filter_In in Hw as [_ Hw]. now apply String.eqb_eq in Hw.
Qed.

Lemma southbound_search_ignores_its_anchor_witness :
  exists all south,
    find_all_valid_trips (build_game_graph two_anchor_schedule) = Ok all
    /\ (forall anchor,
          find_southbound_trips (build_game_graph two_anchor_schedule) anchor
          = Ok south)
    /\ forall t, In t south ->
                 occurrences t all
                 = List.length (wizards_games (build_game_graph two_anchor_schedule)).
Proof.
  apply (proj2 southbound_search_ignores_its_anchor).
  apply build_game_graph_wf.
Defined.

(** The backward search of the schedule with two Wizards games finds one
    trip, and the list of all trips holds it twice. *)
Example two_anchor_schedule_search :
  wizards_games (build_game_graph two_anchor_schedule)
  = skipn 2 two_anchor_schedule
  /\ find_all_valid_trips (build_game_graph two_anchor_schedule)
     = Ok [firstn 3 two_anchor_schedule; firstn 3 two_anchor_schedule].
Proof. split; vm_compute; reflexivity. Qed.

(** ** The label of an edge between two co-located games *)

Lemma set_direction_label (u v : GameNode) (d : string) (es : list Edge) (e' : Edge) :
  NoDup (map edge_id es) ->
  In e' (set_direction u v d es) -> edge_matches u v e' = true ->
  e_direction e' = d.
Proof.
  induction es as [ | e es IH]; cbn [set_direction map]; intros Hnd Hin Hm.
  - now destruct Hin as [<- | []].
  - inversion Hnd as [ | ? ? He Hnd']; subst.
    destruct (edge_matches u v e) eqn:E.
    + destruct Hin as [<- | Hin]; [reflexivity | ].
      exfalso. apply He. apply edge_matches_id in E, Hm.
      rewrite E, <- Hm. now apply in_map.
    + destruct Hin as [<- | Hin]; [congruence | now apply IH].
Qed.

Lemma set_direction_has (u v : GameNode) (d : string) (es : list Edge) :
  exists e, In e (set_direction u v d es) /\ edge_matches u v e = true.
Proof.
  induction es as [ | e es IH]; cbn [set_direction].
  - exists (mkEdge u v d). split; [now left | ].
    unfold edge_matches. cbn. now rewrite !node_eqb_refl.
  - destruct (edge_matches u v e) eqn:E.
    + exists (mkEdge (e_from e) (e_to e) d). split; [now left | exact E].
    + destruct IH as (e' & Hin & Hm). exists e'. split; [now right | exact Hm].
Qed.

Lemma set_direction_keeps (a b u v : GameNode) (d : string) (es : list Edge) :
  (exists e, In e es /\ edge_matches a b e = true) ->
  exists e, In e (set_direction u v d es) /\ edge_matches a b e = true.
Proof.
  induction es as [ | e es IH]; intros (e0 & Hin & Hm); [destruct Hin | ].
  cbn [set_direction]. destruct (edge_matches u v e) eqn:E.
  - destruct Hin as [<- | Hin].
    + exists (mkEdge (e_from e) (e_to e) d). split; [now left | exact Hm].
    + exists e0. split; [now right | exact Hm].
  - destruct Hin as [<- | Hin].
    + exists e. split; [now left | exact Hm].
    + destruct IH as (e' & Hin' & Hm'); [now exists e0 | ].
      exists e'. split; [now right | exact Hm'].
Qed.

Lemma inner_loop_invariant (P : DiGraph -> Prop) (a : GameNode) (l : list GameNode) :
  (forall b G, In b l -> P G -> P (add_edges_step a G b)) ->
  forall G, P G -> P (fold_left (add_edges_step a) l G).
Proof.
  induction l as [ | b l IH]; intros Hstep G HG; [exact HG | ].
  cbn. apply IH.
  - intros c G' Hc. apply Hstep. now right.
  - apply Hstep; [now left | exact HG].
Qed.

Lemma outer_loop_invariant (P : DiGraph -> Prop) (nodes l : list GameNode) :
  (forall a b G, In a l -> In b nodes -> P G -> P (add_edges_step a G b)) ->
  forall G, P G ->
            P (fold_left (fun g a => fold_left (add_edges_step a) nodes g) l G).
Proof.
  induction l as [ | a l IH]; intros Hstep G HG; [exact HG | ].
  cbn. apply IH.
  - intros c b G' Hc. apply Hstep. now right.
  - apply inner_loop_invariant; [ | exact HG].
    intros b G' Hb. apply Hstep; [now left | exact Hb].
Qed.

Section ColocatedEdge.
Variable records : list GameNode.
Variables a b : GameNode.
Hypothesis Hwf : well_formed_records records.
Hypothesis Ha : In a records.
Hypothesis Hb : In b records.
Hypothesis Hco : co_located a b = true.
Hypothesis Hnight : is_consecutive_night (date a) (date b) = true.

Lemma well_formed_is_NYC (r r' : GameNode) :
  In r records -> In r' records -> team r = team r' -> is_NYC r = is_NYC r'.
Proof.
  intros Hr Hr' Ht. unfold well_formed_records in Hwf. rewrite Forall_forall in Hwf.
  destruct (Hwf r Hr) as [_ E], (Hwf r' Hr') as [_ E'].
  unfold is_NYC. now rewrite E, E', Ht.
Qed.

Lemma same_pair_valid_southbound (a' b' : GameNode) :
  In a' records -> In b' records ->
  node_eqb a' a = true -> node_eqb b' b = true ->
  is_valid_geographic_transition a' b' "southbound" = true.
Proof.
  intros Ha' Hb' Ea Eb. rewrite valid_southbound.
  apply orb_true_iff. left. unfold co_located in *.
  rewrite (well_formed_is_NYC a' a Ha' Ha (node_eqb_team _ _ Ea)).
  rewrite (well_formed_is_NYC b' b Hb' Hb (node_eqb_team _ _ Eb)).
  now rewrite (node_eqb_team _ _ Ea), (node_eqb_team _ _ Eb).
Qed.

Lemma add_edge_other_pair (G : DiGraph) (a' b' : GameNode) (d : string) :
  node_eqb a' a && node_eqb b' b = false ->
  southbound_only a b G -> southbound_only a b (add_edge G a' b' d).
Proof.
  intros Hne HG e Hin Hm. cbn [add_edge g_edges] in Hin.
  rewrite !add_node_edges in Hin.
  apply set_direction_In in Hin as [Hin | [Hm' _]]; [now apply HG | ].
  exfalso. unfold edge_matches in Hm, Hm'.
  apply andb_true_iff in Hm as [H1 H2]. apply andb_true_iff in Hm' as [H3 H4].
  rewrite node_eqb_sym in H3, H4.
  rewrite (node_eqb_trans _ _ _ H3 H1), (node_eqb_trans _ _ _ H4 H2) in Hne.
  discriminate.
Qed.

Lemma add_edge_same_pair (G : DiGraph) (a' b' : GameNode) :
  wf_graph G ->
  node_eqb a' a && node_eqb b' b = true ->
  southbound_only a b (add_edge G a' b' "southbound").
Proof.
  intros HG Heq e Hin Hm. cbn [add_edge g_edges] in Hin.
  rewrite !add_node_edges in Hin.
  apply (set_direction_label a' b' _ (g_edges G) e); [apply (wf_edges G HG) | exact Hin | ].
  apply andb_true_iff in Heq as [H1 H2].
  unfold edge_matches in *. apply andb_true_iff in Hm as [H3 H4].
  rewrite node_eqb_sym in H1, H2.
  now rewrite (node_eqb_trans _ _ _ H3 H1), (node_eqb_trans _ _ _ H4 H2).
Qed.

Lemma add_edges_step_southbound_only (a' b' : GameNode) (G : DiGraph) :
  In a' records -> In b' records ->
  wf_graph G /\ southbound_only a b G ->
  wf_graph (add_edges_step a' G b') /\ southbound_only a b (add_edges_step a' G b').
Proof.
  intros Ha' Hb' [HG HP]. split; [now apply add_edges_step_wf | ].
  unfold add_edges_step.
  destruct (node_eqb a' b'); [exact HP | ].
  destruct (negb _); [exact HP | ].
  destruct (String.eqb _ _); [exact HP | ].
  destruct (node_eqb a' a && node_eqb b' b) eqn:Heq.
  - apply andb_true_iff in Heq as [H1 H2].
    rewrite (same_pair_valid_southbound a' b' Ha' Hb' H1 H2).
    destruct (is_valid_geographic_transition a' b' "northbound");
      apply add_edge_same_pair; try (now rewrite H1, H2);
      auto using add_edge_wf.
  - destruct (is_valid_geographic_transition a' b' "northbound"),
      (is_valid_geographic_transition a' b' "southbound");
      auto using add_edge_other_pair.
Qed.

Lemma add_edges_step_has_edge (a' b' : GameNode) (G : DiGraph) :
  has_edge a b G -> has_edge a b (add_edges_step a' G b').
Proof.
  intros H. unfold add_edges_step.
  destruct (node_eqb a' b'); [exact H | ].
  destruct (negb _); [exact H | ].
  destruct (String.eqb _ _); [exact H | ].
  assert (Hadd : forall G' d, has_edge a b G' -> has_edge a b (add_edge G' a' b' d)).
  { intros G' d HG'. unfold has_edge. cbn [add_edge g_edges].
    rewrite !add_node_edges. now apply set_direction_keeps. }
  destruct (is_valid_geographic_transition a' b' "northbound"),
    (is_valid_geographic_transition a' b' "southbound"); auto.
Qed.

Lemma own_step_has_edge (G : DiGraph) : has_edge a b (add_edges_step a G b).
Proof.
  assert (Hteams : String.eqb (team a) (team b) = false).
  { unfold co_located in Hco. apply andb_true_iff in Hco as [_ H].
    now apply negb_true_iff in H. }
  assert (Hneq : node_eqb a b = false).
  { destruct (node_eqb a b) eqn:E; [ | reflexivity].
    apply node_eqb_team in E. apply String.eqb_neq in Hteams. contradiction. }
  unfold add_edges_step. rewrite Hneq, Hnight, Hteams. cbn [negb].
  rewrite (same_pair_valid_southbound a b Ha Hb (node_eqb_refl a) (node_eqb_refl b)).
  unfold has_edge. cbn [add_edge g_edges]. rewrite !add_node_edges.
  apply set_direction_has.
Qed.

(** On well-formed records, the edge from a game to a co-located game of
    another team on the following night carries [southbound], whatever
    else the schedule holds: the northbound label written first is lost. *)
Lemma colocated_edge_is_southbound :
  edge_direction (build_game_graph records) a b = Ok "southbound".
Proof.
  assert (Hinv : wf_graph (build_game_graph records)
                 /\ southbound_only a b (build_game_graph records)).
  { unfold build_game_graph.
    apply (add_edges_to_graph_invariant
             (fun G => wf_graph G /\ southbound_only a b G)).
    - intros a' b' G Ha' Hb'. now apply add_edges_step_southbound_only.
    - split.
      + apply add_nodes_invariant; [intros; now apply add_node_wf | ].
        apply empty_graph_wf.
      + intros e He.
        assert (Hnone : g_edges (fold_left add_node records empty_graph) = []).
        { apply (add_nodes_invariant (fun G => g_edges G = [])).
          - intros n G _ HG. now rewrite add_node_edges.
          - reflexivity. }
        rewrite Hnone in He. destruct He. }
  assert (Hhas : has_edge a b (build_game_graph records)).
  { assert (Hloops : forall outer inner G0,
               In a outer -> In b inner ->
               has_edge a b (fold_left
                           (fun g a' => fold_left (add_edges_step a') inner g)
                           outer G0)).
    { intros outer inner G0 Hout Hin.
      destruct (in_split a outer Hout) as (l1 & l2 & ->).
      destruct (in_split b inner Hin) as (m1 & m2 & ->).
      rewrite fold_left_app. cbn [fold_left].
      apply (outer_loop_invariant (has_edge a b));
        [intros; now apply add_edges_step_has_edge | ].
      rewrite fold_left_app. cbn [fold_left].
      apply (inner_loop_invariant (has_edge a b));
        [intros; now apply add_edges_step_has_edge | ].
      apply own_step_has_edge. }
    unfold build_game_graph, add_edges_to_graph. now apply Hloops. }
  destruct Hinv as [_ Honly]. destruct Hhas as (e & He & Hm).
  unfold edge_direction.
  destruct (find (edge_matches a b) (g_edges (build_game_graph records)))
    as [e' | ] eqn:E.
  - apply find_some in E as [He' Hm']. now rewrite (Honly e' He' Hm').
  - rewrite (find_none _ _ E e He) in Hm. discriminate.
Qed.
End ColocatedEdge.

(** * Further properties of the code *)

(** ** The search on any schedule *)

(** X1. Whatever the records are, the search over the graph built from them
    raises nothing, and every trip it returns has three to five games, no
    team twice, each game on the night after the game before it, and a
    Wizards game among them. *)
Theorem search_returns_valid_trips (records : list GameNode) :
  exists trips,
    find_all_valid_trips (build_game_graph records) = Ok trips
    /\ forall t, In t trips -> valid_trip t.
Proof.
  destruct (find_all_valid_trips_total _ (build_game_graph_wf records))
    as (trips & Htrips).
  exists trips. split; [exact Htrips | ].
  intros t Ht.
  destruct (find_all_valid_trips_sound _ _ Htrips t Ht)
    as [(w & _ & Hf) | (s & _ & _ & Hf)].
  - eapply northbound_found_valid; [apply built_edge_dates | exact Hf].
  - eapply southbound_found_valid; [apply built_edge_dates | exact Hf].
Qed.

Lemma distinct_teams_head (n : GameNode) (l : Trip) :
  NoDup (map team (n :: l)) -> forall m, In m l -> team m <> team n.
Proof.
  cbn. intros H m Hm E. inversion H as [ | ? ? Hn _]; subst.
  apply Hn. rewrite <- E. now apply in_map.
Qed.

Lemma distinct_teams_last (p : Trip) (n : GameNode) :
  NoDup (map team (p ++ [n])) -> forall m, In m p -> team m <> team n.
Proof.
  rewrite map_app. cbn. intros H m Hm E.
  apply NoDup_remove_2 in H. apply H. rewrite app_nil_r, <- E. now apply in_map.
Qed.

(** X2. A trip of the search holds exactly one Wizards game: the anchor the
    forward search started from, as its first game, or the game the
    backward search ended at, as its last game. *)
Theorem anchor_is_first_or_last (G : DiGraph) (trips : list Trip) :
  find_all_valid_trips G = Ok trips ->
  forall t, In t trips ->
    (exists w rest, t = w :: rest /\ In w (wizards_games G)
                    /\ forall n, In n rest -> team n <> "Wizards")
    \/ (exists before last, t = before ++ [last] /\ team last = "Wizards"
                            /\ forall n, In n before -> team n <> "Wizards").
Proof.
  intros Htrips t Ht.
  destruct (find_all_valid_trips_sound _ _ Htrips t Ht)
    as [(w & Hw & Hf) | (s & _ & _ & Hf)].
  - left. destruct (found_from_prefix _ _ _ _ _ _ _ Hf) as (rest & ->).
    exists w, rest. repeat split; [exact Hw | ].
    assert (Hteam : team w = "Wizards").
    { apply filter_In in Hw as [_ Hw]. now apply String.eqb_eq in Hw. }
    rewrite <- Hteam. apply distinct_teams_head.
    apply (found_from_distinct _ _ _ _ _ _ _ Hf tracks_nil); [constructor | reflexivity].
  - right.
    destruct (found_from_accepted _ _ _ _ _ _ _ Hf tracks_nil)
      as (last & teams & p & -> & _ & Ha).
    unfold accept_southbound in Ha. apply andb_true_iff in Ha as [Hw _].
    apply String.eqb_eq in Hw.
    exists p, last. repeat split; [exact Hw | ].
    rewrite <- Hw. apply distinct_teams_last.
    apply (found_from_distinct _ _ _ _ _ _ _ Hf tracks_nil); [constructor | reflexivity].
Qed.

Lemma anchor_is_first_or_last_witness :
  (exists w rest, firstn 3 two_anchor_schedule = w :: rest
                  /\ In w (wizards_games (build_game_graph two_anchor_schedule))
                  /\ forall n, In n rest -> team n <> "Wizards")
  \/ (exists before last, firstn 3 two_anchor_schedule = before ++ [last]
                          /\ team last = "Wizards"
                          /\ forall n, In n before -> team n <> "Wizards").
Proof.
  apply (anchor_is_first_or_last (build_game_graph two_anchor_schedule)
           [firstn 3 two_anchor_schedule; firstn 3 two_anchor_schedule]).
  - vm_compute; reflexivity.
  - now left.
Defined.

(** ** The edges of the built graph *)

Lemma valid_transition_direction (a b : GameNode) (d : string) :
  is_valid_geographic_transition a b d = true ->
  d = "northbound" \/ d = "southbound".
Proof.
  unfold is_valid_geographic_transition.
  destruct (String.eqb_spec d "northbound") as [-> | _]; [now left | ].
  destruct (String.eqb_spec d "southbound") as [-> | _]; [now right | discriminate].
Qed.

(** X3. Every edge of the built graph leads from a game to a game of
    another team on the following night, is labelled northbound or
    southbound, and stands for two records between which the transition
    rule allows that direction; so the graph has no self-loop. *)
Theorem built_edges_are_sound (records : list GameNode) (e : Edge) :
  In e (g_edges (build_game_graph records)) ->
  (date (e_to e) - date (e_from e) = 1)%Z
  /\ team (e_from e) <> team (e_to e)
  /\ node_eqb (e_from e) (e_to e) = false
  /\ (e_direction e = "northbound" \/ e_direction e = "southbound")
  /\ exists a b,
       In a records /\ In b records
       /\ node_eqb (e_from e) a = true /\ node_eqb (e_to e) b = true
       /\ is_valid_geographic_transition a b (e_direction e) = true.
Proof.
  intros He.
  pose proof (build_game_graph_justified records) as Hj.
  rewrite Forall_forall in Hj.
  destruct (Hj e He) as (a & b & Ha & Hb & Hfrom & Hto & Hc & Ht & Hv).
  assert (Hteams : team (e_from e) <> team (e_to e)).
  { rewrite (node_eqb_team _ _ Hfrom), (node_eqb_team _ _ Hto).
    now apply String.eqb_neq. }
  repeat split.
  - exact (built_edge_dates records e He).
  - exact Hteams.
  - destruct (node_eqb (e_from e) (e_to e)) eqn:E; [ | reflexivity].
    now apply node_eqb_team in E.
  - now apply (valid_transition_direction a b).
  - exists a, b. repeat split; assumption.
Qed.

Lemma built_edges_are_sound_witness :
  (date (e_to (mkEdge knicks_game nets_game "southbound"))
   - date (e_from (mkEdge knicks_game nets_game "southbound")) = 1)%Z
  /\ team (e_from (mkEdge knicks_game nets_game "southbound"))
     <> team (e_to (mkEdge knicks_game nets_game "southbound"))
  /\ node_eqb (e_from (mkEdge knicks_game nets_game "southbound"))
       (e_to (mkEdge knicks_game nets_game "southbound")) = false
  /\ (e_direction (mkEdge knicks_game nets_game "southbound") = "northbound"
      \/ e_direction (mkEdge knicks_game nets_game "southbound") = "southbound")
  /\ exists a b,
       In a nyc_back_to_back /\ In b nyc_back_to_back
       /\ node_eqb (e_from (mkEdge knicks_game nets_game "southbound")) a = true
       /\ node_eqb (e_to (mkEdge knicks_game nets_game "southbound")) b = true
       /\ is_valid_geographic_transition a b
            (e_direction (mkEdge knicks_game nets_game "southbound")) = true.
Proof.
  apply (built_edges_are_sound nyc_back_to_back).
  vm_compute. now left.
Defined.

(** ** The shape of a ranking *)

Lemma length_dict_append_keys (d : LengthDict) (k : nat) (t : Trip) (x : nat) :
  In x (map fst (length_dict_append d k t)) -> In x (map fst d) \/ x = k.
Proof.
  induction d as [ | [k' v] d IH]; cbn [length_dict_append map fst].
  - intros [<- | []]. now right.
  - destruct (k' =? k); cbn [map fst].
    + intros H. now left.
    + intros [<- | H]; [left; now left | ].
      destruct (IH H) as [H' | ->]; [left; now right | now right].
Qed.

Lemma length_dict_append_well_grouped (d : LengthDict) (t : Trip) :
  well_grouped d -> well_grouped (length_dict_append d (List.length t) t).
Proof.
  induction d as [ | [k' v] d IH]; intros [Hnd Hall];
    cbn [length_dict_append].
  - split; [repeat constructor; intros [] | ].
    intros L g [[= <- <-] | []]. split; [discriminate | ].
    now intros u [<- | []].
  - cbn [map fst] in Hnd. inversion Hnd as [ | ? ? Hk Hnd']; subst.
    assert (Hd : well_grouped d).
    { split; [exact Hnd' | ]. intros L g H. apply Hall. now right. }
    destruct (Nat.eqb_spec k' (List.length t)) as [-> | Hne].
    + split; [exact Hnd | ].
      intros L g [[= <- <-] | H]; [ | apply Hall; now right].
      destruct (Hall _ v (or_introl eq_refl)) as [_ Hv].
      split; [now destruct v | ].
      intros u Hu. apply in_app_or in Hu as [Hu | [<- | []]]; auto.
    + destruct (IH Hd) as [Hnd'' Hall'']. split.
      * cbn [map fst]. constructor; [ | exact Hnd''].
        intros H. apply length_dict_append_keys in H as [H | H]; congruence.
      * intros L g [[= <- <-] | H]; [apply Hall; now left | now apply Hall''].
Qed.

Lemma group_by_length_well_grouped (u : list Trip) :
  well_grouped (group_by_length u).
Proof.
  unfold group_by_length.
  assert (H : forall d, well_grouped d ->
                        well_grouped
                          (fold_left
                             (fun d trip =>
                                length_dict_append d (List.length trip) trip) u d)).
  { induction u as [ | t u IH]; intros d Hd; [exact Hd | ].
    cbn. apply IH. now apply length_dict_append_well_grouped. }
  apply H. split; [constructor | intros L g []].
Qed.

Lemma sort_groups_keys (d : LengthDict) : map fst (sort_groups d) = map fst d.
Proof. unfold sort_groups. rewrite map_map. reflexivity. Qed.

Lemma sort_groups_well_grouped (d : LengthDict) :
  well_grouped d -> well_grouped (sort_groups d).
Proof.
  intros [Hnd Hall]. split; [now rewrite sort_groups_keys | ].
  intros L g H. unfold sort_groups in H.
  apply in_map_iff in H as ([k v] & [= <- <-] & H). cbn [fst snd].
  destruct (Hall k v H) as [Hne Hlen]. split.
  - intros E. apply Hne.
    apply Permutation_nil. rewrite <- E. apply sorted_by_score_perm.
  - intros t Ht. apply Hlen.
    now apply (Permutation_in _ (sorted_by_score_perm v)).
Qed.

Lemma subsequence_length {A : Type} (l1 l2 : list A) :
  subsequence l1 l2 -> List.length l1 <= List.length l2.
Proof. induction 1; cbn; lia. Qed.

(** X4. In a ranking the ranker returns, every length is a key once, no
    group is empty, every trip stands under the key of its own length, and
    the groups together hold the deduplicated input, each trip once: the
    ranking has as many trips as the input has different (team, date)
    sequences, at most as many as the input. *)
Theorem ranking_is_well_grouped (trips : list Trip) (d : LengthDict) :
  rank_trips trips = Ok d ->
  well_grouped d
  /\ Permutation (ranked_output d) (unique_trips_of trips)
  /\ List.length (ranked_output d) <= List.length trips.
Proof.
  intros H. apply rank_trips_ok in H as [-> _].
  assert (Hp : Permutation
                 (ranked_output (sort_groups (group_by_length (unique_trips_of trips))))
                 (unique_trips_of trips))
    by (rewrite sort_groups_output; apply group_by_length_output).
  split; [ | split].
  - apply sort_groups_well_grouped, group_by_length_well_grouped.
  - exact Hp.
  - rewrite (Permutation_length Hp), unique_trips_of_first_seen.
    apply subsequence_length, first_seen_subsequence.
Qed.

Lemma ranking_is_well_grouped_witness :
  well_grouped sample_ranking
  /\ Permutation (ranked_output sample_ranking) (unique_trips_of sample_trips)
  /\ List.length (ranked_output sample_ranking) <= List.length sample_trips.
Proof.
  apply (ranking_is_well_grouped sample_trips sample_ranking).
  vm_compute; reflexivity.
Defined.

(** ** When the ranker raises *)

Lemma map_each_raises {A B : Type} (f : A -> result B) (e : exn) (l : list A) :
  (forall x, In x l -> (exists y, f x = Ok y) \/ f x = Raise e) ->
  (exists x, In x l /\ f x = Raise e) ->
  map_each f l = Raise e.
Proof.
  induction l as [ | x l IH]; intros Hall (x0 & Hin & Hx0); [destruct Hin | ].
  cbn [map_each].
  destruct (Hall x (or_introl eq_refl)) as [(y & Hy) | Hx];
    [ | now rewrite Hx].
  rewrite Hy. cbn [bind]. rewrite IH; [reflexivity | | ].
  - intros z Hz. apply Hall. now right.
  - destruct Hin as [-> | Hin]; [congruence | now exists x0].
Qed.

Lemma map_each_ok_or_raises {A B : Type} (f : A -> result B) (e : exn) (l : list A) :
  (forall x, In x l -> (exists y, f x = Ok y) \/ f x = Raise e) ->
  (exists ys, map_each f l = Ok ys) \/ map_each f l = Raise e.
Proof.
  induction l as [ | x l IH]; intros Hall; cbn [map_each]; [left; eauto | ].
  destruct (Hall x (or_introl eq_refl)) as [(y & ->) | ->]; [ | now right].
  cbn [bind]. destruct IH as [(ys & ->) | ->]; [ | left; cbn; eauto | now right].
  intros z Hz. apply Hall. now right.
Qed.

Lemma efficiency_ok_or_key_error (t : Trip) :
  (exists s, calculate_travel_efficiency t = Ok s)
  \/ calculate_travel_efficiency t = Raise KeyError.
Proof.
  rewrite calculate_travel_efficiency_spec.
  destruct (_ || _); [left; eauto | now right].
Qed.

Lemma efficiency_of_unrankable (t : Trip) :
  calculate_travel_efficiency t
  = if unrankable t then Raise KeyError else Ok (score_spec t).
Proof.
  rewrite calculate_travel_efficiency_spec. unfold unrankable.
  destruct (Nat.leb_spec (List.length t) 1), (Nat.leb_spec 2 (List.length t));
    try lia; cbn; [reflexivity | ].
  now destruct (all_ranked t).
Qed.

Lemma unrankable_same_key (t u : Trip) :
  trip_key t = trip_key u -> unrankable t = unrankable u.
Proof.
  intros H. unfold unrankable.
  assert (Hl : List.length t = List.length u)
    by (rewrite <- !trip_key_length; now rewrite H).
  now rewrite Hl, (same_teams_ranked _ _ (trip_key_teams _ _ H)).
Qed.

(** X5. The ranker raises exactly when some input trip of two or more
    games holds a team the rank map does not know, and then it raises
    [KeyError]; otherwise it returns the groups of the deduplicated input,
    each sorted by score. *)
Theorem ranker_raises_exactly_on_unranked_teams (trips : list Trip) :
  rank_trips trips
  = if existsb unrankable trips
    then Raise KeyError
    else Ok (sort_groups (group_by_length (unique_trips_of trips))).
Proof.
  destruct (existsb unrankable trips) eqn:E.
  - apply existsb_exists in E as (t & Ht & Hbad).
    assert (Hk : In (trip_key t) (map trip_key (unique_trips_of trips))).
    { rewrite unique_trips_of_first_seen.
      apply first_seen_complete; [exact Ht | intros []]. }
    apply in_map_iff in Hk as (u & Hku & Hu).
    rewrite <- (unrankable_same_key _ _ Hku) in Hbad.
    apply (Permutation_in _ (Permutation_sym (group_by_length_output _))) in Hu.
    unfold ranked_output in Hu. apply in_concat in Hu as (g & Hg & Hu).
    apply in_map_iff in Hg as (entry & <- & Hentry).
    rewrite rank_trips_unfold.
    assert (Hsort : forall l,
               (exists r, sort_by_efficiency l = Ok r)
               \/ sort_by_efficiency l = Raise KeyError).
    { intros l. unfold sort_by_efficiency.
      destruct (map_each_ok_or_raises calculate_travel_efficiency KeyError l)
        as [(ks & ->) | ->]; [ | left; cbn; eauto | now right].
      intros x _. apply efficiency_ok_or_key_error. }
    apply map_each_raises.
    + intros x _. destruct (Hsort (snd x)) as [(r & ->) | ->];
        [left; cbn; eauto | now right].
    + exists entry. split; [exact Hentry | ].
      unfold sort_by_efficiency. rewrite (map_each_raises _ KeyError); [reflexivity | | ].
      * intros x _. apply efficiency_ok_or_key_error.
      * exists u. split; [exact Hu | ].
        now rewrite efficiency_of_unrankable, Hbad.
  - apply rank_trips_total. intros t Ht.
    rewrite efficiency_of_unrankable.
    assert (Hin : In t trips).
    { rewrite unique_trips_of_first_seen in Ht.
      eapply subsequence_In; [apply first_seen_subsequence | exact Ht]. }
    destruct (unrankable t) eqn:Hbad; [ | reflexivity].
    assert (existsb unrankable trips = true)
      by (apply existsb_exists; now exists t).
    congruence.
Qed.

(** ** Bounds of the score *)




(** ** Ranking a ranking *)

Lemma first_seen_fresh (l : list Trip) :
  forall seen,
    NoDup (map trip_key l) ->
    (forall t, In t l -> ~ In (trip_key t) seen) ->
    first_seen seen l = l.
Proof.
  induction l as [ | t l IH]; intros seen Hnd Hfresh; [reflexivity | ].
  cbn [first_seen]. cbn [map] in Hnd. inversion Hnd as [ | ? ? Ht Hnd']; subst.
  assert (E : key_in (trip_key t) seen = false)
    by (apply key_in_false, Hfresh; now left).
  rewrite E. f_equal. apply IH; [exact Hnd' | ].
  intros u Hu [Heq | Hin].
  - apply Ht. rewrite Heq. now apply in_map.
  - apply (Hfresh u); [now right | exact Hin].
Qed.

Lemma stable_sort_of_sorted {A : Type} (l : list (nat * A)) :
  Sorted key_le l -> stable_sort l = l.
Proof.
  induction 1 as [ | x l Hs IH Hhd]; [reflexivity | ].
  cbn [stable_sort fold_right]. fold (stable_sort l). rewrite IH.
  destruct Hhd as [ | y l Hxy]; [reflexivity | ].
  cbn [insert_by_key]. unfold key_le in Hxy.
  now apply Nat.leb_le in Hxy as ->.
Qed.

Lemma sorted_by_score_idempotent (l : list Trip) :
  sorted_by_score (sorted_by_score l) = sorted_by_score l.
Proof.
  unfold sorted_by_score at 1.
  rewrite <- decorated_sorted, stable_sort_of_sorted by apply stable_sort_sorted.
  reflexivity.
Qed.

Lemma sort_groups_idempotent (d : LengthDict) :
  sort_groups (sort_groups d) = sort_groups d.
Proof.
  unfold sort_groups. rewrite map_map. apply map_ext.
  intros [k v]. cbn [fst snd]. now rewrite sorted_by_score_idempotent.
Qed.

Lemma length_dict_append_new (acc : LengthDict) (k : nat) (t : Trip) :
  ~ In k (map fst acc) -> length_dict_append acc k t = acc ++ [(k, [t])].
Proof.
  induction acc as [ | [k' v] acc IH]; intros Hk; [reflexivity | ].
  cbn [length_dict_append]. cbn [map fst] in Hk.
  destruct (Nat.eqb_spec k' k) as [-> | _]; [exfalso; apply Hk; now left | ].
  cbn. f_equal. apply IH. intros H. apply Hk. now right.
Qed.

Lemma length_dict_append_last (acc : LengthDict) (k : nat) (v : list Trip)
  (rest : LengthDict) (t : Trip) :
  ~ In k (map fst acc) ->
  length_dict_append (acc ++ (k, v) :: rest) k t = acc ++ (k, v ++ [t]) :: rest.
Proof.
  induction acc as [ | [k' v'] acc IH]; intros Hk; cbn [app length_dict_append].
  - now rewrite Nat.eqb_refl.
  - cbn [map fst] in Hk.
    destruct (Nat.eqb_spec k' k) as [-> | _]; [exfalso; apply Hk; now left | ].
    f_equal. apply IH. intros H. apply Hk. now right.
Qed.

Lemma group_loop_one_group (g : list Trip) :
  forall (acc : LengthDict) (k : nat) (v : list Trip),
    ~ In k (map fst acc) ->
    (forall t, In t g -> List.length t = k) ->
    fold_left (fun d trip => length_dict_append d (List.length trip) trip) g
      (acc ++ [(k, v)])
    = acc ++ [(k, v ++ g)].
Proof.
  induction g as [ | t g IH]; intros acc k v Hk Hlen; cbn [fold_left].
  - now rewrite app_nil_r.
  - rewrite (Hlen t (or_introl eq_refl)), length_dict_append_last by exact Hk.
    rewrite IH; [now rewrite <- app_assoc | exact Hk | ].
    intros u Hu. apply Hlen. now right.
Qed.

Lemma group_loop_rebuilds (d : LengthDict) :
  forall acc : LengthDict,
    well_grouped d ->
    (forall k, In k (map fst d) -> ~ In k (map fst acc)) ->
    fold_left (fun d trip => length_dict_append d (List.length trip) trip)
      (ranked_output d) acc
    = acc ++ d.
Proof.
  induction d as [ | [k g] d IH]; intros acc [Hnd Hall] Hfresh.
  - cbn. now rewrite app_nil_r.
  - unfold ranked_output. cbn [map snd List.concat]. rewrite fold_left_app.
    cbn [map fst] in Hnd, Hfresh. inversion Hnd as [ | ? ? Hk Hnd']; subst.
    destruct (Hall k g (or_introl eq_refl)) as [Hne Hlen].
    destruct g as [ | t g]; [congruence | ].
    cbn [fold_left].
    rewrite (Hlen t (or_introl eq_refl)).
    rewrite length_dict_append_new by (apply Hfresh; now left).
    rewrite group_loop_one_group;
      [ | apply Hfresh; now left | intros u Hu; apply Hlen; now right].
    fold (ranked_output d). rewrite IH.
    + now rewrite <- app_assoc.
    + split; [exact Hnd' | ]. intros L g' H. apply Hall. now right.
    + intros k' Hk' Hin. rewrite map_app, in_app_iff in Hin. cbn in Hin.
      destruct Hin as [Hin | [<- | []]]; [ | contradiction].
      apply (Hfresh k'); [now right | exact Hin].
Qed.

(** X7. Ranking is idempotent: the ranker applied to the trips of a
    ranking it returned, taken group after group, returns that ranking. *)
Theorem ranking_a_ranking_changes_nothing (trips : list Trip) (d : LengthDict) :
  rank_trips trips = Ok d -> rank_trips (ranked_output d) = Ok d.
Proof.
  intros H. apply rank_trips_ok in H as [-> Hscore].
  set (u := unique_trips_of trips) in *.
  set (d := sort_groups (group_by_length u)).
  assert (Hp : Permutation (ranked_output d) u)
    by (subst d; rewrite sort_groups_output; apply group_by_length_output).
  assert (Hwg : well_grouped d)
    by apply sort_groups_well_grouped, group_by_length_well_grouped.
  assert (Hunique : unique_trips_of (ranked_output d) = ranked_output d).
  { rewrite unique_trips_of_first_seen. apply first_seen_fresh; [ | intros t _ []].
    apply (Permutation_NoDup (Permutation_sym (Permutation_map trip_key Hp))).
    subst u. rewrite unique_trips_of_first_seen. apply first_seen_keys_NoDup. }
  rewrite rank_trips_total; rewrite Hunique.
  - f_equal. unfold group_by_length.
    rewrite (group_loop_rebuilds d []); [ | exact Hwg | intros k _ []].
    cbn [app]. subst d. apply sort_groups_idempotent.
  - intros t Ht. apply Hscore. now apply (Permutation_in _ Hp).
Qed.

Lemma ranking_a_ranking_changes_nothing_witness :
  rank_trips (ranked_output sample_ranking) = Ok sample_ranking.
Proof.
  apply (ranking_a_ranking_changes_nothing sample_trips).
  vm_compute; reflexivity.
Defined.

(** ** The label of every edge *)

Lemma well_formed_same_group (records : list GameNode) (r r' : GameNode) :
  well_formed_records records ->
  In r records -> In r' records -> team r = team r' -> is_NYC r = is_NYC r'.
Proof.
  intros Hwf Hr Hr' Ht. unfold well_formed_records in Hwf.
  rewrite Forall_forall in Hwf.
  destruct (Hwf r Hr) as [_ E], (Hwf r' Hr') as [_ E'].
  unfold is_NYC. now rewrite E, E', Ht.
Qed.

Lemma edge_matches_trans (a b a' b' : GameNode) (e : Edge) :
  edge_matches a b e = true -> edge_matches a' b' e = true ->
  node_eqb a' a = true /\ node_eqb b' b = true.
Proof.
  unfold edge_matches. intros H H'.
  apply andb_true_iff in H as [H1 H2]. apply andb_true_iff in H' as [H3 H4].
  rewrite node_eqb_sym in H3, H4.
  split; eapply node_eqb_trans; eassumption.
Qed.

Section EdgeLabel.
Variable records : list GameNode.
Variables a b : GameNode.
Hypothesis Hwf : well_formed_records records.
Hypothesis Ha : In a records.
Hypothesis Hb : In b records.

Lemma same_pair_same_rule (a' b' : GameNode) (d : string) :
  In a' records -> In b' records ->
  node_eqb a' a = true -> node_eqb b' b = true ->
  is_valid_geographic_transition a' b' d = is_valid_geographic_transition a b d.
Proof.
  intros Ha' Hb' Ea Eb. unfold is_valid_geographic_transition.
  rewrite (well_formed_same_group records a' a Hwf Ha' Ha (node_eqb_team _ _ Ea)).
  rewrite (well_formed_same_group records b' b Hwf Hb' Hb (node_eqb_team _ _ Eb)).
  now rewrite (node_eqb_team _ _ Ea), (node_eqb_team _ _ Eb).
Qed.


Lemma add_edge_same_label (G : DiGraph) (a' b' : GameNode) (d : string) :
  wf_graph G ->
  node_eqb a' a && node_eqb b' b = true ->
  Ok d = expected_direction a b ->
  agrees a b (add_edge G a' b' d).
Proof.
  intros HG Heq Hd e Hin Hm. cbn [add_edge g_edges] in Hin.
  rewrite !add_node_edges in Hin.
  apply andb_true_iff in Heq as [H1 H2].
  rewrite <- Hd. f_equal.
  apply (set_direction_label a' b' _ (g_edges G) e);
    [apply (wf_edges G HG) | exact Hin | ].
  unfold edge_matches in *. apply andb_true_iff in Hm as [H3 H4].
  rewrite node_eqb_sym in H1, H2.
  now rewrite (node_eqb_trans _ _ _ H3 H1), (node_eqb_trans _ _ _ H4 H2).
Qed.

Lemma add_edge_other_label (G : DiGraph) (a' b' : GameNode) (d : string) :
  node_eqb a' a && node_eqb b' b = false ->
  agrees a b G -> agrees a b (add_edge G a' b' d).
Proof.
  intros Heq HP e Hin Hm. cbn [add_edge g_edges] in Hin.
  rewrite !add_node_edges in Hin.
  apply set_direction_In in Hin as [Hin | [Hm' _]]; [now apply HP | ].
  destruct (edge_matches_trans a b a' b' e Hm Hm') as [H1 H2].
  rewrite H1, H2 in Heq. discriminate.
Qed.

Lemma add_edges_step_agrees (a' b' : GameNode) (G : DiGraph) :
  In a' records -> In b' records ->
  wf_graph G /\ agrees a b G ->
  wf_graph (add_edges_step a' G b') /\ agrees a b (add_edges_step a' G b').
Proof.
  intros Ha' Hb' [HG HP]. split; [now apply add_edges_step_wf | ].
  unfold add_edges_step.
  destruct (node_eqb a' b'); [exact HP | ].
  destruct (is_consecutive_night (date a') (date b')) eqn:Hn; cbn [negb];
    [ | exact HP].
  destruct (String.eqb (team a') (team b')) eqn:Ht; [exact HP | ].
  destruct (node_eqb a' a && node_eqb b' b) eqn:Heq.
  - assert (Hexp : expected_direction a b
                   = if is_valid_geographic_transition a' b' "southbound"
                     then Ok "southbound"
                     else if is_valid_geographic_transition a' b' "northbound"
                          then Ok "northbound" else Raise KeyError).
    { apply andb_true_iff in Heq as [H1 H2]. unfold expected_direction.
      rewrite <- !(same_pair_same_rule a' b' _ Ha' Hb' H1 H2).
      rewrite <- (node_eqb_team _ _ H1), <- (node_eqb_team _ _ H2).
      rewrite <- (node_eqb_date _ _ H1), <- (node_eqb_date _ _ H2).
      now rewrite Hn, Ht. }
    destruct (is_valid_geographic_transition a' b' "northbound"),
      (is_valid_geographic_transition a' b' "southbound");
      try exact HP;
      apply add_edge_same_label; auto using add_edge_wf.
  - destruct (is_valid_geographic_transition a' b' "northbound"),
      (is_valid_geographic_transition a' b' "southbound");
      auto using add_edge_other_label.
Qed.

Lemma own_step_adds_the_edge (G : DiGraph) (d : string) :
  expected_direction a b = Ok d -> has_edge a b (add_edges_step a G b).
Proof.
  unfold expected_direction. intros H.
  destruct (is_consecutive_night (date a) (date b)) eqn:Hn; [ | discriminate H].
  destruct (String.eqb (team a) (team b)) eqn:Ht; [discriminate H | ].
  cbn [negb andb] in H.
  assert (Hneq : node_eqb a b = false).
  { destruct (node_eqb a b) eqn:E; [ | reflexivity].
    apply node_eqb_team in E. apply String.eqb_neq in Ht. contradiction. }
  unfold add_edges_step. rewrite Hneq, Hn, Ht. cbn [negb].
  assert (Hadd : forall G' d', has_edge a b (add_edge G' a b d')).
  { intros G' d'. unfold has_edge. cbn [add_edge g_edges].
    rewrite !add_node_edges. apply set_direction_has. }
  destruct (is_valid_geographic_transition a b "southbound");
    [apply Hadd | ].
  destruct (is_valid_geographic_transition a b "northbound");
    [apply Hadd | discriminate H].
Qed.

Lemma step_keeps_the_edge (a' b' : GameNode) (G : DiGraph) :
  has_edge a b G -> has_edge a b (add_edges_step a' G b').
Proof.
  intros H. unfold add_edges_step.
  destruct (node_eqb a' b'); [exact H | ].
  destruct (negb _); [exact H | ].
  destruct (String.eqb _ _); [exact H | ].
  assert (Hadd : forall G' d, has_edge a b G' -> has_edge a b (add_edge G' a' b' d)).
  { intros G' d HG'. unfold has_edge. cbn [add_edge g_edges].
    rewrite !add_node_edges. now apply set_direction_keeps. }
  destruct (is_valid_geographic_transition a' b' "northbound"),
    (is_valid_geographic_transition a' b' "southbound"); auto.
Qed.

Lemma built_graph_agrees :
  wf_graph (build_game_graph records) /\ agrees a b (build_game_graph records).
Proof.
  unfold build_game_graph.
  apply (add_edges_to_graph_invariant (fun G => wf_graph G /\ agrees a b G)).
  - intros a' b' G Ha' Hb'. now apply add_edges_step_agrees.
  - split.
    + apply add_nodes_invariant; [intros; now apply add_node_wf | ].
      apply empty_graph_wf.
    + intros e He.
      assert (Hnone : g_edges (fold_left add_node records empty_graph) = []).
      { apply (add_nodes_invariant (fun G => g_edges G = [])).
        - intros n G _ HG. now rewrite add_node_edges.
        - reflexivity. }
      rewrite Hnone in He. destruct He.
Qed.

Lemma built_graph_has_the_edge (d : string) :
  expected_direction a b = Ok d -> has_edge a b (build_game_graph records).
Proof.
  intros Hd.
  assert (Hloops : forall outer inner G0,
             In a outer -> In b inner ->
             has_edge a b (fold_left
                             (fun g a' => fold_left (add_edges_step a') inner g)
                             outer G0)).
  { intros outer inner G0 Hout Hin.
    destruct (in_split a outer Hout) as (l1 & l2 & ->).
    destruct (in_split b inner Hin) as (m1 & m2 & ->).
    rewrite fold_left_app. cbn [fold_left].
    apply (outer_loop_invariant (has_edge a b));
      [intros; now apply step_keeps_the_edge | ].
    rewrite fold_left_app. cbn [fold_left].
    apply (inner_loop_invariant (has_edge a b));
      [intros; now apply step_keeps_the_edge | ].
    now apply (own_step_adds_the_edge _ d). }
  unfold build_game_graph, add_edges_to_graph. now apply Hloops.
Qed.
End EdgeLabel.

(** X8. On well-formed records, the graph holds an edge from one record to
    another exactly when the second game is played the night after the
    first by another team and one of the two transition rules allows the
    move, and the label of the edge is [southbound] whenever the southbound
    rule allows it, [northbound] only when the northbound rule alone does. *)
Theorem edge_labels_of_the_built_graph (records : list GameNode) (a b : GameNode) :
  well_formed_records records -> In a records -> In b records ->
  edge_direction (build_game_graph records) a b = expected_direction a b.
Proof.
  intros Hwf Ha Hb.
  destruct (built_graph_agrees records a b Hwf Ha Hb) as [_ Hagree].
  unfold edge_direction.
  destruct (find (edge_matches a b) (g_edges (build_game_graph records)))
    as [e | ] eqn:E.
  - apply find_some in E as [He Hm]. now apply Hagree.
  - destruct (expected_direction a b) as [d | x] eqn:Hd.
    + destruct (built_graph_has_the_edge records a b Ha Hb d Hd) as (e & He & Hm).
      rewrite (find_none _ _ E e He) in Hm. discriminate.
    + unfold expected_direction in Hd.
      destruct (_ && _); [ | congruence].
      destruct (is_valid_geographic_transition a b "southbound"); [discriminate | ].
      destruct (is_valid_geographic_transition a b "northbound"); [discriminate | ].
      congruence.
Qed.

Lemma edge_labels_of_the_built_graph_witness :
  edge_direction (build_game_graph nyc_back_to_back) knicks_game nets_game
  = expected_direction knicks_game nets_game.
Proof.
  apply (edge_labels_of_the_built_graph nyc_back_to_back knicks_game nets_game).
  - repeat constructor.
  - now left.
  - right; now left.
Defined.

(** ** The nodes of the built graph *)

Lemma add_node_present (G : DiGraph) (n : GameNode) :
  has_node G n = true -> add_node G n = G.
Proof. intros H. unfold add_node. now rewrite H. Qed.

Lemma add_edge_nodes (G : DiGraph) (u v : GameNode) (d : string) :
  has_node G u = true -> has_node G v = true ->
  g_nodes (add_edge G u v d) = g_nodes G.
Proof.
  intros Hu Hv. unfold add_edge. cbn [g_nodes].
  now rewrite (add_node_present G u Hu), (add_node_present G v Hv).
Qed.

Lemma has_node_nodes (G G' : DiGraph) (n : GameNode) :
  g_nodes G' = g_nodes G -> has_node G' n = has_node G n.
Proof. intros H. unfold has_node. now rewrite H. Qed.

Lemma add_edges_step_nodes (a b : GameNode) (G : DiGraph) :
  has_node G a = true -> has_node G b = true ->
  g_nodes (add_edges_step a G b) = g_nodes G.
Proof.
  intros Ha Hb. unfold add_edges_step.
  destruct (node_eqb a b); [reflexivity | ].
  destruct (negb _); [reflexivity | ].
  destruct (String.eqb _ _); [reflexivity | ].
  assert (H1 : g_nodes (add_edge G a b "northbound") = g_nodes G)
    by now apply add_edge_nodes.
  destruct (is_valid_geographic_transition a b "northbound"),
    (is_valid_geographic_transition a b "southbound");
    try reflexivity; try exact H1; try (now apply add_edge_nodes).
  rewrite add_edge_nodes; [exact H1 | | ];
    rewrite (has_node_nodes G _ _ H1); assumption.
Qed.

Lemma add_nodes_subsequence (l : list GameNode) :
  forall G, exists l',
    g_nodes (fold_left add_node l G) = g_nodes G ++ l' /\ subsequence l' l.
Proof.
  induction l as [ | n l IH]; intros G; cbn [fold_left].
  - exists []. split; [now rewrite app_nil_r | constructor].
  - destruct (IH (add_node G n)) as (l' & E & Hsub). rewrite E.
    unfold add_node. destruct (has_node G n).
    + exists l'. split; [reflexivity | now constructor].
    + exists (n :: l'). cbn [g_nodes]. rewrite <- app_assoc.
      split; [reflexivity | now constructor].
Qed.

Lemma add_nodes_distinct (l : list GameNode) :
  forall G,
    NoDup (map node_id (g_nodes G ++ l)) ->
    g_nodes (fold_left add_node l G) = g_nodes G ++ l.
Proof.
  induction l as [ | n l IH]; intros G Hnd; cbn [fold_left].
  - now rewrite app_nil_r.
  - assert (Hnew : has_node G n = false).
    { destruct (has_node G n) eqn:E; [ | reflexivity].
      apply has_node_id in E. rewrite map_app in Hnd. cbn [map] in Hnd.
      apply NoDup_remove_2 in Hnd. exfalso. apply Hnd.
      apply in_or_app. now left. }
    assert (Hadd : g_nodes (add_node G n) = g_nodes G ++ [n])
      by (unfold add_node; now rewrite Hnew).
    rewrite IH; rewrite Hadd, <- app_assoc; [reflexivity | exact Hnd].
Qed.

Lemma add_nodes_has (l : list GameNode) (n : GameNode) :
  forall G, In n l \/ has_node G n = true ->
            has_node (fold_left add_node l G) n = true.
Proof.
  induction l as [ | m l IH]; intros G [Hin | HG]; cbn [fold_left].
  - destruct Hin.
  - exact HG.
  - apply IH. destruct Hin as [-> | Hin]; [right | now left].
    rewrite add_node_has, node_eqb_refl. apply orb_true_r.
  - apply IH. right. now apply add_node_keeps.
Qed.

Lemma build_game_graph_nodes (records : list GameNode) :
  g_nodes (build_game_graph records)
  = g_nodes (fold_left add_node records empty_graph).
Proof.
  unfold build_game_graph.
  set (G0 := fold_left add_node records empty_graph).
  apply (add_edges_to_graph_invariant (fun G => g_nodes G = g_nodes G0));
    [ | reflexivity].
  intros a b G Ha Hb HG. rewrite <- HG.
  apply add_edges_step_nodes; rewrite (has_node_nodes G0 G _ HG);
    apply add_nodes_has; now left.
Qed.

(** X9. The nodes of the built graph are the records in their order, a
    record left out when an earlier record is the same game (same team,
    date, opponent and venue); the edge loops add no node.  When no two
    records are the same game, the nodes are the records. *)
Theorem nodes_of_the_built_graph (records : list GameNode) :
  subsequence (g_nodes (build_game_graph records)) records
  /\ NoDup (map node_id (g_nodes (build_game_graph records)))
  /\ (forall r, In r records ->
                exists n, In n (g_nodes (build_game_graph records))
                          /\ node_id n = node_id r)
  /\ (NoDup (map node_id records) -> g_nodes (build_game_graph records) = records).
Proof.
  split; [ | split; [ | split]].
  - rewrite build_game_graph_nodes.
    destruct (add_nodes_subsequence records empty_graph) as (l' & -> & Hsub).
    exact Hsub.
  - apply (wf_nodes _ (build_game_graph_wf records)).
  - intros r Hr. pose proof (build_game_graph_has_records records r Hr) as H.
    unfold has_node in H. apply existsb_exists in H as (n & Hn & E).
    exists n. split; [exact Hn | ]. symmetry. now apply node_eqb_id.
  - intros Hnd. rewrite build_game_graph_nodes.
    now rewrite (add_nodes_distinct records empty_graph Hnd).
Qed.

Lemma nodes_of_the_built_graph_witness :
  g_nodes (build_game_graph south_to_north_schedule) = south_to_north_schedule.
Proof.
  apply (nodes_of_the_built_graph south_to_north_schedule).
  repeat constructor; cbn; intuition discriminate.
Defined.

(** ** The search misses no trip *)

Lemma NoDup_map_same {A B : Type} (f : A -> B) (l : list A) (x y : A) :
  NoDup (map f l) -> In x l -> In y l -> f x = f y -> x = y.
Proof.
  induction l as [ | z l IH]; cbn [map]; intros Hnd Hx Hy E; [destruct Hx | ].
  inversion Hnd as [ | ? ? Hz Hnd']; subst.
  destruct Hx as [-> | Hx], Hy as [-> | Hy]; [reflexivity | | | now apply IH].
  - exfalso. apply Hz. rewrite E. now apply in_map.
  - exfalso. apply Hz. rewrite <- E. now apply in_map.
Qed.

Lemma Forall2_In_l {A B : Type} (R : A -> B -> Prop) (l : list A) (rs : list B) (x : A) :
  Forall2 R l rs -> In x l -> exists y, In y rs /\ R x y.
Proof.
  induction 1 as [ | x' y l rs HR _ IH]; intros Hin; [destruct Hin | ].
  destruct Hin as [<- | Hin].
  - exists y. split; [now left | exact HR].
  - destruct (IH Hin) as (y' & Hy' & HR'). exists y'. split; [now right | exact HR'].
Qed.

Lemma extend_each_In {A B : Type} (f : A -> result (list B)) (l : list A)
  (r : list B) (x : A) (ys : list B) (y : B) :
  extend_each f l = Ok r -> In x l -> f x = Ok ys -> In y ys -> In y r.
Proof.
  intros H Hx Hf Hy. apply extend_each_ok in H as (rs & Hrs & ->).
  destruct (Forall2_In_l _ _ _ x Hrs Hx) as (ys' & Hys' & Hf').
  rewrite Hf in Hf'. injection Hf' as <-.
  apply in_concat. now exists ys.
Qed.

Lemma extend_each_at {A B : Type} (f : A -> result (list B)) (l : list A)
  (r : list B) (x : A) :
  extend_each f l = Ok r -> In x l -> exists ys, f x = Ok ys.
Proof.
  intros H Hx. apply extend_each_ok in H as (rs & Hrs & _).
  destruct (Forall2_In_l _ _ _ x Hrs Hx) as (ys & _ & Hf). now exists ys.
Qed.

Lemma edge_direction_of_edge (G : DiGraph) (e : Edge) (current : GameNode) :
  wf_graph G -> In e (g_edges G) -> node_eqb (e_from e) current = true ->
  edge_direction G current (e_to e) = Ok (e_direction e).
Proof.
  intros HG He Hfrom.
  assert (Hm : edge_matches current (e_to e) e = true)
    by (unfold edge_matches; now rewrite Hfrom, node_eqb_refl).
  unfold edge_direction.
  destruct (find (edge_matches current (e_to e)) (g_edges G)) as [e' | ] eqn:E.
  - apply find_some in E as [He' Hm'].
    apply edge_matches_id in Hm, Hm'.
    now rewrite (NoDup_map_same edge_id _ e' e (wf_edges G HG) He' He)
      by congruence.
  - rewrite (find_none _ _ E e He) in Hm. discriminate.
Qed.

Lemma last_cons {A : Type} (l : list A) (d x : A) : last (x :: l) d = last l x.
Proof.
  revert d x. induction l as [ | y l IH]; intros d x; [reflexivity | ].
  change (last (x :: y :: l) d) with (last (y :: l) d).
  rewrite IH. symmetry. apply IH.
Qed.

Section Completeness.
Variable G : DiGraph.
Variable direction : string.
Variable accept : GameNode -> list string -> Trip -> bool.
Hypothesis HG : wf_graph G.

(** Every path the relation over stored nodes describes is returned. *)
Lemma dfs_complete (current : GameNode) (visited : list string) (path t : Trip) :
  reached G direction accept current visited path t ->
  forall fuel trips,
    dfs direction accept fuel G current visited path = Ok trips -> In t trips.
Proof.
  induction 1 as [current visited path Hacc
                 | current visited path e trip Hlen He Hfrom Hdir Hnew _ IH];
    intros fuel trips H; (destruct fuel as [ | fuel]; [discriminate | ]);
    cbn [dfs] in H.
  - rewrite Hacc in H.
    destruct (List.length (path ++ [current]) <? 5).
    + apply bind_ok in H as (nbs & _ & H).
      apply bind_ok in H as (deeper & _ & H). injection H as <-. now left.
    + injection H as <-. now left.
  - apply Nat.ltb_lt in Hlen. rewrite Hlen in H.
    apply bind_ok in H as (nbs & Hnbs & H).
    apply bind_ok in H as (deeper & Hdeeper & H). injection H as <-.
    apply in_or_app. right.
    apply successors_ok in Hnbs as [_ ->].
    assert (Hnb : In (e_to e)
                    (map e_to (filter (fun e' => node_eqb (e_from e') current)
                                 (g_edges G))))
      by (apply in_map, filter_In; now split).
    destruct (extend_each_at _ _ _ _ Hdeeper Hnb) as (ys & Hys).
    apply (extend_each_In _ _ _ _ ys trip Hdeeper Hnb Hys).
    rewrite (edge_direction_of_edge G e current HG He Hfrom), Hdir in Hys.
    cbn [bind] in Hys. rewrite String.eqb_refl, Hnew in Hys. cbn [negb] in Hys.
    exact (IH _ _ Hys).
Qed.

Lemma chain_reached (rest : Trip) :
  forall current visited path,
    chain G direction (current :: rest) ->
    List.length (path ++ current :: rest) <= 5 ->
    NoDup (map team (path ++ current :: rest)) ->
    tracks visited path ->
    accept (last rest current) (teams_after visited (current :: rest))
      (path ++ current :: rest) = true ->
    reached G direction accept current visited path (path ++ current :: rest).
Proof.
  induction rest as [ | b rest IH]; intros current visited path Hchain Hlen Hnd Htr Hacc.
  - now apply reached_here.
  - destruct Hchain as [(e & He & Hfrom & Hto & Hdir) Hchain].
    assert (Eapp : path ++ current :: b :: rest = (path ++ [current]) ++ b :: rest)
      by now rewrite <- app_assoc.
    rewrite Eapp in *.
    apply (reached_deeper _ _ _ current visited path e).
    + rewrite !length_app in *. cbn [List.length] in *. lia.
    + exact He.
    + exact Hfrom.
    + exact Hdir.
    + rewrite Hto. destruct (str_in (team b) _) eqn:E; [ | reflexivity].
      apply (tracks_step _ _ current Htr) in E.
      rewrite map_app in Hnd. cbn [map] in Hnd.
      apply NoDup_remove_2 in Hnd. exfalso. apply Hnd.
      apply in_or_app. now left.
    + rewrite Hto. apply IH; try assumption.
      * now apply tracks_step.
      * now rewrite <- (last_cons rest current b).
Qed.
End Completeness.

Lemma teams_after_in (l : Trip) :
  forall visited x,
    str_in x (teams_after visited l) = true
    <-> str_in x visited = true \/ In x (map team l).
Proof.
  unfold teams_after.
  induction l as [ | n l IH]; intros visited x; cbn [fold_left map In].
  - tauto.
  - rewrite IH, set_add_in. intuition.
Qed.

Lemma chain_last_edge (G : DiGraph) (direction : string) (rest : Trip) :
  forall a, rest <> [] -> chain G direction (a :: rest) ->
            exists e, In e (g_edges G) /\ e_to e = last rest a.
Proof.
  induction rest as [ | b rest IH]; intros a Hne Hchain; [congruence | ].
  destruct Hchain as [(e & He & _ & Hto & _) Hchain].
  destruct rest as [ | c rest].
  - exists e. now split.
  - destruct (IH b) as (e' & He' & Hto'); [discriminate | exact Hchain | ].
    exists e'. split; [exact He' | ].
    now rewrite Hto', (last_cons (c :: rest) a b).
Qed.

Lemma last_In {A : Type} (l : list A) (d : A) : l <> [] -> In (last l d) l.
Proof.
  induction l as [ | x l IH]; intros Hne; [congruence | ].
  destruct l as [ | y l]; [now left | ].
  right. apply IH. discriminate.
Qed.

(** X10. The search misses no trip: a sequence of three to five games over
    different teams is among the trips the search returns when it leads
    from an anchor game along northbound edges, and when it leads from a
    node of the graph along southbound edges to a Wizards game. *)
Theorem search_misses_no_trip (records : list GameNode) (trips : list Trip) (t : Trip) :
  find_all_valid_trips (build_game_graph records) = Ok trips ->
  3 <= List.length t <= 5 ->
  NoDup (map team t) ->
  (exists w rest,
      t = w :: rest /\ In w (wizards_games (build_game_graph records))
      /\ chain (build_game_graph records) "northbound" t)
  \/ (exists s rest,
         t = s :: rest /\ In s (g_nodes (build_game_graph records))
         /\ team (last rest s) = "Wizards"
         /\ chain (build_game_graph records) "southbound" t) ->
  In t trips.
Proof.
  set (G := build_game_graph records).
  assert (HG : wf_graph G) by apply build_game_graph_wf.
  intros H Hlen Hnd Hcase.
  unfold find_all_valid_trips in H. fold (wizards_games G) in H.
  destruct Hcase as [(w & rest & -> & Hw & Hchain) | (s & rest & -> & Hs & Hlast & Hchain)].
  - destruct (extend_each_at _ _ _ _ H Hw) as (ys & Hys).
    apply (extend_each_In _ _ _ _ ys (w :: rest) H Hw Hys).
    apply bind_ok in Hys as (north & Hnorth & Hys).
    apply bind_ok in Hys as (south & _ & Hys). injection Hys as <-.
    apply in_or_app. left.
    unfold find_northbound_trips in Hnorth. rewrite dfs_northbound_dfs in Hnorth.
    apply (fun Hr => dfs_complete G _ _ HG w [] [] (w :: rest) Hr _ _ Hnorth).
    apply (chain_reached G _ _ rest w [] []);
      [exact Hchain | cbn [app]; lia | exact Hnd | apply tracks_nil | ].
    cbn [app]. unfold accept_northbound.
    destruct Hlen as [H3 H5].
    apply Nat.leb_le in H3, H5. rewrite H3, H5. cbn [andb].
    apply teams_after_in. right. left.
    apply filter_In in Hw as [_ Hw]. now apply String.eqb_eq in Hw.
  - assert (Hrest : rest <> []).
    { intros ->. cbn in Hlen. lia. }
    assert (Hstart : String.eqb (team s) "Wizards" = false).
    { apply String.eqb_neq. intros E.
      apply (distinct_teams_head s rest Hnd (last rest s)); [now apply last_In | ].
      congruence. }
    destruct (chain_last_edge G _ rest s Hrest Hchain) as (e & He & Hto).
    destruct (wf_endpoints G HG e He) as [_ Hnode].
    unfold has_node in Hnode. apply existsb_exists in Hnode as (n & Hn & En).
    assert (Hanchor : In n (wizards_games G)).
    { apply filter_In. split; [exact Hn | ].
      apply String.eqb_eq. rewrite <- (node_eqb_team _ _ En), Hto. exact Hlast. }
    destruct (extend_each_at _ _ _ _ H Hanchor) as (ys & Hys).
    apply (extend_each_In _ _ _ _ ys (s :: rest) H Hanchor Hys).
    apply bind_ok in Hys as (north & _ & Hys).
    apply bind_ok in Hys as (south & Hsouth & Hys). injection Hys as <-.
    apply in_or_app. right.
    unfold find_southbound_trips in Hsouth.
    destruct (extend_each_at _ _ _ _ Hsouth Hs) as (zs & Hzs).
    apply (extend_each_In _ _ _ _ zs (s :: rest) Hsouth Hs Hzs).
    rewrite Hstart in Hzs. cbn [negb] in Hzs.
    rewrite dfs_southbound_dfs in Hzs.
    apply (fun Hr => dfs_complete G _ _ HG s [] [] (s :: rest) Hr _ _ Hzs).
    apply (chain_reached G _ _ rest s [] []);
      [exact Hchain | cbn [app]; lia | exact Hnd | apply tracks_nil | ].
    cbn [app]. unfold accept_southbound.
    destruct Hlen as [H3 H5].
    apply Nat.leb_le in H3, H5. rewrite H3, H5, Hlast. reflexivity.
Qed.

Lemma search_misses_no_trip_witness :
  In (firstn 3 south_to_north_schedule)
    (match find_all_valid_trips (build_game_graph south_to_north_schedule) with
     | Ok trips => trips
     | Raise _ => []
     end).
Proof.
  apply (search_misses_no_trip south_to_north_schedule).
  - vm_compute; reflexivity.
  - cbn; lia.
  - repeat constructor; cbn; intuition discriminate.
  - left. exists (row "Wizards" 1 "Celtics" "Capital One Arena").
    exists [row "76ers" 2 "Wizards" "Wells Fargo Center";
            row "Knicks" 3 "76ers" "Madison Square Garden (IV)"].
    split; [reflexivity | ]. split; [vm_compute; now left | ].
    split; [ | split; [ | exact I]].
    + exists (mkEdge (row "Wizards" 1 "Celtics" "Capital One Arena")
                (row "76ers" 2 "Wizards" "Wells Fargo Center") "northbound").
      repeat split. vm_compute. auto 10.
    + exists (mkEdge (row "76ers" 2 "Wizards" "Wells Fargo Center")
                (row "Knicks" 3 "76ers" "Madison Square Garden (IV)") "northbound").
      repeat split. vm_compute. auto 10.
Defined.

(** ** The report of a run *)

Lemma nth_error_final {A : Type} (l : list A) (x : A) :
  nth_error (x :: l) (List.length l) = Some (last l x).
Proof.
  revert x. induction l as [ | y l IH]; intros x; [reflexivity | ].
  cbn [List.length nth_error]. rewrite IH. f_equal. symmetry. apply last_cons.
Qed.

Lemma getitem_last_cons {A : Type} (l : list A) (x : A) :
  getitem_last (x :: l) = Ok (last l x).
Proof.
  unfold getitem_last, getitem. cbn [List.length].
  replace (S (List.length l) - 1) with (List.length l) by lia.
  now rewrite nth_error_final.
Qed.

Lemma ranked_rank (n : GameNode) :
  ranked n = true -> exists r, rank_of (team n) = Some r /\ 1 <= r.
Proof.
  unfold ranked, rank_of, get_team_geographic_order.
  team_split (team n); team_simpl; intros H; try discriminate; eexists;
    (split; [reflexivity | lia]).
Qed.

Lemma rank_one (s : string) (r : nat) :
  rank_of s = Some r -> (r = 1 <-> s = "Wizards").
Proof.
  unfold rank_of, get_team_geographic_order.
  team_split s; team_simpl; intros [= <-]; split; intros H;
    try reflexivity; try lia; try discriminate H.
  all: exfalso; revert H; clear; intros H;
    apply (f_equal (fun x => String.eqb x "Wizards")) in H;
    vm_compute in H; discriminate H.
Qed.

(** The direction of a trip over ranked teams, from the two ranks. *)
Lemma direction_of_ranked (first : GameNode) (rest : Trip) :
  all_ranked (first :: rest) = true ->
  exists x y,
    rank_of (team first) = Some x /\ rank_of (team (last rest first)) = Some y
    /\ direction_of (first :: rest)
       = Ok (if x <? y then "NORTHBOUND"
             else if y <? x then "SOUTHBOUND" else "LOCAL").
Proof.
  intros Hr. unfold all_ranked in Hr. rewrite forallb_forall in Hr.
  destruct (ranked_rank first) as (x & Hx & _); [apply Hr; now left | ].
  assert (Hin : In (last rest first) (first :: rest)).
  { destruct rest as [ | b rest]; [now left | ].
    right. apply last_In. discriminate. }
  destruct (ranked_rank (last rest first) (Hr _ Hin)) as (y & Hy & _).
  exists x, y. split; [exact Hx | ]. split; [exact Hy | ].
  unfold direction_of. rewrite getitem_last_cons.
  unfold getitem. cbn [nth_error bind]. unfold dict_getitem.
  unfold rank_of in Hx, Hy.
  change geo_order with get_team_geographic_order.
  now rewrite Hx, Hy.
Qed.

Lemma trip_lines_returns (strftime : Z -> string) (i : nat) (t : Trip) :
  t <> [] -> all_ranked t = true ->
  exists ls, trip_lines strftime i t = Ok ls.
Proof.
  intros Hne Hr. destruct t as [ | first rest]; [congruence | ].
  destruct (direction_of_ranked first rest Hr) as (x & y & _ & _ & Hd).
  unfold trip_lines. rewrite Hd, calculate_travel_efficiency_spec, Hr, orb_true_r.
  cbn [bind]. eauto.
Qed.

Lemma length_lines_returns (strftime : Z -> string) (d : LengthDict) (L : nat) :
  (forall g t, length_dict_get d L = Some g -> In t g ->
               t <> [] /\ all_ranked t = true) ->
  exists ls, length_lines strftime d L = Ok ls.
Proof.
  intros H. unfold length_lines.
  destruct (length_dict_get d L) as [g | ]; [ | eauto].
  destruct g as [ | t g]; [eauto | ].
  destruct (extend_each_exists
              (fun p => trip_lines strftime (fst p) (snd p))
              (enumerate1 (t :: g))) as (body & ->); [ | cbn [bind]; eauto].
  intros [i u] Hu. unfold enumerate1 in Hu. apply in_combine_r in Hu.
  destruct (H (t :: g) u eq_refl Hu) as [Hne Hr].
  now apply trip_lines_returns.
Qed.

Lemma output_lines_returns (now_text : string) (strftime : Z -> string)
  (d : LengthDict) :
  (forall L g t, length_dict_get d L = Some g -> In t g ->
                 t <> [] /\ all_ranked t = true) ->
  exists lines, output_lines now_text strftime d = Ok lines.
Proof.
  intros H. unfold output_lines.
  destruct (extend_each_exists (length_lines strftime d) [5; 4; 3])
    as (sections & ->); [ | cbn [bind]; eauto].
  intros L _. apply length_lines_returns. intros g t. apply H.
Qed.

(** The search behind a ranking of the run, and what holds of its trips. *)
Lemma run_trips (records : list GameNode) (d : LengthDict) :
  plan_trips records = Ok d ->
  exists trips,
    find_all_valid_trips (build_game_graph records) = Ok trips
    /\ forall L g t, length_dict_get d L = Some g -> In t g ->
                     In t trips /\ valid_trip t /\ all_ranked t = true
                     /\ List.length t = L.
Proof.
  unfold plan_trips. intros H. apply bind_ok in H as (trips & Htrips & H).
  exists trips. split; [exact Htrips | ].
  apply rank_trips_ok in H as [-> Hscore].
  intros L g t Hg Ht.
  pose proof (ranked_group (unique_trips_of trips) L) as Hgroup.
  unfold trips_of_length in Hgroup. rewrite Hg in Hgroup. subst g.
  apply (Permutation_in _ (sorted_by_score_perm _)) in Ht.
  apply filter_In in Ht as [Ht HL].
  assert (Hin : In t trips).
  { rewrite unique_trips_of_first_seen in Ht.
    eapply subsequence_In; [apply first_seen_subsequence | exact Ht]. }
  assert (Hvalid : valid_trip t).
  { destruct (find_all_valid_trips_sound _ _ Htrips t Hin)
      as [(w & _ & Hf) | (s & _ & _ & Hf)].
    - eapply northbound_found_valid; [apply built_edge_dates | exact Hf].
    - eapply southbound_found_valid; [apply built_edge_dates | exact Hf]. }
  repeat split; try exact Hin; try apply Hvalid.
  - specialize (Hscore t Ht). rewrite calculate_travel_efficiency_spec in Hscore.
    destruct Hvalid as [[H3 _] _].
    destruct (Nat.leb_spec (List.length t) 1) as [H1 | _]; [lia | ].
    cbn [orb] in Hscore. now destruct (all_ranked t).
  - unfold has_length in HL. now apply Nat.eqb_eq in HL.
Qed.

(** X11. The report of a run is always produced: on a ranking the run
    returns, whatever the records were, [format_output] raises nothing,
    and the text it returns is the text it wrote to the file named after
    the time stamp. *)
Theorem report_of_a_run_is_produced (now_stamp now_text : string)
  (strftime : Z -> string) (records : list GameNode) (d : LengthDict) :
  plan_trips records = Ok d ->
  exists lines,
    output_lines now_text strftime d = Ok lines
    /\ format_output now_stamp now_text strftime d
       = Ok (mkReport (String.concat "" ["results/nba_trips_"; now_stamp; ".txt"])
               (String.concat newline lines) (String.concat newline lines)).
Proof.
  intros H. destruct (run_trips records d H) as (trips & _ & Hall).
  destruct (output_lines_returns now_text strftime d) as (lines & Hlines).
  - intros L g t Hg Ht. destruct (Hall L g t Hg Ht) as (_ & Hv & Hr & _).
    split; [ | exact Hr].
    destruct Hv as [[H3 _] _]. intros ->. cbn in H3. lia.
  - exists lines. split; [exact Hlines | ].
    unfold format_output. now rewrite Hlines.
Qed.

Lemma report_of_a_run_is_produced_witness :
  exists lines,
    output_lines "2025-10-22 09:00:00" (fun d => str_of_nat (Z.to_nat d))
      [(3, [firstn 3 south_to_north_schedule])] = Ok lines
    /\ format_output "20251022_090000" "2025-10-22 09:00:00"
         (fun d => str_of_nat (Z.to_nat d)) [(3, [firstn 3 south_to_north_schedule])]
       = Ok (mkReport
               (String.concat "" ["results/nba_trips_"; "20251022_090000"; ".txt"])
               (String.concat newline lines) (String.concat newline lines)).
Proof.
  apply (report_of_a_run_is_produced _ _ _ (firstn 3 south_to_north_schedule)).
  vm_compute; reflexivity.
Defined.

(** ** The direction the report prints *)

Lemma rank_of_wizards (n : GameNode) (r : nat) :
  rank_of (team n) = Some r -> 1 <= r /\ (r = 1 <-> team n = "Wizards").
Proof.
  intros H. split; [ | now apply rank_one].
  destruct (ranked_rank n) as (r' & Hr' & Hle); [unfold ranked; now rewrite H | ].
  congruence.
Qed.

(** X12. For every trip of a ranking the run returns, the direction the
    report computes is never [LOCAL] and raises nothing: it is [NORTHBOUND]
    for a trip that starts with its Wizards game and [SOUTHBOUND] for a
    trip that ends with it. *)
Theorem report_direction_of_a_run (records : list GameNode) (d : LengthDict)
  (L : nat) (g : list Trip) (t : Trip) :
  plan_trips records = Ok d ->
  length_dict_get d L = Some g -> In t g ->
  (exists w rest, t = w :: rest /\ team w = "Wizards"
                  /\ direction_of t = Ok "NORTHBOUND")
  \/ (exists before final, t = before ++ [final] /\ team final = "Wizards"
                           /\ direction_of t = Ok "SOUTHBOUND").
Proof.
  intros H Hg Ht.
  destruct (run_trips records d H) as (trips & Htrips & Hall).
  destruct (Hall L g t Hg Ht) as (Hin & Hv & Hr & _).
  destruct Hv as ([H3 _] & Hnd & _).
  destruct (find_all_valid_trips_sound _ _ Htrips t Hin)
    as [(w & Hw & Hf) | (s & _ & _ & Hf)].
  - left. destruct (found_from_prefix _ _ _ _ _ _ _ Hf) as (rest & ->).
    cbn [app] in *.
    assert (Hteam : team w = "Wizards").
    { apply filter_In in Hw as [_ Hw]. now apply String.eqb_eq in Hw. }
    exists w, rest. split; [reflexivity | ]. split; [exact Hteam | ].
    destruct (direction_of_ranked w rest Hr) as (x & y & Hx & Hy & ->).
    destruct (rank_of_wizards _ _ Hx) as [_ Hx1].
    destruct (rank_of_wizards _ _ Hy) as [Hy1 Hy2].
    assert (Hlast : team (last rest w) <> "Wizards").
    { rewrite <- Hteam. apply (distinct_teams_head w rest Hnd).
      apply last_In. intros ->. cbn in H3. lia. }
    assert (Hx' : x = 1) by now apply Hx1.
    assert (Hlt : x < y) by (destruct (Nat.eq_dec y 1); [tauto | lia]).
    apply Nat.ltb_lt in Hlt. now rewrite Hlt.
  - right.
    destruct (found_from_accepted _ _ _ _ _ _ _ Hf tracks_nil)
      as (final & teams & p & -> & _ & Ha).
    unfold accept_southbound in Ha. apply andb_true_iff in Ha as [Hw _].
    apply String.eqb_eq in Hw.
    exists p, final. split; [reflexivity | ]. split; [exact Hw | ].
    destruct p as [ | first p]; [cbn in H3; lia | ].
    cbn [app] in *.
    destruct (direction_of_ranked first (p ++ [final]) Hr) as (x & y & Hx & Hy & ->).
    rewrite last_last in Hy.
    destruct (rank_of_wizards _ _ Hx) as [Hx1 Hx2].
    destruct (rank_of_wizards _ _ Hy) as [_ Hy2].
    assert (Hfirst : team first <> "Wizards").
    { rewrite <- Hw.
      apply (distinct_teams_last (first :: p) final Hnd). now left. }
    assert (Hy1 : y = 1) by now apply Hy2.
    assert (Hlt : y < x) by (destruct (Nat.eq_dec x 1); [tauto | lia]).
    destruct (Nat.ltb_spec x y) as [Hc | _]; [lia | ].
    apply Nat.ltb_lt in Hlt. now rewrite Hlt.
Qed.

Lemma report_direction_of_a_run_witness :
  (exists w rest, north_to_south_schedule = w :: rest /\ team w = "Wizards"
                  /\ direction_of north_to_south_schedule = Ok "NORTHBOUND")
  \/ (exists before final,
         north_to_south_schedule = before ++ [final] /\ team final = "Wizards"
         /\ direction_of north_to_south_schedule = Ok "SOUTHBOUND").
Proof.
  apply (report_direction_of_a_run north_to_south_schedule
           (match plan_trips north_to_south_schedule with
            | Ok d => d
            | Raise _ => []
            end)
           5
           (match plan_trips north_to_south_schedule with
            | Ok d => match length_dict_get d 5 with Some g => g | None => [] end
            | Raise _ => []
            end)).
  - vm_compute; reflexivity.
  - vm_compute; reflexivity.
  - vm_compute. now left.
Defined.

(** ** The counts the report prints *)

Lemma length_dict_get_absent (d : LengthDict) (k : nat) :
  ~ In k (map fst d) -> length_dict_get d k = None.
Proof.
  induction d as [ | [k' g] d IH]; intros Hk; [reflexivity | ].
  cbn [length_dict_get]. cbn [map fst] in Hk.
  destruct (Nat.eqb_spec k' k) as [-> | _]; [exfalso; apply Hk; now left | ].
  apply IH. intros H. apply Hk. now right.
Qed.

Lemma length_dict_get_present (d : LengthDict) (k : nat) :
  In k (map fst d) -> exists g, length_dict_get d k = Some g /\ In (k, g) d.
Proof.
  induction d as [ | [k' g] d IH]; intros Hk; [destruct Hk | ].
  cbn [length_dict_get].
  destruct (Nat.eqb_spec k' k) as [-> | Hne].
  - exists g. split; [reflexivity | now left].
  - destruct Hk as [Hk | Hk]; [cbn in Hk; congruence | ].
    destruct (IH Hk) as (g' & Hg' & Hin). exists g'. split; [exact Hg' | now right].
Qed.

Lemma total_of_the_three_groups (d : LengthDict) :
  NoDup (map fst d) ->
  (forall k, In k (map fst d) -> 3 <= k <= 5) ->
  total_trips d
  = List.length (trips_of_length d 5) + List.length (trips_of_length d 4)
    + List.length (trips_of_length d 3).
Proof.
  unfold trips_of_length.
  induction d as [ | [k g] d IH]; intros Hnd Hkeys; [reflexivity | ].
  change (total_trips ((k, g) :: d)) with (List.length g + total_trips d).
  cbn [map fst length_dict_get] in *.
  inversion Hnd as [ | ? ? Hk Hnd']; subst.
  rewrite IH; [ | exact Hnd' | intros k' Hk'; apply Hkeys; now right].
  pose proof (length_dict_get_absent d k Hk) as Habs.
  assert (Hrange : k = 3 \/ k = 4 \/ k = 5)
    by (specialize (Hkeys k (or_introl eq_refl)); lia).
  destruct Hrange as [-> | [-> | ->]]; rewrite Habs; cbn [Nat.eqb List.length]; lia.
Qed.

Lemma run_well_grouped (records : list GameNode) (d : LengthDict) :
  plan_trips records = Ok d -> well_grouped d.
Proof.
  unfold plan_trips. intros H. apply bind_ok in H as (trips & _ & H).
  apply rank_trips_ok in H as [-> _].
  apply sort_groups_well_grouped, group_by_length_well_grouped.
Qed.

(** X13. In the report of a run the total the header prints is the sum of
    the counts the three section headers print: a ranking of the run has
    no group outside the lengths 5, 4 and 3. *)
Theorem report_total_is_the_sum_of_the_sections (records : list GameNode)
  (d : LengthDict) :
  plan_trips records = Ok d ->
  total_trips d
  = List.length (trips_of_length d 5) + List.length (trips_of_length d 4)
    + List.length (trips_of_length d 3).
Proof.
  intros H. destruct (run_well_grouped records d H) as [Hnd Hgroups].
  destruct (run_trips records d H) as (trips & _ & Hall).
  apply total_of_the_three_groups; [exact Hnd | ].
  intros k Hk.
  destruct (length_dict_get_present d k Hk) as (g & Hg & Hin).
  destruct (Hgroups k g Hin) as [Hne _].
  destruct g as [ | t g]; [congruence | ].
  destruct (Hall k (t :: g) t Hg (or_introl eq_refl)) as (_ & Hv & _ & HL).
  destruct Hv as [H35 _]. lia.
Qed.

Lemma report_total_is_the_sum_of_the_sections_witness :
  total_trips [(3, [firstn 3 south_to_north_schedule])]
  = List.length (trips_of_length [(3, [firstn 3 south_to_north_schedule])] 5)
    + List.length (trips_of_length [(3, [firstn 3 south_to_north_schedule])] 4)
    + List.length (trips_of_length [(3, [firstn 3 south_to_north_schedule])] 3).
Proof.
  apply (report_total_is_the_sum_of_the_sections (firstn 3 south_to_north_schedule)).
  vm_compute; reflexivity.
Defined.

(** ** The cleaning of the schedule *)

Lemma standardize_known (s : string) :
  In s (map fst team_mapping) ->
  str_in (standardize_team_names s) target_teams = true.
Proof.
  cbn. intros H.
  repeat (destruct H as [<- | H]; [vm_compute; reflexivity | ]).
  destruct H.
Qed.

Lemma standardize_unknown (s : string) :
  ~ In s (map fst team_mapping) -> standardize_team_names s = s.
Proof.
  intros H. unfold standardize_team_names, dict_get.
  assert (Hnone : forall d : list (string * string),
             ~ In s (map fst d) -> dict_lookup d s = None).
  { induction d as [ | [k v] d IH]; intros Hd; [reflexivity | ].
    cbn [dict_lookup]. cbn [map fst] in Hd.
    destruct (String.eqb_spec k s) as [-> | _]; [exfalso; apply Hd; now left | ].
    apply IH. intros Hin. apply Hd. now right. }
  now rewrite Hnone.
Qed.

Lemma known_name_dec (s : string) :
  In s (map fst team_mapping) \/ ~ In s (map fst team_mapping).
Proof.
  destruct (in_dec string_dec s (map fst team_mapping)); [now left | now right].
Qed.

(** X14. Standardizing a team name is idempotent, and the result is one of
    the five target teams exactly when the name is one the table knows:
    a full name, a city name or a short name of the five. *)
Theorem standardize_team_names_settles (s : string) :
  standardize_team_names (standardize_team_names s) = standardize_team_names s
  /\ (str_in (standardize_team_names s) target_teams = true
      <-> In s (map fst team_mapping)).
Proof.
  destruct (known_name_dec s) as [Hs | Hs].
  - split; [ | split; [intros _; exact Hs | intros _; now apply standardize_known]].
    cbn in Hs.
    repeat (destruct Hs as [<- | Hs]; [vm_compute; reflexivity | ]).
    destruct Hs.
  - rewrite (standardize_unknown s Hs). split; [now apply standardize_unknown | ].
    split; [ | intros H; contradiction].
    intros H. exfalso. apply Hs.
    apply str_in_In in H. cbn in H. cbn.
    repeat (destruct H as [<- | H]; [tauto | ]). destruct H.
Qed.

Lemma clean_rows_home (df : list ScheduleRow) (r : CleanedRow) :
  In r (clean_rows df) ->
  str_in (Home (schedule_row r)) target_teams = true
  /\ city_group_column r = derived_city_group (Home (schedule_row r))
  /\ geo_order_column r = rank_of (Home (schedule_row r)).
Proof.
  unfold clean_rows, add_geographic_info. intros H.
  apply in_map_iff in H as (x & <- & Hx).
  apply filter_In in Hx as [_ Hx]. cbn. now split.
Qed.

(** X15. The cleaned rows meet the input contract of the planner, in
    whatever order the sort by date leaves them: every home team is one of
    the five, the city group is the derived one and the geographic order
    is never missing; so the run on them raises nothing and every trip it
    ranks is valid. *)
Theorem cleaned_rows_are_well_formed (df : list ScheduleRow)
  (sorted_df : list CleanedRow) :
  Permutation sorted_df (clean_rows df) ->
  well_formed_records (map node_of_row sorted_df)
  /\ (forall r, In r sorted_df -> exists k, geo_order_column r = Some k)
  /\ exists d,
       plan_trips (map node_of_row sorted_df) = Ok d
       /\ forall L g t, length_dict_get d L = Some g -> In t g ->
                        valid_trip t /\ List.length t = L.
Proof.
  intros Hperm.
  assert (Hrow : forall r, In r sorted_df -> In r (clean_rows df))
    by (intros r; apply Permutation_in, Hperm).
  assert (Hwf : well_formed_records (map node_of_row sorted_df)).
  { apply Forall_forall. intros n Hn. apply in_map_iff in Hn as (r & <- & Hr).
    destruct (clean_rows_home df r (Hrow r Hr)) as (Hhome & Hcity & _).
    split; cbn; [exact Hhome | now rewrite Hcity]. }
  split; [exact Hwf | ]. split.
  - intros r Hr. destruct (clean_rows_home df r (Hrow r Hr)) as (Hhome & _ & ->).
    change (Home (schedule_row r)) with (team (node_of_row r)) in Hhome.
    rewrite <- ranked_target in Hhome.
    destruct (ranked_rank _ Hhome) as (k & Hk & _). exists k. exact Hk.
  - destruct (plan_trips_sound _ (well_formed_nyc _ Hwf)) as (d & Hd & H).
    exists d. split; [exact Hd | ].
    intros L g t Hg Ht. destruct (H L g t Hg Ht) as (Hv & _ & HL). now split.
Qed.

Lemma cleaned_rows_are_well_formed_witness :
  well_formed_records (map node_of_row cleaned_schedule)
  /\ (forall r, In r cleaned_schedule -> exists k, geo_order_column r = Some k)
  /\ exists d,
       plan_trips (map node_of_row cleaned_schedule) = Ok d
       /\ forall L g t, length_dict_get d L = Some g -> In t g ->
                        valid_trip t /\ List.length t = L.
Proof.
  apply (cleaned_rows_are_well_formed raw_schedule cleaned_schedule).
  apply Permutation_sym.
  exact (Permutation_cons_append (firstn 2 cleaned_schedule)
           (mkCleanedRow (mkScheduleRow 3 "76ers" "Knicks" "Madison Square Garden (IV)")
              (Some 3) "NYC")).
Defined.

(** ** The cities line of the report *)

Lemma cities_loop (trip : Trip) :
  forall cities seen,
    (forall c, str_in c seen = true <-> In c cities) ->
    NoDup cities ->
    exists more,
      fst (fold_left cities_step trip (cities, seen)) = cities ++ more
      /\ NoDup (cities ++ more)
      /\ subsequence more (map city_of trip)
      /\ forall game, In game trip -> In (city_of game) (cities ++ more).
Proof.
  induction trip as [ | game trip IH]; intros cities seen Hseen Hnd; cbn [fold_left].
  - exists []. rewrite app_nil_r. repeat split; [exact Hnd | constructor | ].
    intros game [].
  - unfold cities_step at 2. fold (city_of game).
    destruct (str_in (city_of game) seen) eqn:E; cbn [negb].
    + destruct (IH cities seen Hseen Hnd) as (more & Hfst & Hnd' & Hsub & Hall).
      exists more. repeat split; [exact Hfst | exact Hnd' | now constructor | ].
      intros g [<- | Hg]; [ | now apply Hall].
      apply in_or_app. left. now apply Hseen.
    + destruct (IH (cities ++ [city_of game]) (city_of game :: seen))
        as (more & Hfst & Hnd' & Hsub & Hall).
      * intros c. rewrite in_app_iff. cbn [In].
        change (str_in c (city_of game :: seen))
          with (String.eqb c (city_of game) || str_in c seen).
        rewrite orb_true_iff, String.eqb_eq, (Hseen c). intuition.
      * apply NoDup_app; [exact Hnd | repeat constructor; intros [] | ].
        intros c Hc [<- | []]. apply Hseen in Hc. congruence.
      * rewrite <- app_assoc in Hfst, Hnd', Hall. cbn [app] in Hfst, Hnd', Hall.
        exists (city_of game :: more).
        repeat split; [exact Hfst | exact Hnd' | now constructor | ].
        intros g [<- | Hg]; [ | now apply Hall].
        apply in_or_app. right. now left.
Qed.

(** X16. The cities line of a trip names every city of the trip once, in
    the order of the first visit: two games in New York, one of the Knicks
    and one of the Nets, give one entry. *)
Theorem cities_line_names_each_city_once (trip : Trip) :
  NoDup (cities_of trip)
  /\ subsequence (cities_of trip) (map city_of trip)
  /\ forall game, In game trip -> In (city_of game) (cities_of trip).
Proof.
  destruct (cities_loop trip [] []) as (more & Hfst & Hnd & Hsub & Hall).
  - intros c. cbn. split; [discriminate | intros []].
  - constructor.
  - unfold cities_of. rewrite Hfst. cbn [app] in *. now repeat split.
Qed.

(** ** Trips that start at the anchor *)

Lemma adjacent_pairs_snoc {A : Type} (p : list A) (a b : A) :
  adjacent_pairs ((p ++ [a]) ++ [b]) = adjacent_pairs (p ++ [a]) ++ [(a, b)].
Proof.
  induction p as [ | x p IH]; [reflexivity | ].
  destruct p as [ | y p]; [reflexivity | ].
  change (adjacent_pairs (((x :: y :: p) ++ [a]) ++ [b]))
    with ((x, y) :: adjacent_pairs (((y :: p) ++ [a]) ++ [b])).
  rewrite IH. reflexivity.
Qed.

Lemma found_from_climbing (G : DiGraph) (direction : string)
  (accept : GameNode -> list string -> Trip -> bool)
  current visited path t :
  (forall e, In e (g_edges G) -> e_direction e = direction ->
             rank_lt (team (e_from e)) (team (e_to e))) ->
  found_from G direction accept current visited path t ->
  climbing (path ++ [current]) -> climbing t.
Proof.
  intros Hedges.
  induction 1 as [current visited path _
                 | current visited path nb t _ Hlink _ _ IH]; intros Hc.
  - exact Hc.
  - apply IH. unfold climbing. rewrite adjacent_pairs_snoc.
    apply Forall_app. split; [exact Hc | ].
    constructor; [ | constructor]. cbn [fst snd].
    destruct Hlink as (e & He & Hm & Hd).
    unfold edge_matches in Hm. apply andb_true_iff in Hm as [Hfrom Hto].
    rewrite <- (node_eqb_team _ _ Hfrom), <- (node_eqb_team _ _ Hto).
    now apply Hedges.
Qed.

Lemma northbound_edge_climbs (records : list GameNode) (e : Edge) :
  well_formed_records records ->
  In e (g_edges (build_game_graph records)) ->
  e_direction e = "northbound" ->
  rank_lt (team (e_from e)) (team (e_to e)).
Proof.
  intros Hwf He Hd.
  pose proof (build_game_graph_justified records) as Hj.
  rewrite Forall_forall in Hj.
  destruct (Hj e He) as (a & b & Ha & Hb & Hfrom & Hto & _).
  destruct (built_graph_agrees records a b Hwf Ha Hb) as [_ Hagree].
  assert (Hm : edge_matches a b e = true)
    by (unfold edge_matches; now rewrite Hfrom, Hto).
  specialize (Hagree e He Hm). rewrite Hd in Hagree.
  unfold expected_direction in Hagree.
  destruct (_ && _); [ | discriminate Hagree].
  rewrite valid_southbound, valid_northbound in Hagree.
  destruct (co_located a b); [discriminate Hagree | ]. cbn [orb] in Hagree.
  destruct (str_in (team b) (dict_get SOUTHBOUND (team a) []));
    [discriminate Hagree | ].
  destruct (str_in (team b) (dict_get NORTHBOUND (team a) [])) eqn:Hn;
    [ | discriminate Hagree].
  rewrite (node_eqb_team _ _ Hfrom), (node_eqb_team _ _ Hto).
  now apply northbound_table_is_rank_order.
Qed.

Lemma rank_at_most_four (s : string) (r : nat) : rank_of s = Some r -> r <= 4.
Proof.
  unfold rank_of, get_team_geographic_order.
  team_split s; team_simpl; intros [= <-]; lia.
Qed.

Lemma climbing_length (rest : Trip) :
  forall a r, climbing (a :: rest) -> rank_of (team a) = Some r ->
              List.length (a :: rest) + r <= 5.
Proof.
  induction rest as [ | b rest IH]; intros a r Hc Hr.
  - apply rank_at_most_four in Hr. cbn. lia.
  - unfold climbing in Hc. cbn [adjacent_pairs] in Hc.
    inversion Hc as [ | ? ? Hab Hrest]; subst. cbn [fst snd] in Hab.
    unfold rank_lt in Hab. rewrite Hr in Hab.
    destruct (rank_of (team b)) as [rb | ] eqn:Hrb; [ | contradiction].
    specialize (IH b rb Hrest Hrb). cbn [List.length] in *. lia.
Qed.

Lemma climbing_score (t : Trip) :
  climbing t -> score_spec t = List.length t - 1.
Proof.
  induction t as [ | a t IH]; intros Hc; [reflexivity | ].
  destruct t as [ | b t]; [reflexivity | ].
  unfold climbing in Hc. cbn [adjacent_pairs] in Hc.
  inversion Hc as [ | ? ? Hab Hrest]; subst. cbn [fst snd] in Hab.
  rewrite score_spec_cons, (IH Hrest).
  assert (Hdiff : rank_differs (a, b) = true).
  { unfold rank_differs, rank_lt in *. cbn [fst snd].
    destruct (rank_of (team a)), (rank_of (team b)); try contradiction.
    apply negb_true_iff, Nat.eqb_neq. lia. }
  rewrite Hdiff. cbn [List.length]. lia.
Qed.

(** X17. On well-formed records a ranked trip that starts with its Wizards
    game climbs strictly: every game is played further north than the game
    before it.  Such a trip has at most four games, so no trip of five
    games starts at the anchor, and its score is the number of its hops. *)
Theorem trips_from_the_anchor_climb (records : list GameNode) (d : LengthDict)
  (L : nat) (g : list Trip) (t : Trip) :
  well_formed_records records ->
  plan_trips records = Ok d ->
  length_dict_get d L = Some g -> In t g ->
  (exists w rest, t = w :: rest /\ team w = "Wizards") ->
  climbing t /\ L <= 4 /\ calculate_travel_efficiency t = Ok (L - 1).
Proof.
  intros Hwf H Hg Ht (w & rest & -> & Hteam).
  destruct (run_trips records d H) as (trips & Htrips & Hall).
  destruct (Hall L g _ Hg Ht) as (Hin & Hv & Hr & HL).
  destruct Hv as ([H3 _] & Hnd & _).
  assert (Hclimb : climbing (w :: rest)).
  { destruct (find_all_valid_trips_sound _ _ Htrips _ Hin)
      as [(w' & _ & Hf) | (s & _ & _ & Hf)].
    - apply (found_from_climbing _ _ _ _ _ _ _
               (fun e He => northbound_edge_climbs records e Hwf He) Hf).
      constructor.
    - exfalso.
      destruct (found_from_accepted _ _ _ _ _ _ _ Hf tracks_nil)
        as (final & teams & p & Hp & _ & Ha).
      unfold accept_southbound in Ha. apply andb_true_iff in Ha as [Hw _].
      apply String.eqb_eq in Hw.
      destruct p as [ | first p].
      + rewrite Hp in H3. cbn in H3. lia.
      + cbn [app] in Hp. injection Hp as <- Hrest.
        rewrite Hrest in Hnd.
        apply (distinct_teams_last (w :: p) final Hnd w); [now left | congruence]. }
  split; [exact Hclimb | ].
  assert (Hrank : rank_of (team w) = Some 1) by (now rewrite Hteam).
  pose proof (climbing_length rest w 1 Hclimb Hrank) as Hlen.
  split; [lia | ].
  rewrite calculate_travel_efficiency_spec, Hr, orb_true_r.
  now rewrite (climbing_score _ Hclimb), HL.
Qed.

Lemma trips_from_the_anchor_climb_witness :
  climbing (firstn 3 south_to_north_schedule)
  /\ 3 <= 4
  /\ calculate_travel_efficiency (firstn 3 south_to_north_schedule) = Ok (3 - 1).
Proof.
  apply (trips_from_the_anchor_climb (firstn 3 south_to_north_schedule)
           [(3, [firstn 3 south_to_north_schedule])] 3
           [firstn 3 south_to_north_schedule]).
  - repeat constructor.
  - vm_compute; reflexivity.
  - reflexivity.
  - now left.
  - exists (row "Wizards" 1 "Celtics" "Capital One Arena").
    exists [row "76ers" 2 "Wizards" "Wells Fargo Center";
            row "Knicks" 3 "76ers" "Madison Square Garden (IV)"].
    split; reflexivity.
Defined.
